(** * kbot-phase: the walking task of [train.py]

    A shallow embedding of the phase clock, the guarded reward terms, the
    mixture spread transform and the recurrent actor/critic evaluation of
    [train.py], with the properties the specification states about them.

    Numbers.  JAX arrays of floats are modelled as lists of real numbers
    ([R]); rounding, overflow and NaN are therefore outside the model, and
    the statements below are about the exact arithmetic the code denotes.
    The one exception is the spread transform of [Actor.forward], which is
    also given over IEEE-754 values (module [IEEE]) to state that it never
    yields NaN.  A rank-1 array is a [Vec], a rank-2 array a [Mat] (a list
    of rows).

    Errors.  Python exceptions are values of [PyError]; a function that can
    raise returns [result A]. *)

From Stdlib Require Import Reals Lra Lia ZArith.
From stdpp Require Import base option list gmap strings.

Local Open Scope R_scope.

(* ------------------------------------------------------------------ *)
(** ** Exceptions and the error monad                                   *)
(* ------------------------------------------------------------------ *)

Inductive PyError : Type :=
| ValueError (msg : string)   (* raise ValueError(msg) *)
| KeyError (key : string)     (* a mapping subscripted with an absent key *)
| IndexError                  (* an array subscripted out of range *)
| ShapeError.                 (* incompatible shapes in a jnp operation *)

Definition result (A : Type) : Type := PyError + A.

Definition ret {A} (a : A) : result A := inr a.
Definition raise {A} (e : PyError) : result A := inl e.

Definition bind {A B} (m : result A) (k : A -> result B) : result B :=
  match m with
  | inl e => inl e
  | inr a => k a
  end.

Notation "x <- m ; k" := (bind m (fun x => k))
  (at level 20, m at level 100, k at level 200, only parsing).
Notation "' p <- m ; k" := (bind m (fun p => k))
  (at level 20, p pattern, m at level 100, k at level 200, only parsing).

(** The descriptive configuration error of the reward terms: a [ValueError]
    whose message contains the name of the missing key. *)
Definition descriptive_error (e : PyError) (key : string) : Prop :=
  exists pre post, e = ValueError (pre +:+ key +:+ post).

(* ------------------------------------------------------------------ *)
(** ** Arrays                                                           *)
(* ------------------------------------------------------------------ *)

Abbreviation Vec := (list R).
Abbreviation Mat := (list (list R)).

#[global] Instance Rlt_decision : RelDecision Rlt := Rlt_dec.
#[global] Instance Rle_decision : RelDecision Rle := Rle_dec.
#[global] Instance Rgt_decision : RelDecision Rgt := Rgt_dec.

(** A Python bool used as a number: [True] is [1], [False] is [0]. *)
Definition b2r (b : bool) : R := if b then 1 else 0.

Definition vsum (v : Vec) : R := foldr Rplus 0 v.

(** [jnp.linalg.norm(v, axis=-1)] on a vector: the Euclidean norm. *)
Definition norm (v : Vec) : R := sqrt (vsum (map (fun x => x * x) v)).

(** Binary elementwise operation on rank-1 arrays with NumPy broadcasting:
    equal lengths combine pointwise, a length-1 operand is stretched, any
    other combination is a shape error. *)
Fixpoint zip_with_exact (f : R -> R -> R) (xs ys : Vec) : result Vec :=
  match xs, ys with
  | [], [] => ret []
  | x :: xs', y :: ys' => r <- zip_with_exact f xs' ys' ; ret (f x y :: r)
  | _, _ => raise ShapeError
  end.

Definition broadcast2 (f : R -> R -> R) (xs ys : Vec) : result Vec :=
  match xs, ys with
  | [x], _ => ret (map (f x) ys)
  | _, [y] => ret (map (fun x => f x y) xs)
  | _, _ => zip_with_exact f xs ys
  end.

(** [jnp.where(c, x, y)] with a scalar condition and operands of one shape.
    Both uses in [train.py] select between arrays of equal shape; stretching
    of unequal shapes is not modelled and is reported as a shape error. *)
Definition where_vec (c : bool) (x y : Vec) : result Vec :=
  zip_with_exact (fun a b => if c then a else b) x y.

Fixpoint where_mat (c : bool) (x y : Mat) : result Mat :=
  match x, y with
  | [], [] => ret []
  | r :: x', s :: y' =>
      t <- where_vec c r s ; m <- where_mat c x' y' ; ret (t :: m)
  | _, _ => raise ShapeError
  end.

(** [jnp.zeros(shape=(rows, cols))]. *)
Definition zeros (rows cols : nat) : Mat := replicate rows (replicate cols 0).

(** [jnp.stack(rows, axis=0)]: needs at least one row, all of one length. *)
Definition stack (rows : list Vec) : result Mat :=
  match rows with
  | [] => raise (ValueError "Need at least one array to stack.")
  | r :: rest =>
      if forallb (fun s => Nat.eqb (length s) (length r)) rest
      then ret rows else raise ShapeError
  end.

(** [v.reshape(rows, cols)] of a rank-1 array, row-major. *)
Fixpoint chunks (rows cols : nat) (v : Vec) : Mat :=
  match rows with
  | O => []
  | S n => take cols v :: chunks n cols (drop cols v)
  end.

Definition reshape (rows cols : nat) (v : Vec) : result Mat :=
  if Nat.eqb (length v) (rows * cols) then ret (chunks rows cols v)
  else raise ShapeError.

(** [a[i]] on the leading axis of a JAX array, with a Python int [i >= 0].
    JAX does not raise on an index past the end of the axis: it clamps the
    index into the axis, so the last row is returned.  Only an axis of size
    0, which has nothing to return, raises [IndexError]. *)
Definition row (m : Mat) (i : nat) : result Vec :=
  match m !! Nat.min i (length m - 1) with
  | Some r => ret r
  | None => raise IndexError
  end.

(** [a[..., i]] on the last axis of a JAX array, here for one vector: the
    index is clamped in the same way. *)
Definition item (v : Vec) (i : nat) : result R :=
  match v !! Nat.min i (length v - 1) with
  | Some x => ret x
  | None => raise IndexError
  end.

(** [mapM] over a list, left to right, stopping at the first error. *)
Fixpoint mapM {A B} (f : A -> result B) (l : list A) : result (list B) :=
  match l with
  | [] => ret []
  | a :: l' => b <- f a ; bs <- mapM f l' ; ret (b :: bs)
  end.

(* ------------------------------------------------------------------ *)
(** ** [fmod] on the reals                                              *)
(* ------------------------------------------------------------------ *)

(** Rounding toward zero. *)
Definition Rtrunc (r : R) : Z :=
  if decide (0 <= r) then Int_part r else (- Int_part (- r))%Z.

(** [jnp.fmod(x, y)]: the C [fmod], [x - trunc(x / y) * y]; the result has
    the sign of [x]. *)
Definition fmod (x y : R) : R := x - IZR (Rtrunc (x / y)) * y.

(** The phase wrap of lines 233 and 278:
    [jnp.fmod(phase + jnp.pi, 2 * jnp.pi) - jnp.pi]. *)
Definition wrap (p : R) : R := fmod (p + PI) (2 * PI) - PI.

(** [jax.nn.softplus]. *)
Definition softplus (x : R) : R := ln (1 + exp x).

(** [jnp.clip(x, max=hi)]. *)
Definition clip_max (x hi : R) : R := Rmin x hi.

(** [jnp.clip(x, lo, hi)]. *)
Definition clip (x lo hi : R) : R := Rmin (Rmax x lo) hi.

(** [math.radians]. *)
Definition radians (deg : R) : R := deg * PI / 180.

(* ------------------------------------------------------------------ *)
(** ** Mappings                                                         *)
(* ------------------------------------------------------------------ *)

(** [xax.FrozenDict[str, Array]]: subscripting an absent key raises
    [KeyError(key)]; [key in d] is [contains]. *)
Definition getitem {V} (d : gmap string V) (key : string) : result V :=
  match d !! key with
  | Some v => ret v
  | None => raise (KeyError key)
  end.

Definition contains {V} (d : gmap string V) (key : string) : bool :=
  bool_decide (is_Some (d !! key)).

(** Combining arrays along the leading (time) axis: the rows are paired in
    order; leading axes of different length are a shape error. *)
Fixpoint zipM2 {A B C} (f : A -> B -> result C) (xs : list A) (ys : list B)
  : result (list C) :=
  match xs, ys with
  | [], [] => ret []
  | x :: xs', y :: ys' => c <- f x y ; cs <- zipM2 f xs' ys' ; ret (c :: cs)
  | _, _ => raise ShapeError
  end.

(** [jnp.int32(x)] of a float: rounding toward zero; a value outside the
    32-bit range is clamped to its nearest end, as XLA converts it. *)
Definition int32 (x : R) : Z :=
  Z.max (- 2 ^ 31) (Z.min (2 ^ 31 - 1) (Rtrunc x)).

(* ------------------------------------------------------------------ *)
(** ** Constants of the module                                          *)
(* ------------------------------------------------------------------ *)

Definition NUM_JOINTS : nat := 20.

(** In the order of the neural network outputs. *)
Definition ZEROS : list (string * R) :=
  [ ("dof_right_shoulder_pitch_03", 0);
    ("dof_right_shoulder_roll_03", radians (-10));
    ("dof_right_shoulder_yaw_02", 0);
    ("dof_right_elbow_02", radians 15);
    ("dof_right_wrist_00", 0);
    ("dof_left_shoulder_pitch_03", 0);
    ("dof_left_shoulder_roll_03", radians 10);
    ("dof_left_shoulder_yaw_02", 0);
    ("dof_left_elbow_02", radians (-15));
    ("dof_left_wrist_00", 0);
    ("dof_right_hip_pitch_04", radians (-25));
    ("dof_right_hip_roll_03", radians (-5));
    ("dof_right_hip_yaw_03", 0);
    ("dof_right_knee_04", radians (-50));
    ("dof_right_ankle_02", radians 25);
    ("dof_left_hip_pitch_04", radians 25);
    ("dof_left_hip_roll_03", radians 5);
    ("dof_left_hip_yaw_03", 0);
    ("dof_left_knee_04", radians 50);
    ("dof_left_ankle_02", radians (-25)) ].

(* ------------------------------------------------------------------ *)
(** ** The data the core consumes                                       *)
(* ------------------------------------------------------------------ *)

(** [ksim.ObservationInput], as far as [TimestepPhaseObservation] reads it:
    the command mapping and the simulation time
    ([state.physics_state.data.time]). *)
Record ObservationInput : Type := {
  commands : gmap string Vec;
  time : R
}.

(** [ksim.Trajectory]: every leaf carries the time axis first. *)
Record Trajectory : Type := {
  obs : gmap string Mat;
  command : gmap string Mat;
  action : Mat;
  qpos : Mat;
  done : list bool;
  success : list bool;
  timestep : list R
}.

(** One time slice of a trajectory, as [jax.lax.scan] hands it to its body. *)
Record Transition : Type := {
  t_obs : gmap string Vec;
  t_command : gmap string Vec;
  t_action : Vec;
  t_done : bool
}.

(* ------------------------------------------------------------------ *)
(** ** Phase clock as an observation                                    *)
(* ------------------------------------------------------------------ *)

Module TimestepPhaseObservation.

Record t : Type := {
  ctrl_dt : R;
  stand_still_threshold : R
}.

Definition default : t :=
  {| ctrl_dt := 2 / 100; stand_still_threshold := 0 |}.

(** [ksim.TimestepObservation.observe]: the simulation time as a
    one-element array. *)
Definition super_observe (state : ObservationInput) : Vec := [time state].

(** Lines 227-233 of [observe]: the wrapped per-foot phase before the
    stand-still override. *)
Definition wrapped_phase (self : t) (state : ObservationInput) : result Vec :=
  gait_freq <- getitem (commands state) "gait_frequency_command" ;
  let timestep := super_observe state in
  let steps := map (fun x => x / ctrl_dt self) timestep in
  let phase_dt := map (fun f => 2 * PI * f * ctrl_dt self) gait_freq in
  let start_phase := [0; PI] in
  sp <- broadcast2 Rmult steps phase_dt ;
  phase <- broadcast2 Rplus start_phase sp ;
  ret (map wrap phase).

(** Lines 227-243 of [observe]: the phase after the stand-still override. *)
Definition phase (self : t) (state : ObservationInput) : result Vec :=
  phase <- wrapped_phase self state ;
  vel_cmd <- getitem (commands state) "linear_velocity_command" ;
  ang_vel_cmd <- getitem (commands state) "angular_velocity_command" ;
  let cmd_norm := norm (vel_cmd ++ ang_vel_cmd) in
  where_vec (bool_decide (cmd_norm < stand_still_threshold self))
    [PI / 2; PI] phase.

Definition observe (self : t) (state : ObservationInput) : result Vec :=
  phase <- phase self state ;
  ret (map cos phase ++ map sin phase).

End TimestepPhaseObservation.

(* ------------------------------------------------------------------ *)
(** ** Reward terms                                                     *)
(* ------------------------------------------------------------------ *)

(** [xax.NormType] and [xax.get_norm], applied elementwise. *)
Inductive NormType : Type := l1 | l2.

Definition get_norm (x : Vec) (n : NormType) : Vec :=
  match n with
  | l1 => map Rabs x
  | l2 => map (fun a => a * a) x
  end.

Module FeetPhaseReward.

Record t : Type := {
  scale : R;
  feet_pos_obs_name : string;
  linear_velocity_cmd_name : string;
  angular_velocity_cmd_name : string;
  gait_freq_cmd_name : string;
  max_foot_height : R;
  ctrl_dt : R;
  sensitivity : R;
  foot_default_height : R;
  stand_still_threshold : R
}.

Definition default : t :=
  {| scale := 1;
     feet_pos_obs_name := "feet_position_observation";
     linear_velocity_cmd_name := "linear_velocity_command";
     angular_velocity_cmd_name := "angular_velocity_command";
     gait_freq_cmd_name := "gait_frequency_command";
     max_foot_height := 12 / 100;
     ctrl_dt := 2 / 100;
     sensitivity := 1 / 100;
     foot_default_height := 0;
     stand_still_threshold := 0 |}.

Section Interpolant.

(** [xax.cubic_bezier_interpolation(y_start, y_end, x)], a function of
    the [xax] library: it is taken as a parameter here and constrained
    only where a property needs its contract. *)
Variable cubic_bezier_interpolation : R -> R -> R -> R.

(** [gait_phase] at one phase value. *)
Definition gait_phase (phi : R) (swing_height : R) : R :=
  let x := (phi + PI) / (2 * PI) in
  let x := clip x 0 1 in
  let stance := cubic_bezier_interpolation 0 swing_height (2 * x) in
  let swing := cubic_bezier_interpolation swing_height 0 (2 * x - 1) in
  if bool_decide (x <= 5 / 10) then stance else swing.

(** Lines 270-278 of [get_reward] for one time step: the two wrapped
    phases from the step's elapsed time and gait-frequency row. *)
Definition phase_row (self : t) (timestep : R) (gait_freq : Vec)
  : result Vec :=
  let phase_dt := map (fun f => 2 * PI * f * ctrl_dt self) gait_freq in
  let steps := IZR (int32 (timestep / ctrl_dt self)) in
  let steps := [steps; steps] in
  let start_phase := [0; PI] in
  sp <- broadcast2 Rmult steps phase_dt ;
  phase <- broadcast2 Rplus start_phase sp ;
  ret (map wrap phase).

Definition phase (self : t) (trajectory : Trajectory) : result Mat :=
  gait_freq_n <- getitem (command trajectory) (gait_freq_cmd_name self) ;
  zipM2 (phase_row self) (timestep trajectory) gait_freq_n.

Definition get_reward (self : t) (trajectory : Trajectory) : result Vec :=
  if negb (contains (obs trajectory) (feet_pos_obs_name self)) then
    raise (ValueError ("Observation " +:+ feet_pos_obs_name self +:+
      " not found; add it as an observation in your task."))
  else if negb (contains (command trajectory) (gait_freq_cmd_name self)) then
    raise (ValueError ("Command " +:+ gait_freq_cmd_name self +:+
      " not found; add it as a command in your task."))
  else
    phase <- phase self trajectory ;
    foot_pos <- getitem (obs trajectory) (feet_pos_obs_name self) ;
    foot_z <- mapM (fun p => a <- item p 2 ; b <- item p 5 ; ret [a; b])
                foot_pos ;
    let ideal_z :=
      map (map (fun phi => gait_phase phi (max_foot_height self))) phase in
    error <- zipM2 (fun z i => d <- broadcast2 Rminus z i ;
                               ret (vsum (map (fun a => a * a) d)))
               foot_z ideal_z ;
    let reward := map (fun e => exp (- e / sensitivity self)) error in
    vel_cmd <- getitem (command trajectory) (linear_velocity_cmd_name self) ;
    ang_vel_cmd <-
      getitem (command trajectory) (angular_velocity_cmd_name self) ;
    command_norm <- zipM2 (fun v a => ret (norm (v ++ a))) vel_cmd ang_vel_cmd ;
    zipM2 (fun r n =>
             ret (r * b2r (bool_decide (n > stand_still_threshold self))))
      reward command_norm.

End Interpolant.

End FeetPhaseReward.

Module LinearVelocityTrackingReward.

Record t : Type := {
  error_scale : R;
  linvel_obs_name : string;
  command_name : string;
  norm_type : NormType;
  stand_still_threshold : R
}.

Definition default : t :=
  {| error_scale := 25 / 100;
     linvel_obs_name := "sensor_observation_base_site_linvel";
     command_name := "linear_velocity_command";
     norm_type := l2;
     stand_still_threshold := 0 |}.

Definition get_reward (self : t) (trajectory : Trajectory) : result Vec :=
  if negb (contains (obs trajectory) (linvel_obs_name self)) then
    raise (ValueError ("Observation " +:+ linvel_obs_name self +:+
      " not found; add it as an observation in your task."))
  else
    command <- getitem (command trajectory) (command_name self) ;
    linvel <- getitem (obs trajectory) (linvel_obs_name self) ;
    lin_vel_error <-
      zipM2 (fun c o => d <- broadcast2 Rminus c (take 2 o) ;
                        ret (vsum (get_norm d (norm_type self))))
        command linvel ;
    let reward_value :=
      map (fun e => exp (- e / error_scale self)) lin_vel_error in
    let command_norm := map norm command in
    zipM2 (fun r n =>
             ret (r * b2r (bool_decide (n > stand_still_threshold self))))
      reward_value command_norm.

End LinearVelocityTrackingReward.

Module FeetSlipPenalty.

Record t : Type := {
  scale : R;
  com_vel_obs_name : string;
  feet_contact_obs_name : string
}.

Definition default : t :=
  {| scale := -1;
     com_vel_obs_name := "center_of_mass_velocity_observation";
     feet_contact_obs_name := "feet_contact_observation" |}.

Definition get_reward (self : t) (trajectory : Trajectory) : result Vec :=
  if negb (contains (obs trajectory) (feet_contact_obs_name self)) then
    raise (ValueError ("Observation " +:+ feet_contact_obs_name self +:+
      " not found; add it as an observation in your task."))
  else
    contact <- getitem (obs trajectory) (feet_contact_obs_name self) ;
    com_vel <- getitem (obs trajectory) (com_vel_obs_name self) ;
    let body_vel := map (take 2) com_vel in
    let normed_body_vel := map norm body_vel in
    zipM2 (fun n c => ret (vsum (map (fun x => n * x) c)))
      normed_body_vel contact.

End FeetSlipPenalty.

Module StandStillReward.

Record t : Type := {
  scale : R;
  sensitivity : R;
  norm_type : NormType;
  linear_velocity_cmd_name : string;
  angular_velocity_cmd_name : string;
  joint_targets : Vec;
  stand_still_threshold : R
}.

Definition default (joint_targets : Vec) : t :=
  {| scale := 1;
     sensitivity := 1 / 100;
     norm_type := l1;
     linear_velocity_cmd_name := "linear_velocity_command";
     angular_velocity_cmd_name := "angular_velocity_command";
     joint_targets := joint_targets;
     stand_still_threshold := 0 |}.

Definition get_reward (self : t) (trajectory : Trajectory) : result Vec :=
  vel_cmd <- getitem (command trajectory) (linear_velocity_cmd_name self) ;
  ang_vel_cmd <- getitem (command trajectory) (angular_velocity_cmd_name self) ;
  cmd_norm <- zipM2 (fun v a => ret (norm (v ++ a))) vel_cmd ang_vel_cmd ;
  error <- mapM (fun q => d <- broadcast2 Rminus (drop 7 q) (joint_targets self) ;
                          ret (vsum (map (fun a => a * a) d)))
             (qpos trajectory) ;
  let reward := map (fun e => exp (- e / sensitivity self)) error in
  zipM2 (fun r n =>
           ret (r * b2r (bool_decide (n < stand_still_threshold self))))
    reward cmd_norm.

End StandStillReward.

(* ------------------------------------------------------------------ *)
(** ** Networks                                                         *)
(* ------------------------------------------------------------------ *)

(** [eqx.nn.Linear] and [eqx.nn.GRUCell] are library layers.  A layer is
    the widths it was constructed with and the function its parameters
    compute.  Both multiply a weight matrix with the array they are given,
    which raises when the widths do not match: this is the error [call]
    returns. *)
Module Linear.

Record t : Type := {
  in_features : nat;
  out_features : nat;
  affine : Vec -> Vec   (* x -> self.weight @ x + self.bias *)
}.

Definition call (self : t) (x : Vec) : result Vec :=
  if Nat.eqb (length x) (in_features self) then ret (affine self x)
  else raise ShapeError.

(** A layer returns [out_features] entries. *)
Definition well_formed (self : t) : Prop :=
  forall x, length x = in_features self ->
            length (affine self x) = out_features self.

End Linear.

Module GRUCell.

Record t : Type := {
  input_size : nat;
  hidden_size : nat;
  update : Vec -> Vec -> Vec   (* input, previous hidden state -> new one *)
}.

Definition call (self : t) (input hx : Vec) : result Vec :=
  if Nat.eqb (length input) (input_size self)
     && Nat.eqb (length hx) (hidden_size self)
  then ret (update self input hx)
  else raise ShapeError.

(** A cell returns a hidden state of [hidden_size] entries. *)
Definition well_formed (self : t) : Prop :=
  forall input hx, length input = input_size self ->
                   length hx = hidden_size self ->
                   length (update self input hx) = hidden_size self.

End GRUCell.

(** [ksim.MixtureOfGaussians(means_nm, stds_nm, logits_nm)]. *)
Record MixtureOfGaussians : Type := {
  means_nm : Mat;
  stds_nm : Mat;
  logits_nm : Mat
}.

(** What the task asks of the action distribution; [PRNGKey] is the type of
    JAX random keys.  [log_prob] is given an array from outside the
    distribution and raises when it does not broadcast against the
    parameters. *)
Class Distribution (PRNGKey : Type) : Type := {
  log_prob : MixtureOfGaussians -> Vec -> result Vec;
  mode : MixtureOfGaussians -> Vec;
  sample : MixtureOfGaussians -> PRNGKey -> Vec
}.

(** The loop over [self.rnns] shared by [Actor.forward] and
    [Critic.forward]: cell [i] reads [carry[i]], its output is the input of
    the next cell and is appended to [out_carries]. *)
Fixpoint run_rnns (rnns : list GRUCell.t) (i : nat) (x_n : Vec) (carry : Mat)
    (out_carries : list Vec) : result (Vec * list Vec) :=
  match rnns with
  | [] => ret (x_n, out_carries)
  | rnn :: rest =>
      h <- row carry i ;
      x_n <- GRUCell.call rnn x_n h ;
      run_rnns rest (S i) x_n carry (out_carries ++ [x_n])
  end.

Module Actor.

Record t : Type := {
  input_proj : Linear.t;
  rnns : list GRUCell.t;
  output_proj : Linear.t;
  num_inputs : nat;
  num_outputs : nat;
  num_mixtures : nat;
  min_std : R;
  max_std : R;
  var_scale : R
}.

(** Line 637: softplus, floor, scale, ceiling, on one raw output. *)
Definition std_transform (self : t) (raw : R) : R :=
  clip_max ((softplus raw + min_std self) * var_scale self) (max_std self).

Definition forward (self : t) (obs_n : Vec) (carry : Mat)
  : result (MixtureOfGaussians * Mat) :=
  x_n <- Linear.call (input_proj self) obs_n ;
  '(x_n, out_carries) <- run_rnns (rnns self) 0 x_n carry [] ;
  out_n <- Linear.call (output_proj self) x_n ;
  let slice_len := (NUM_JOINTS * num_mixtures self)%nat in
  mean_nm <- reshape NUM_JOINTS (num_mixtures self) (take slice_len out_n) ;
  std_nm <- reshape NUM_JOINTS (num_mixtures self)
              (take slice_len (drop slice_len out_n)) ;
  logits_nm <- reshape NUM_JOINTS (num_mixtures self)
                 (drop (slice_len * 2) out_n) ;
  let std_nm := map (map (std_transform self)) std_nm in
  mean_nm <- zipM2 (fun r z => ret (map (fun m => m + z) r))
               mean_nm (map snd ZEROS) ;
  let dist_n :=
    {| means_nm := mean_nm; stds_nm := std_nm; logits_nm := logits_nm |} in
  c <- stack out_carries ;
  ret (dist_n, c).

End Actor.

Module Critic.

Record t : Type := {
  input_proj : Linear.t;
  rnns : list GRUCell.t;
  output_proj : Linear.t
}.

Definition forward (self : t) (obs_n : Vec) (carry : Mat)
  : result (Vec * Mat) :=
  x_n <- Linear.call (input_proj self) obs_n ;
  '(x_n, out_carries) <- run_rnns (rnns self) 0 x_n carry [] ;
  out_n <- Linear.call (output_proj self) x_n ;
  c <- stack out_carries ;
  ret (out_n, c).

End Critic.

Record Model : Type := {
  actor : Actor.t;
  critic : Critic.t
}.

(** [ksim.PPOVariables] for one transition. *)
Record PPOVariables : Type := {
  log_probs : Vec;
  values : R
}.

(** [ksim.Action]; [aux_outputs] is always [None]. *)
Record Action : Type := {
  action_j : Vec;
  carry : Mat * Mat;
  aux_outputs : option unit
}.

(** [jax.lax.scan(f, init, xs)]: the body is applied to the slices in order,
    threading the carry; the outputs are stacked. *)
Fixpoint lax_scan {C X Y} (f : C -> X -> result (C * Y)) (init : C)
    (xs : list X) : result (C * list Y) :=
  match xs with
  | [] => ret (init, [])
  | x :: xs' =>
      '(c, y) <- f init x ;
      '(c', ys) <- lax_scan f c xs' ;
      ret (c', y :: ys)
  end.

(** The slices [jax.lax.scan] iterates over: the trajectory is cut along the
    leading axis of its leaves, which must have one length for all of them;
    a slice keeps the leaves the scan body reads. *)
Definition slice_at (trajectory : Trajectory) (i : nat) : result Transition :=
  match action trajectory !! i, done trajectory !! i with
  | Some a, Some d =>
      ret {| t_obs := omap (fun m : Mat => m !! i) (obs trajectory);
             t_command := omap (fun m : Mat => m !! i) (command trajectory);
             t_action := a;
             t_done := d |}
  | _, _ => raise IndexError
  end.

Definition same_leading_axis (trajectory : Trajectory) : bool :=
  let n := length (done trajectory) in
  bool_decide (map_Forall (fun _ (m : Mat) => length m = n) (obs trajectory))
  && bool_decide (map_Forall (fun _ (m : Mat) => length m = n)
                    (command trajectory))
  && Nat.eqb (length (action trajectory)) n
  && Nat.eqb (length (qpos trajectory)) n
  && Nat.eqb (length (success trajectory)) n
  && Nat.eqb (length (timestep trajectory)) n.

Definition unstack (trajectory : Trajectory) : result (list Transition) :=
  if same_leading_axis trajectory
  then mapM (slice_at trajectory) (seq 0 (length (done trajectory)))
  else raise (ValueError "scan got values with different leading axis sizes").

Module KbotWalkingTask.

(** The fields of [KbotWalkingTaskConfig] the core reads. *)
Record t : Type := {
  hidden_size : nat;
  depth : nat;
  stand_still_threshold : R
}.

Section Task.

Context {PRNGKey : Type} `{!Distribution PRNGKey}.

Definition run_actor (self : t) (model : Actor.t)
    (observations commands : gmap string Vec) (carry : Mat)
  : result (MixtureOfGaussians * Mat) :=
  timestep_phase_4 <- getitem observations "timestep_phase_observation" ;
  joint_pos_n <- getitem observations "joint_position_observation" ;
  joint_vel_n <- getitem observations "joint_velocity_observation" ;
  proj_grav_3 <- getitem observations "projected_gravity_observation" ;
  imu_gyro_3 <- getitem observations "sensor_observation_imu_gyro" ;
  imu_acc_3 <- getitem observations "sensor_observation_imu_acc" ;
  lin_vel_cmd_2 <- getitem commands "linear_velocity_command" ;
  ang_vel_cmd <- getitem commands "angular_velocity_command" ;
  gait_freq_cmd <- getitem commands "gait_frequency_command" ;
  let obs_n :=
    timestep_phase_4 ++ joint_pos_n ++ joint_vel_n ++ proj_grav_3 ++
    imu_acc_3 ++ imu_gyro_3 ++ lin_vel_cmd_2 ++ ang_vel_cmd ++
    gait_freq_cmd in
  Actor.forward model obs_n carry.

Definition run_critic (self : t) (model : Critic.t)
    (observations commands : gmap string Vec) (carry : Mat)
  : result (Vec * Mat) :=
  timestep_phase_4 <- getitem observations "timestep_phase_observation" ;
  joint_pos_n <- getitem observations "joint_position_observation" ;
  joint_vel_n <- getitem observations "joint_velocity_observation" ;
  proj_grav_3 <- getitem observations "projected_gravity_observation" ;
  imu_gyro_3 <- getitem observations "sensor_observation_imu_gyro" ;
  imu_acc_3 <- getitem observations "sensor_observation_imu_acc" ;
  lin_vel_cmd_2 <- getitem commands "linear_velocity_command" ;
  ang_vel_cmd <- getitem commands "angular_velocity_command" ;
  gait_freq_cmd <- getitem commands "gait_frequency_command" ;
  (* Privileged observations *)
  feet_contact_4 <- getitem observations "feet_contact_observation" ;
  feet_position_6 <- getitem observations "feet_position_observation" ;
  base_position_3 <- getitem observations "base_position_observation" ;
  base_orientation_4 <- getitem observations "base_orientation_observation" ;
  base_linear_velocity_3 <-
    getitem observations "base_linear_velocity_observation" ;
  base_angular_velocity_3 <-
    getitem observations "base_angular_velocity_observation" ;
  actuator_force_n <- getitem observations "actuator_force_observation" ;
  let obs_n :=
    timestep_phase_4 ++ joint_pos_n ++ map (fun v => v / 10) joint_vel_n ++
    proj_grav_3 ++ imu_acc_3 ++ imu_gyro_3 ++ lin_vel_cmd_2 ++
    ang_vel_cmd ++ gait_freq_cmd ++ feet_contact_4 ++ feet_position_6 ++
    base_position_3 ++ base_orientation_4 ++ base_linear_velocity_3 ++
    base_angular_velocity_3 ++ map (fun f => f / 100) actuator_force_n in
  Critic.forward model obs_n carry.

Definition get_initial_model_carry (self : t) (rng : PRNGKey) : Mat * Mat :=
  (zeros (depth self) (hidden_size self),
   zeros (depth self) (hidden_size self)).

(** [value.squeeze(-1)]: the last axis must have size one. *)
Definition squeeze (value : Vec) : result R :=
  match value with
  | [v] => ret v
  | _ => raise (ValueError "cannot select an axis to squeeze out which has size not equal to one")
  end.

(** The body of the scan in [get_ppo_variables]. *)
Definition scan_fn (self : t) (model : Model) (rng : PRNGKey)
    (actor_critic_carry : Mat * Mat) (transition : Transition)
  : result ((Mat * Mat) * PPOVariables) :=
  let '(actor_carry, critic_carry) := actor_critic_carry in
  '(actor_dist, next_actor_carry) <-
    run_actor self (actor model) (t_obs transition) (t_command transition)
      actor_carry ;
  log_probs <- log_prob actor_dist (t_action transition) ;
  '(value, next_critic_carry) <-
    run_critic self (critic model) (t_obs transition)
      (t_command transition) critic_carry ;
  v <- squeeze value ;
  let transition_ppo_variables := {| log_probs := log_probs; values := v |} in
  let '(init_actor, init_critic) := get_initial_model_carry self rng in
  a <- where_mat (t_done transition) init_actor next_actor_carry ;
  c <- where_mat (t_done transition) init_critic next_critic_carry ;
  ret ((a, c), transition_ppo_variables).

(** The carry the scan feeds into step [i]: the initial carry threaded
    through the first [i] slices. *)
Definition carry_into (self : t) (model : Model) (rng : PRNGKey)
    (model_carry : Mat * Mat) (xs : list Transition) (i : nat)
  : result (Mat * Mat) :=
  '(c, _) <- lax_scan (scan_fn self model rng) model_carry (take i xs) ;
  ret c.

Definition get_ppo_variables (self : t) (model : Model)
    (trajectory : Trajectory) (model_carry : Mat * Mat) (rng : PRNGKey)
  : result (list PPOVariables * (Mat * Mat)) :=
  xs <- unstack trajectory ;
  '(next_model_carry, ppo_variables) <-
    lax_scan (scan_fn self model rng) model_carry xs ;
  ret (ppo_variables, next_model_carry).

(** [physics_model] and [physics_state] are not read by the body and are
    left out. *)
Definition sample_action (self : t) (model : Model)
    (model_carry : Mat * Mat) (observations commands : gmap string Vec)
    (rng : PRNGKey) (argmax : bool) : result Action :=
  let '(actor_carry_in, critic_carry_in) := model_carry in
  '(action_dist_j, actor_carry) <-
    run_actor self (actor model) observations commands actor_carry_in ;
  let action_j :=
    if argmax then mode action_dist_j else sample action_dist_j rng in
  ret {| action_j := action_j;
         carry := (actor_carry, critic_carry_in);
         aux_outputs := None |}.

End Task.

End KbotWalkingTask.

(* ------------------------------------------------------------------ *)
(** ** Further reward terms                                             *)
(* ------------------------------------------------------------------ *)

Module AngularVelocityTrackingReward.

Record t : Type := {
  error_scale : R;
  angvel_obs_name : string;
  command_name : string;
  norm_type : NormType;
  stand_still_threshold : R
}.

Definition default : t :=
{| error_scale := 25 / 100;
   angvel_obs_name := "sensor_observation_base_site_angvel";
   command_name := "angular_velocity_command";
   norm_type := l2;
   stand_still_threshold := 0 |}.

(** [command.flatten()] of a rank-2 array is the concatenation of its rows;
    the operations after it are on rank-1 arrays over the time axis. *)
Definition get_reward (self : t) (trajectory : Trajectory) : result Vec :=
  if negb (contains (obs trajectory) (angvel_obs_name self)) then
    raise (ValueError ("Observation " +:+ angvel_obs_name self +:+
      " not found; add it as an observation in your task."))
  else
    command <- getitem (command trajectory) (command_name self) ;
    angvel <- getitem (obs trajectory) (angvel_obs_name self) ;
    yaw <- mapM (fun o => item o 2) angvel ;
    d <- broadcast2 Rminus (concat command) yaw ;
    let ang_vel_error := map (fun a => a * a) d in
    let reward_value :=
      map (fun e => exp (- e / error_scale self)) ang_vel_error in
    let command_norm := map norm command in
    broadcast2 Rmult reward_value
      (map (fun n => b2r (bool_decide (n > stand_still_threshold self)))
         command_norm).

End AngularVelocityTrackingReward.

Module ContactForcePenalty.

Record t : Type := {
  max_contact_force : R;
  sensor_names : list string
}.

(** The loop of lines 370-372: the first sensor name, in the order of
    [sensor_names], that is not a key of the observations. *)
Definition first_missing (self : t) (trajectory : Trajectory) : option string :=
  List.find (fun name => negb (contains (obs trajectory) name))
    (sensor_names self).

(** The arrays handed to [jnp.stack] must have one shape. *)
Definition same_shape (arrays : list Mat) : bool :=
  match arrays with
  | [] => true
  | a :: rest =>
      forallb (fun b => bool_decide (map length b = map length a)) rest
  end.

(** Elementwise sum of the per-sensor cost vectors, one entry per time
    step. *)
Definition sum_over_sensors (n : nat) (costs : list Vec) : Vec :=
  foldr (zip_with Rplus) (replicate n 0) costs.

(** [forces_t3b[..., 2, :]] is, for every sensor, the third component of each
    of its rows; the clipped excess is summed over the sensors. *)
Definition get_reward (self : t) (trajectory : Trajectory) : result Vec :=
  match first_missing self trajectory with
  | Some sensor_name =>
      raise (ValueError (sensor_name +:+ " not found in trajectory.obs"))
  | None =>
      arrays <- mapM (getitem (obs trajectory)) (sensor_names self) ;
      match arrays with
      | [] => raise (ValueError "Need at least one array to stack.")
      | a :: _ =>
          if same_shape arrays then
            fz <- mapM (mapM (fun r => item r 2)) arrays ;
            let cost :=
              map (map (fun f => Rmax (Rabs f - max_contact_force self) 0)) fz in
            ret (sum_over_sensors (length a) cost)
          else raise ShapeError
      end
  end.

End ContactForcePenalty.

Module JointPositionLimitPenalty.

Record t : Type := {
  scale : R;
  lower_limits : Vec;
  upper_limits : Vec
}.

(** [create]: [jnt_range] is [physics_model.jnt_range], one (lower, upper)
    pair per joint; the first joint is the free joint and is skipped. *)
Definition create (jnt_range : list (R * R)) (soft_limit_factor : R)
    (scale : R) : t :=
  let lowers := map fst (drop 1 jnt_range) in
  let uppers := map snd (drop 1 jnt_range) in
  let center := zip_with (fun l u => (l + u) / 2) lowers uppers in
  let range := zip_with (fun l u => u - l) lowers uppers in
  let soft_lowers :=
    zip_with (fun c r => c - 5 / 10 * r * soft_limit_factor) center range in
  let soft_uppers :=
    zip_with (fun c r => c + 5 / 10 * r * soft_limit_factor) center range in
  {| scale := scale; lower_limits := soft_lowers; upper_limits := soft_uppers |}.

(** Lines 429-431 for one time step: [qpos[7:]] against the two limit
    vectors. *)
Definition penalty_row (self : t) (q : Vec) : result R :=
  below <- broadcast2 Rminus (drop 7 q) (lower_limits self) ;
  let penalty := map (fun d => - Rmin d 0) below in
  above <- broadcast2 Rminus (drop 7 q) (upper_limits self) ;
  penalty <- broadcast2 Rplus penalty (map (fun d => Rmax d 0) above) ;
  ret (vsum penalty).

Definition get_reward (self : t) (trajectory : Trajectory) : result Vec :=
  mapM (penalty_row self) (qpos trajectory).

End JointPositionLimitPenalty.

(* ------------------------------------------------------------------ *)
(** ** Termination                                                      *)
(* ------------------------------------------------------------------ *)

Module GVecTermination.

Record t : Type := {
  sensor_idx_range : nat * option nat;
  min_z : R
}.

(** [sensordata[start:end]] for non-negative bounds; [end] may be [None]. *)
Definition slice (v : Vec) (start : nat) (stop : option nat) : Vec :=
  match stop with
  | None => drop start v
  | Some e => take (e - start) (drop start v)
  end.

(** [__call__] on [state.sensordata]; [x[-1]] of an empty array raises. *)
Definition call (self : t) (sensordata : Vec) : result Z :=
  let '(start, stop) := sensor_idx_range self in
  match last (slice sensordata start stop) with
  | Some z => ret (if bool_decide (z < min_z self) then (-1)%Z else 0%Z)
  | None => raise IndexError
  end.

End GVecTermination.

(* ------------------------------------------------------------------ *)
(** ** Command generators                                               *)
(* ------------------------------------------------------------------ *)

(** What the generators ask of [jax.random]: [subkey k n i] is entry [i] of
    [jax.random.split(k, n)], [uniform1 k lo hi] the single entry of
    [jax.random.uniform(k, (1,), minval=lo, maxval=hi)], and [bernoulli k p]
    the draw of [jax.random.bernoulli(k, p)]. *)
Class Random (PRNGKey : Type) : Type := {
  subkey : PRNGKey -> nat -> nat -> PRNGKey;
  uniform1 : PRNGKey -> R -> R -> R;
  bernoulli : PRNGKey -> R -> bool
}.

Module GaitFrequencyCommand.

Record t : Type := {
  gait_freq_lower : R;
  gait_freq_upper : R
}.

Definition default : t :=
{| gait_freq_lower := 12 / 10; gait_freq_upper := 15 / 10 |}.

Section Generator.

Context {PRNGKey : Type} `{!Random PRNGKey}.

(** [physics_data] and [curriculum_level] are not read by the generators
    and are left out. *)
Definition initial_command (self : t) (rng : PRNGKey) : Vec :=
  [uniform1 rng (gait_freq_lower self) (gait_freq_upper self)].

Definition call (self : t) (prev_command : Vec) (rng : PRNGKey) : Vec :=
  prev_command.

End Generator.

End GaitFrequencyCommand.

Module AngularVelocityCommand.

Record t : Type := {
  scale : R;
  zero_prob : R;
  switch_prob : R
}.

Section Generator.

Context {PRNGKey : Type} `{!Random PRNGKey}.

Definition initial_command (self : t) (rng : PRNGKey) : result Vec :=
  let rng_a := subkey rng 2 0 in
  let rng_b := subkey rng 2 1 in
  let zero_mask := bernoulli rng_a (zero_prob self) in
  let cmd := [uniform1 rng_b (- scale self) (scale self)] in
  broadcast2 (fun z c => if zero_mask then z else c) (map (fun _ => 0) cmd) cmd.

Definition call (self : t) (prev_command : Vec) (rng : PRNGKey)
  : result Vec :=
  let rng_a := subkey rng 2 0 in
  let rng_b := subkey rng 2 1 in
  let switch_mask := bernoulli rng_a (switch_prob self) in
  new_commands <- initial_command self rng_b ;
  broadcast2 (fun n p => if switch_mask then n else p)
    new_commands prev_command.

End Generator.

End AngularVelocityCommand.

Module LinearVelocityCommand.

Record t : Type := {
  x_range : R * R;
  y_range : R * R;
  x_zero_prob : R;
  y_zero_prob : R;
  switch_prob : R;
  vis_height : R;
  vis_scale : R
}.

Section Generator.

Context {PRNGKey : Type} `{!Random PRNGKey}.

Definition initial_command (self : t) (rng : PRNGKey) : Vec :=
  let rng_x := subkey rng 4 0 in
  let rng_y := subkey rng 4 1 in
  let rng_zero_x := subkey rng 4 2 in
  let rng_zero_y := subkey rng 4 3 in
  let '((xmin, xmax), (ymin, ymax)) := (x_range self, y_range self) in
  let x := [uniform1 rng_x xmin xmax] in
  let y := [uniform1 rng_y ymin ymax] in
  let x_zero_mask := bernoulli rng_zero_x (x_zero_prob self) in
  let y_zero_mask := bernoulli rng_zero_y (y_zero_prob self) in
  map (fun a => if x_zero_mask then 0 else a) x ++
  map (fun a => if y_zero_mask then 0 else a) y.

Definition call (self : t) (prev_command : Vec) (rng : PRNGKey)
  : result Vec :=
  let rng_a := subkey rng 2 0 in
  let rng_b := subkey rng 2 1 in
  let switch_mask := bernoulli rng_a (switch_prob self) in
  let new_commands := initial_command self rng_b in
  broadcast2 (fun n p => if switch_mask then n else p)
    new_commands prev_command.

End Generator.

End LinearVelocityCommand.

(* ------------------------------------------------------------------ *)
(** ** Shapes of the networks and widths of their inputs                *)
(* ------------------------------------------------------------------ *)

(** joint pos + joint vel + timestep phase + projected_gravity + imu_gyro +
    imu_acc *)
Definition OBS_SIZE : nat := 20 * 2 + 4 + 3 + 3 + 3.
(** lin_vel_cmd + ang_vel_cmd + gait_freq_cmd *)
Definition CMD_SIZE : nat := 2 + 1 + 1.

Definition NUM_ACTOR_INPUTS : nat := OBS_SIZE + CMD_SIZE.
Definition NUM_CRITIC_INPUTS : nat :=
  NUM_ACTOR_INPUTS + 4 + 6 + 3 + 4 + 3 + 3 + 20.

(** The vector [obs_n] that [run_actor] concatenates (lines 1016-1039). *)
Definition actor_input (observations commands : gmap string Vec)
  : result Vec :=
  timestep_phase_4 <- getitem observations "timestep_phase_observation" ;
  joint_pos_n <- getitem observations "joint_position_observation" ;
  joint_vel_n <- getitem observations "joint_velocity_observation" ;
  proj_grav_3 <- getitem observations "projected_gravity_observation" ;
  imu_gyro_3 <- getitem observations "sensor_observation_imu_gyro" ;
  imu_acc_3 <- getitem observations "sensor_observation_imu_acc" ;
  lin_vel_cmd_2 <- getitem commands "linear_velocity_command" ;
  ang_vel_cmd <- getitem commands "angular_velocity_command" ;
  gait_freq_cmd <- getitem commands "gait_frequency_command" ;
  ret (timestep_phase_4 ++ joint_pos_n ++ joint_vel_n ++ proj_grav_3 ++
       imu_acc_3 ++ imu_gyro_3 ++ lin_vel_cmd_2 ++ ang_vel_cmd ++
       gait_freq_cmd).

(** The vector [obs_n] that [run_critic] concatenates (lines 1052-1090). *)
Definition critic_input (observations commands : gmap string Vec)
  : result Vec :=
  timestep_phase_4 <- getitem observations "timestep_phase_observation" ;
  joint_pos_n <- getitem observations "joint_position_observation" ;
  joint_vel_n <- getitem observations "joint_velocity_observation" ;
  proj_grav_3 <- getitem observations "projected_gravity_observation" ;
  imu_gyro_3 <- getitem observations "sensor_observation_imu_gyro" ;
  imu_acc_3 <- getitem observations "sensor_observation_imu_acc" ;
  lin_vel_cmd_2 <- getitem commands "linear_velocity_command" ;
  ang_vel_cmd <- getitem commands "angular_velocity_command" ;
  gait_freq_cmd <- getitem commands "gait_frequency_command" ;
  feet_contact_4 <- getitem observations "feet_contact_observation" ;
  feet_position_6 <- getitem observations "feet_position_observation" ;
  base_position_3 <- getitem observations "base_position_observation" ;
  base_orientation_4 <- getitem observations "base_orientation_observation" ;
  base_linear_velocity_3 <-
    getitem observations "base_linear_velocity_observation" ;
  base_angular_velocity_3 <-
    getitem observations "base_angular_velocity_observation" ;
  actuator_force_n <- getitem observations "actuator_force_observation" ;
  ret (timestep_phase_4 ++ joint_pos_n ++ map (fun v => v / 10) joint_vel_n ++
       proj_grav_3 ++ imu_acc_3 ++ imu_gyro_3 ++ lin_vel_cmd_2 ++
       ang_vel_cmd ++ gait_freq_cmd ++ feet_contact_4 ++ feet_position_6 ++
       base_position_3 ++ base_orientation_4 ++ base_linear_velocity_3 ++
       base_angular_velocity_3 ++ map (fun f => f / 100) actuator_force_n).

(** The width of every observation and command, as the comments of
    [run_actor] and [run_critic] and the constants above declare them. *)
Definition declared_widths : list (string * nat) :=
  [ ("timestep_phase_observation", 4%nat);
    ("joint_position_observation", NUM_JOINTS);
    ("joint_velocity_observation", NUM_JOINTS);
    ("projected_gravity_observation", 3%nat);
    ("sensor_observation_imu_gyro", 3%nat);
    ("sensor_observation_imu_acc", 3%nat);
    ("feet_contact_observation", 4%nat);
    ("feet_position_observation", 6%nat);
    ("base_position_observation", 3%nat);
    ("base_orientation_observation", 4%nat);
    ("base_linear_velocity_observation", 3%nat);
    ("base_angular_velocity_observation", 3%nat);
    ("actuator_force_observation", NUM_JOINTS);
    ("linear_velocity_command", 2%nat);
    ("angular_velocity_command", 1%nat);
    ("gait_frequency_command", 1%nat) ].

(** A mapping provides every listed key with a vector of the listed width. *)
Definition provides (d : gmap string Vec) (keys : list string) : Prop :=
  Forall (fun k => exists v w, d !! k = Some v /\
                     list_to_map (M := gmap string nat) declared_widths !! k
                       = Some w /\
                     length v = w) keys.

(** An array of shape [(rows, cols)]. *)
Definition has_shape (rows cols : nat) (m : Mat) : Prop :=
  length m = rows /\ Forall (fun r => length r = cols) m.

(** A mapping has every listed key. *)
Definition has_keys {V} (d : gmap string V) (keys : list string) : Prop :=
  Forall (fun k => is_Some (d !! k)) keys.

(** A mapping of arrays over the time axis provides every listed key with
    rows of the listed width. *)
Definition provides_rows (d : gmap string Mat) (keys : list string) : Prop :=
  Forall (fun k => exists m w, d !! k = Some m /\
                     list_to_map (M := gmap string nat) declared_widths !! k
                       = Some w /\
                     Forall (fun r => length r = w) m) keys.

(** The layers [Actor.__init__] and [Critic.__init__] construct for a
    configuration with [depth] cells of width [hidden_size]: the input
    projection takes [num_inputs] features to [hidden_size], every cell
    takes an input and a hidden state of width [hidden_size] to a hidden
    state, and the output projection takes [hidden_size] features to
    [num_outputs * 3 * num_mixtures] for the actor and to one for the
    critic, whose [num_inputs] is [NUM_CRITIC_INPUTS]. *)
Definition linear_of_shape (n_in n_out : nat) (l : Linear.t) : Prop :=
  Linear.in_features l = n_in /\ Linear.out_features l = n_out /\
  Linear.well_formed l.

Definition cells_of_shape (depth hidden_size : nat) (rnns : list GRUCell.t)
  : Prop :=
  length rnns = depth /\
  Forall (fun rnn => GRUCell.input_size rnn = hidden_size /\
                     GRUCell.hidden_size rnn = hidden_size /\
                     GRUCell.well_formed rnn) rnns.

Definition actor_of_shape (depth hidden_size : nat) (a : Actor.t) : Prop :=
  linear_of_shape (Actor.num_inputs a) hidden_size (Actor.input_proj a) /\
  cells_of_shape depth hidden_size (Actor.rnns a) /\
  linear_of_shape hidden_size
    (Actor.num_outputs a * 3 * Actor.num_mixtures a) (Actor.output_proj a).

Definition critic_of_shape (depth hidden_size : nat) (c : Critic.t) : Prop :=
  linear_of_shape NUM_CRITIC_INPUTS hidden_size (Critic.input_proj c) /\
  cells_of_shape depth hidden_size (Critic.rnns c) /\
  linear_of_shape hidden_size 1 (Critic.output_proj c).

(** A model as [get_model] builds it for the configuration of the task: the
    actor takes [NUM_ACTOR_INPUTS] inputs and has [NUM_JOINTS] outputs. *)
Definition model_of_shape (self : KbotWalkingTask.t) (model : Model) : Prop :=
  actor_of_shape (KbotWalkingTask.depth self)
    (KbotWalkingTask.hidden_size self) (actor model) /\
  Actor.num_inputs (actor model) = NUM_ACTOR_INPUTS /\
  Actor.num_outputs (actor model) = NUM_JOINTS /\
  critic_of_shape (KbotWalkingTask.depth self)
    (KbotWalkingTask.hidden_size self) (critic model).

(** What [get_ppo_variables] needs of the distribution library: the log
    probability of an action with one entry per joint is defined under a
    mixture whose parameters have one row per joint. *)
Definition log_prob_defined {PRNGKey : Type} `{!Distribution PRNGKey} : Prop :=
  forall d a m,
    has_shape NUM_JOINTS m (means_nm d) ->
    has_shape NUM_JOINTS m (stds_nm d) ->
    has_shape NUM_JOINTS m (logits_nm d) ->
    length a = NUM_JOINTS ->
    exists lp, log_prob d a = inr lp.

(* ------------------------------------------------------------------ *)
(** ** Joint targets by name and the shipped model                      *)
(* ------------------------------------------------------------------ *)

Module JointPositionPenalty.

(** [{k: v for k, v in ZEROS}]: the pairs are inserted in order, so a later
    pair would replace an earlier one of the same name. *)
Definition zeros : gmap string R :=
  foldl (fun m (kv : string * R) => <[fst kv := snd kv]> m) ∅ ZEROS.

(** [create_from_names] up to the call of [cls.create], which is
    [ksim.JointDeviationPenalty.create]: the joint names and the joint
    targets it is given. *)
Definition create_from_names (names : list string)
  : result (list string * Vec) :=
  joint_targets <- mapM (getitem zeros) names ;
  ret (names, joint_targets).

End JointPositionPenalty.

Module BentArmPenalty.

Definition names : list string :=
  [ "dof_right_shoulder_pitch_03"; "dof_right_shoulder_roll_03";
    "dof_right_shoulder_yaw_02"; "dof_right_elbow_02"; "dof_right_wrist_00";
    "dof_left_shoulder_pitch_03"; "dof_left_shoulder_roll_03";
    "dof_left_shoulder_yaw_02"; "dof_left_elbow_02"; "dof_left_wrist_00" ].

Definition create_penalty : result (list string * Vec) :=
  JointPositionPenalty.create_from_names names.

End BentArmPenalty.

Module StraightLegPenalty.

Definition names : list string :=
  [ "dof_left_hip_pitch_04"; "dof_left_hip_roll_03"; "dof_left_hip_yaw_03";
    "dof_right_hip_pitch_04"; "dof_right_hip_roll_03";
    "dof_right_hip_yaw_03" ].

Definition create_penalty : result (list string * Vec) :=
  JointPositionPenalty.create_from_names names.

End StraightLegPenalty.

(** The layers [Actor.__init__] and [Critic.__init__] draw from the random
    key. *)
Record Layers : Type := {
  actor_input_proj : Linear.t;
  actor_rnns : list GRUCell.t;
  actor_output_proj : Linear.t;
  critic_input_proj : Linear.t;
  critic_rnns : list GRUCell.t;
  critic_output_proj : Linear.t
}.

(** [Model.__init__]: the actor is built with [var_scale=1.0]. *)
Definition Model_init (layers : Layers) (num_inputs num_outputs : nat)
    (min_std max_std : R) (num_mixtures : nat) : Model :=
{| actor :=
     {| Actor.input_proj := actor_input_proj layers;
        Actor.rnns := actor_rnns layers;
        Actor.output_proj := actor_output_proj layers;
        Actor.num_inputs := num_inputs;
        Actor.num_outputs := num_outputs;
        Actor.num_mixtures := num_mixtures;
        Actor.min_std := min_std;
        Actor.max_std := max_std;
        Actor.var_scale := 1 |};
   critic :=
     {| Critic.input_proj := critic_input_proj layers;
        Critic.rnns := critic_rnns layers;
        Critic.output_proj := critic_output_proj layers |} |}.

(** [KbotWalkingTask.get_model]; [num_mixtures] is [config.num_mixtures]. *)
Definition get_model (layers : Layers) (num_mixtures : nat) : Model :=
  Model_init layers NUM_ACTOR_INPUTS NUM_JOINTS (1 / 100) 1 num_mixtures.

(* ------------------------------------------------------------------ *)
(** ** The spread transform over floating-point values                  *)
(* ------------------------------------------------------------------ *)

(** The real numbers cannot express NaN or overflow.  Line 637 is therefore
    also given over IEEE-754 values: a finite number, one of the two
    infinities, or NaN.  The special values combine by the rules of the
    standard.  How the exact result of an operation on finite numbers is
    rounded, possibly to an infinity on overflow, is left open as [round];
    what the library function [jax.nn.softplus] returns on a finite number
    is left open as [softplus_float]. *)
Module IEEE.

Inductive t : Type :=
| Num (x : R)
| PosInf
| NegInf
| NaN.

Section Arithmetic.

Variable round : R -> t.
Variable softplus_float : R -> t.

Definition add (a b : t) : t :=
  match a, b with
  | NaN, _ | _, NaN => NaN
  | PosInf, NegInf | NegInf, PosInf => NaN
  | PosInf, _ | _, PosInf => PosInf
  | NegInf, _ | _, NegInf => NegInf
  | Num x, Num y => round (x + y)
  end.

(** An infinity times a finite number: the sign of the product, and NaN for
    a zero factor. *)
Definition scale_inf (positive : bool) (x : R) : t :=
  if bool_decide (0 < x) then (if positive then PosInf else NegInf)
  else if bool_decide (x < 0) then (if positive then NegInf else PosInf)
  else NaN.

Definition mul (a b : t) : t :=
  match a, b with
  | NaN, _ | _, NaN => NaN
  | Num x, Num y => round (x * y)
  | PosInf, Num x | Num x, PosInf => scale_inf true x
  | NegInf, Num x | Num x, NegInf => scale_inf false x
  | PosInf, PosInf | NegInf, NegInf => PosInf
  | PosInf, NegInf | NegInf, PosInf => NegInf
  end.

(** [jnp.clip(x, max=hi)] is [jnp.minimum(x, hi)], which propagates NaN. *)
Definition clip_max (x hi : t) : t :=
  match x, hi with
  | NaN, _ | _, NaN => NaN
  | NegInf, _ | _, NegInf => NegInf
  | PosInf, h => h
  | a, PosInf => a
  | Num a, Num h => Num (Rmin a h)
  end.

Definition softplus (x : t) : t :=
  match x with
  | Num r => softplus_float r
  | PosInf => PosInf
  | NegInf => Num 0
  | NaN => NaN
  end.

(** Line 637 on one raw output; the three configured numbers are Python
    floats given as literals, hence finite. *)
Definition std_transform (self : Actor.t) (raw : t) : t :=
  clip_max
    (mul (add (softplus raw) (Num (Actor.min_std self)))
       (Num (Actor.var_scale self)))
    (Num (Actor.max_std self)).

End Arithmetic.

(** What the spread transform needs of the two open functions: a
    non-negative exact result is rounded to a non-negative number or
    overflows to plus infinity, and the softplus of a finite number is a
    non-negative number or plus infinity. *)
Definition nonneg_or_overflow (v : t) : Prop :=
  v = PosInf \/ exists y, v = Num y /\ 0 <= y.

Definition rounds_nonneg (round : R -> t) : Prop :=
  forall x, 0 <= x -> nonneg_or_overflow (round x).

Definition softplus_nonneg (softplus_float : R -> t) : Prop :=
  forall x, nonneg_or_overflow (softplus_float x).

End IEEE.

(* ------------------------------------------------------------------ *)
(** ** Concrete inputs used by the examples below                       *)
(* ------------------------------------------------------------------ *)

(** A command mapping with the three commands of [get_commands]. *)
Definition commands_of (lin_vel ang_vel gait_freq : Vec) : gmap string Vec :=
  <["linear_velocity_command" := lin_vel]>
    (<["angular_velocity_command" := ang_vel]>
       (<["gait_frequency_command" := gait_freq]> ∅)).

(** Walking forward at one step per second, [t] seconds into the episode. *)
Definition walking_at (t : R) : ObservationInput :=
  {| commands := commands_of [1; 0] [0] [1]; time := t |}.

(** Commanded to stand, with the threshold of the shipped configuration. *)
Definition standing_clock : TimestepPhaseObservation.t :=
  {| TimestepPhaseObservation.ctrl_dt := 2 / 100;
     TimestepPhaseObservation.stand_still_threshold := 1 / 100 |}.

Definition standing_at (t : R) : ObservationInput :=
  {| commands := commands_of [0; 0] [0] [13 / 10]; time := t |}.

(** Modelled from the spec: [xax.cubic_bezier_interpolation] is a function of
    the [xax] library, not of this repository.  The specification asks for
    the standard smoothstep-like cubic Bezier curve that starts and ends at
    the given endpoints with zero derivative there, which is
    [y_start + (y_end - y_start) * (x**3 + 3 * (x**2 * (1 - x)))]. *)
Definition smoothstep_bezier (y_start y_end x : R) : R :=
  let y_diff := y_end - y_start in
  let bezier := x ^ 3 + 3 * (x ^ 2 * (1 - x)) in
  y_start + y_diff * bezier.

(** A layer of the given widths whose output does not depend on its
    input. *)
Definition constant_linear (n_in n_out : nat) (v : R) : Linear.t :=
{| Linear.in_features := n_in;
   Linear.out_features := n_out;
   Linear.affine := fun _ => replicate n_out v |}.

(** A cell of width one whose new memory is always [1], so that a reset to
    zero is visible. *)
Definition constant_cell : GRUCell.t :=
{| GRUCell.input_size := 1;
   GRUCell.hidden_size := 1;
   GRUCell.update := fun _ _ => [1] |}.

(** A cell of width one that adds its input to the hidden state it reads, so
    that the row it was given shows in what it returns. *)
Definition adding_cell : GRUCell.t :=
{| GRUCell.input_size := 1;
   GRUCell.hidden_size := 1;
   GRUCell.update := fun x h => zip_with Rplus x h |}.

(** A smallest recurrent network with the widths of the shipped model: one
    mixture component, [depth] cells of width one. *)
Definition layers_with (cells : list GRUCell.t) : Layers :=
{| actor_input_proj := constant_linear NUM_ACTOR_INPUTS 1 0;
   actor_rnns := cells;
   actor_output_proj := constant_linear 1 (NUM_JOINTS * 3 * 1) 0;
   critic_input_proj := constant_linear NUM_CRITIC_INPUTS 1 0;
   critic_rnns := cells;
   critic_output_proj := constant_linear 1 1 0 |}.

Definition toy_layers : Layers := layers_with [constant_cell].

Definition toy_model : Model := get_model toy_layers 1.

Definition toy_task : KbotWalkingTask.t :=
{| KbotWalkingTask.hidden_size := 1;
   KbotWalkingTask.depth := 1;
   KbotWalkingTask.stand_still_threshold := 1 / 100 |}.

(** The same with two cells, each adding its input to its memory. *)
Definition two_cell_model : Model :=
  get_model (layers_with [adding_cell; adding_cell]) 1.

(** Floating-point numbers that overflow above [2 ^ 128] and are exact
    below, with a softplus that is the rounded exact softplus. *)
Definition overflowing_round (x : R) : IEEE.t :=
  if bool_decide (2 ^ 128 < x) then IEEE.PosInf
  else if bool_decide (x < - 2 ^ 128) then IEEE.NegInf
  else IEEE.Num x.

Definition rounded_softplus (x : R) : IEEE.t := overflowing_round (softplus x).

#[local] Instance toy_distribution : Distribution nat :=
{| log_prob := fun _ a =>
     if Nat.eqb (length a) NUM_JOINTS then ret a else raise ShapeError;
   mode := fun d => map vsum (means_nm d);
   sample := fun d _ => map vsum (means_nm d) |}.

(** The six observations and the three commands that [run_actor] reads. *)
Definition actor_observation_keys : list string :=
  [ "timestep_phase_observation"; "joint_position_observation";
    "joint_velocity_observation"; "projected_gravity_observation";
    "sensor_observation_imu_gyro"; "sensor_observation_imu_acc" ].

Definition actor_command_keys : list string :=
  [ "linear_velocity_command"; "angular_velocity_command";
    "gait_frequency_command" ].

(** The privileged observations that only [run_critic] reads. *)
Definition privileged_keys : list string :=
  [ "feet_contact_observation"; "feet_position_observation";
    "base_position_observation"; "base_orientation_observation";
    "base_linear_velocity_observation"; "base_angular_velocity_observation";
    "actuator_force_observation" ].

(** The declared width of a key. *)
Definition width_of (key : string) : nat :=
  default 0%nat (list_to_map (M := gmap string nat) declared_widths !! key).

(** An observation mapping of the declared widths, with every entry [v] on
    the actor keys and [p] on the privileged keys. *)
Definition observations_of (v p : R) : gmap string Vec :=
  list_to_map (map (fun k => (k, replicate (width_of k) v))
                 actor_observation_keys ++
               map (fun k => (k, replicate (width_of k) p)) privileged_keys).

Definition toy_transition (d : bool) : Transition :=
{| t_obs := observations_of 0 0;
   t_command := commands_of [1; 0] [0] [1];
   t_action := replicate 20 0;
   t_done := d |}.

(** The scenario of the specification: four steps, the episode ends at the
    third. *)
Definition toy_slices : list Transition :=
  [ toy_transition false; toy_transition false;
    toy_transition true; toy_transition false ].

(** The same scenario as a stored trajectory, every leaf with four rows. *)
Definition toy_episode : Trajectory :=
{| obs := (fun v => replicate 4 v) <$> observations_of 0 0;
   command := (fun v => replicate 4 v) <$> commands_of [1; 0] [0] [1];
   action := replicate 4 (replicate 20 0);
   qpos := replicate 4 (replicate 27 0);
   done := [false; false; true; false];
   success := [false; false; false; false];
   timestep := [0; 2 / 100; 4 / 100; 6 / 100] |}.

(** A two-step trajectory: commanded to stand at step 0, to walk at step 1. *)
Definition toy_trajectory : Trajectory :=
{| obs := {[ "feet_position_observation" := [[0; 0; 0; 0; 0; 0]; [0; 0; 0; 0; 0; 0]] ]};
   command := <["linear_velocity_command" := [[0; 0]; [1; 0]]]>
                (<["angular_velocity_command" := [[0]; [0]]]>
                   {[ "gait_frequency_command" := [[1]; [1]] ]});
   action := [replicate 20 0; replicate 20 0];
   qpos := [replicate 27 0; replicate 27 0];
   done := [false; false];
   success := [false; false];
   timestep := [0; 2 / 100] |}.

(** A trajectory whose command mapping was assembled without the
    linear-velocity command. *)
Definition trajectory_without_command : Trajectory :=
{| obs := {[ "sensor_observation_base_site_linvel" := [[0; 0; 0]] ]};
   command := ∅;
   action := [replicate 20 0];
   qpos := [replicate 27 0];
   done := [false];
   success := [false];
   timestep := [0] |}.

(** A trajectory whose observation mapping has the feet contacts but was
    assembled without the centre-of-mass velocity. *)
Definition trajectory_without_com_velocity : Trajectory :=
{| obs := {[ "feet_contact_observation" := [[0; 0; 0; 0]] ]};
   command := ∅;
   action := [replicate 20 0];
   qpos := [replicate 27 0];
   done := [false];
   success := [false];
   timestep := [0] |}.

(** One step of perfect tracking: the base moves at the commanded linear
    velocity (0.5, 0) and yaw rate 0.1, with two feet on the ground. *)
Definition tracking_trajectory : Trajectory :=
{| obs := <["sensor_observation_base_site_linvel" := [[5 / 10; 0; 0]]]>
            (<["sensor_observation_base_site_angvel" := [[0; 0; 1 / 10]]]>
               (<["feet_contact_observation" := [[1; 0; 1; 0]]]>
                  (<["center_of_mass_velocity_observation" := [[0; 0; 0]]]>
                     (<["sensor_observation_left_foot_force" := [[0; 0; 300]]]>
                        {[ "sensor_observation_right_foot_force"
                             := [[0; 0; 400]] ]}))));
   command := <["linear_velocity_command" := [[5 / 10; 0]]]>
                {[ "angular_velocity_command" := [[1 / 10]] ]};
   action := [replicate 20 0];
   qpos := [replicate 7 0 ++ map snd ZEROS];
   done := [false];
   success := [false];
   timestep := [0] |}.

(** The foot-force sensors of [get_rewards]. *)
Definition foot_force_penalty : ContactForcePenalty.t :=
{| ContactForcePenalty.max_contact_force := 350;
   ContactForcePenalty.sensor_names :=
     [ "sensor_observation_left_foot_force";
       "sensor_observation_right_foot_force" ] |}.

(** The stand-still reward with the neutral pose as target and a threshold
    above the command of [tracking_trajectory]. *)
Definition standing_reward : StandStillReward.t :=
{| StandStillReward.scale := 1;
   StandStillReward.sensitivity := 1 / 100;
   StandStillReward.norm_type := l1;
   StandStillReward.linear_velocity_cmd_name := "linear_velocity_command";
   StandStillReward.angular_velocity_cmd_name := "angular_velocity_command";
   StandStillReward.joint_targets := map snd ZEROS;
   StandStillReward.stand_still_threshold := 1 |}.

(** A robot with the free joint and two hinges, with the soft limits of
    [JointPositionLimitPenalty.create] at its default factor 0.95. *)
Definition two_joint_limits : JointPositionLimitPenalty.t :=
  JointPositionLimitPenalty.create [(0, 0); (-1, 1); (-2, 2)] (95 / 100) (-1).

(** A component of the linear-velocity command: zero, or in its range. *)
Definition zero_or_within (range : R * R) (v : R) : Prop :=
  v = 0 \/ fst range <= v <= snd range.

(** A random source for the examples: every uniform draw is the midpoint of
    its range and every Bernoulli draw compares one half with the
    probability, as [jax.random.bernoulli] compares a uniform draw with
    it. *)
#[local] Instance toy_random : Random nat :=
{| subkey := fun k n i => (k * n + i)%nat;
   uniform1 := fun _ lo hi => (lo + hi) / 2;
   bernoulli := fun _ p => bool_decide (1 / 2 < p) |}.

(** The generators of [get_commands], at a control step of 0.02. *)
Definition shipped_angular_command : AngularVelocityCommand.t :=
{| AngularVelocityCommand.scale := 1 / 10;
   AngularVelocityCommand.zero_prob := 9 / 10;
   AngularVelocityCommand.switch_prob := 2 / 100 / 3 |}.

Definition shipped_linear_command : LinearVelocityCommand.t :=
{| LinearVelocityCommand.x_range := (-3 / 10, 7 / 10);
   LinearVelocityCommand.y_range := (-2 / 10, 2 / 10);
   LinearVelocityCommand.x_zero_prob := 3 / 10;
   LinearVelocityCommand.y_zero_prob := 4 / 10;
   LinearVelocityCommand.switch_prob := 2 / 100 / 3;
   LinearVelocityCommand.vis_height := 1;
   LinearVelocityCommand.vis_scale := 5 / 100 |}.

(** Observations of the declared widths, all zero. *)
Definition full_observations : gmap string Vec :=
  list_to_map
    (map (fun kw : string * nat => (fst kw, replicate (snd kw) 0))
       declared_widths).

(** Observations assembled without the joint velocities. *)
Definition observations_without_joint_velocity : gmap string Vec :=
  delete "joint_velocity_observation" (observations_of 0 0).

(* ------------------------------------------------------------------ *)
(** * Properties                                                        *)
(* ------------------------------------------------------------------ *)

(** ** Real-number facts *)

Lemma PI_gt_3 : 3 < PI.
Proof. pose proof PI2_3_2. lra. Qed.

Lemma PI_lt_7_2 : PI < 7 / 2.
Proof.
  destruct (PI_ineq 1) as [_ H].
  unfold sum_f_R0, tg_alt, PI_tg in H. simpl in H.
  lra.
Qed.

Lemma Rtrunc_nonneg r : 0 <= r -> Rtrunc r = Int_part r.
Proof. intros Hr. unfold Rtrunc. destruct (decide (0 <= r)); [done | lra]. Qed.

(** [fmod] of a non-negative number by a positive modulus is characterised
    by the usual division equation. *)
Lemma fmod_unique x y (k : Z) r :
  0 <= x -> 0 < y -> x = IZR k * y + r -> 0 <= r < y -> fmod x y = r.
Proof.
  intros Hx Hy Hxk [Hr0 Hry]. unfold fmod.
  assert (Hq : x / y = IZR k + r / y) by (subst x; field; lra).
  assert (Hry0 : 0 <= r / y)
    by (apply Rmult_le_pos; [lra | left; apply Rinv_0_lt_compat; lra]).
  assert (Hry1 : r / y < 1)
    by (apply (Rmult_lt_reg_r y); [lra |]; replace (r / y * y) with r by (field; lra); lra).
  assert (Hxy : 0 <= x / y)
    by (apply Rmult_le_pos; [lra | left; apply Rinv_0_lt_compat; lra]).
  rewrite Rtrunc_nonneg by exact Hxy.
  rewrite <- (Int_part_spec (x / y) k) by lra.
  lra.
Qed.

Lemma fmod_range x y : 0 <= x -> 0 < y -> 0 <= fmod x y < y.
Proof.
  intros Hx Hy. unfold fmod.
  assert (Hq : 0 <= x / y)
    by (apply Rmult_le_pos; [lra | left; apply Rinv_0_lt_compat; lra]).
  rewrite Rtrunc_nonneg by lra.
  destruct (base_Int_part (x / y)) as [Hlo Hhi].
  set (k := IZR (Int_part (x / y))) in *.
  assert (Hx' : x = x / y * y) by (field; lra).
  split.
  - assert (k * y <= x / y * y) by (apply Rmult_le_compat_r; lra). lra.
  - assert ((x / y - k) * y < 1 * y) by (apply Rmult_lt_compat_r; lra). lra.
Qed.

Lemma fmod_decompose x y : exists k : Z, fmod x y = x - IZR k * y.
Proof. by exists (Rtrunc (x / y)). Qed.

Lemma fmod_add_period x y : 0 <= x -> 0 < y -> fmod (x + y) y = fmod x y.
Proof.
  intros Hx Hy. destruct (fmod_range x y Hx Hy) as [H0 H1].
  destruct (fmod_decompose x y) as [k Hk].
  apply (fmod_unique (x + y) y (k + 1)); [lra | lra | | lra].
  rewrite plus_IZR. lra.
Qed.

Lemma wrap_range p : 0 <= p -> - PI <= wrap p < PI.
Proof.
  intros Hp. pose proof PI_gt_3. unfold wrap.
  destruct (fmod_range (p + PI) (2 * PI)); lra.
Qed.

Lemma wrap_add_turn p : 0 <= p -> wrap (p + 2 * PI) = wrap p.
Proof.
  intros Hp. pose proof PI_gt_3. unfold wrap.
  replace (p + 2 * PI + PI) with (p + PI + 2 * PI) by lra.
  rewrite fmod_add_period; lra.
Qed.

Lemma wrap_0 : wrap 0 = 0.
Proof.
  pose proof PI_gt_3. unfold wrap.
  rewrite (fmod_unique (0 + PI) (2 * PI) 0 PI); lra.
Qed.

Lemma wrap_PI : wrap PI = - PI.
Proof.
  pose proof PI_gt_3. unfold wrap.
  rewrite (fmod_unique (PI + PI) (2 * PI) 1 0); lra.
Qed.

Lemma norm_nonneg v : 0 <= norm v.
Proof. apply sqrt_pos. Qed.

Lemma norm_zeros3 : norm [0; 0; 0] = 0.
Proof.
  unfold norm, vsum. simpl.
  replace (0 * 0 + (0 * 0 + (0 * 0 + 0))) with 0 by lra. apply sqrt_0.
Qed.

(** ** Phase clock *)

Lemma commands_of_gait l a g :
  commands_of l a g !! "gait_frequency_command" = Some g.
Proof. reflexivity. Qed.

Lemma commands_of_lin l a g :
  commands_of l a g !! "linear_velocity_command" = Some l.
Proof. reflexivity. Qed.

Lemma commands_of_ang l a g :
  commands_of l a g !! "angular_velocity_command" = Some a.
Proof. reflexivity. Qed.

Lemma getitem_Some {V} (d : gmap string V) key v :
  d !! key = Some v -> getitem d key = inr v.
Proof. intros H. unfold getitem. by rewrite H. Qed.

Lemma getitem_None {V} (d : gmap string V) key :
  d !! key = None -> getitem d key = inl (KeyError key).
Proof. intros H. unfold getitem. by rewrite H. Qed.

(** The phase the observation computes for a one-element gait-frequency
    command, before the override. *)
Lemma wrapped_phase_eq self state f :
  commands state !! "gait_frequency_command" = Some [f] ->
  TimestepPhaseObservation.wrapped_phase self state =
  inr [ wrap (0 + time state / TimestepPhaseObservation.ctrl_dt self *
                   (2 * PI * f * TimestepPhaseObservation.ctrl_dt self));
        wrap (PI + time state / TimestepPhaseObservation.ctrl_dt self *
                    (2 * PI * f * TimestepPhaseObservation.ctrl_dt self)) ].
Proof.
  intros Hg. unfold TimestepPhaseObservation.wrapped_phase.
  rewrite (getitem_Some _ _ _ Hg). reflexivity.
Qed.

Lemma phase_advance dt t f : 0 < dt -> t / dt * (2 * PI * f * dt) = 2 * PI * f * t.
Proof. intros. field. lra. Qed.

Lemma phase_eq self state f v a :
  commands state !! "gait_frequency_command" = Some [f] ->
  commands state !! "linear_velocity_command" = Some v ->
  commands state !! "angular_velocity_command" = Some a ->
  TimestepPhaseObservation.phase self state =
  inr (if bool_decide
            (norm (v ++ a) < TimestepPhaseObservation.stand_still_threshold self)
       then [PI / 2; PI]
       else [ wrap (0 + time state / TimestepPhaseObservation.ctrl_dt self *
                     (2 * PI * f * TimestepPhaseObservation.ctrl_dt self));
              wrap (PI + time state / TimestepPhaseObservation.ctrl_dt self *
                     (2 * PI * f * TimestepPhaseObservation.ctrl_dt self)) ]).
Proof.
  intros Hg Hv Ha. unfold TimestepPhaseObservation.phase.
  rewrite (wrapped_phase_eq _ _ _ Hg). cbn [bind].
  rewrite (getitem_Some _ _ _ Hv), (getitem_Some _ _ _ Ha). cbn [bind].
  by destruct (bool_decide _).
Qed.

(** C2. Stand-still override: whenever the norm of the concatenated linear
    and angular velocity commands is strictly below the threshold, the phase
    pair is the frozen value (pi/2, pi) and the observation is the constant
    [cos(pi/2), cos(pi), sin(pi/2), sin(pi)] = [0, -1, 1, 0], whatever the
    elapsed time and the gait frequency are. *)
Theorem stand_still_override_exact self state f v a :
  commands state !! "gait_frequency_command" = Some [f] ->
  commands state !! "linear_velocity_command" = Some v ->
  commands state !! "angular_velocity_command" = Some a ->
  norm (v ++ a) < TimestepPhaseObservation.stand_still_threshold self ->
  TimestepPhaseObservation.phase self state = inr [PI / 2; PI] /\
  TimestepPhaseObservation.observe self state = inr [0; -1; 1; 0].
Proof.
  intros Hg Hv Ha Hn.
  assert (Hp : TimestepPhaseObservation.phase self state = inr [PI / 2; PI]).
  { rewrite (phase_eq _ _ _ _ _ Hg Hv Ha). by rewrite bool_decide_eq_true_2. }
  split; [exact Hp |].
  unfold TimestepPhaseObservation.observe. rewrite Hp. cbn [bind map app ret].
  by rewrite cos_PI2, cos_PI, sin_PI2, sin_PI.
Qed.

Lemma stand_still_override_exact_witness :
  TimestepPhaseObservation.phase standing_clock (standing_at 3) =
    inr [PI / 2; PI] /\
  TimestepPhaseObservation.observe standing_clock (standing_at 3) =
    inr [0; -1; 1; 0].
Proof.
  apply (stand_still_override_exact standing_clock (standing_at 3)
           (13 / 10) [0; 0] [0]).
  - reflexivity.
  - reflexivity.
  - reflexivity.
  - simpl. rewrite norm_zeros3. lra.
Defined.

Lemma walking_not_standing :
  ~ norm ([1; 0] ++ [0]) <
    TimestepPhaseObservation.stand_still_threshold
      TimestepPhaseObservation.default.
Proof.
  cbn [TimestepPhaseObservation.stand_still_threshold
         TimestepPhaseObservation.default].
  pose proof (norm_nonneg ([1; 0] ++ [0])). lra.
Qed.

Lemma walking_phase_at t :
  TimestepPhaseObservation.phase TimestepPhaseObservation.default
    (walking_at t) =
  inr [wrap (0 + 2 * PI * 1 * t); wrap (PI + 2 * PI * 1 * t)].
Proof.
  rewrite (phase_eq _ _ 1 [1; 0] [0]) by reflexivity.
  rewrite bool_decide_eq_false_2 by exact walking_not_standing.
  cbn [time walking_at TimestepPhaseObservation.ctrl_dt
         TimestepPhaseObservation.default].
  by rewrite phase_advance by lra.
Qed.

Lemma walking_phase_at_start :
  TimestepPhaseObservation.phase TimestepPhaseObservation.default
    (walking_at 0) = inr [0; - PI].
Proof.
  rewrite walking_phase_at.
  replace (0 + 2 * PI * 1 * 0) with 0 by lra.
  replace (PI + 2 * PI * 1 * 0) with PI by lra.
  by rewrite wrap_0, wrap_PI.
Qed.

(** C4, as the claim states it, fails at the start of an episode: the right
    foot starts at phase pi, which the wrap sends to -pi, outside (-pi, pi]. *)
Lemma phase_interval_counterexample :
  TimestepPhaseObservation.phase TimestepPhaseObservation.default
    (walking_at 0) = inr [0; - PI] /\
  ~ (- PI < - PI <= PI).
Proof. split; [exact walking_phase_at_start | lra]. Qed.

Lemma phase_row_eq self t f :
  FeetPhaseReward.phase_row self t [f] =
  inr [ wrap (0 + IZR (int32 (t / FeetPhaseReward.ctrl_dt self)) *
                   (2 * PI * f * FeetPhaseReward.ctrl_dt self));
        wrap (PI + IZR (int32 (t / FeetPhaseReward.ctrl_dt self)) *
                    (2 * PI * f * FeetPhaseReward.ctrl_dt self)) ].
Proof. reflexivity. Qed.

Lemma Rtrunc_nonneg_ge0 r : 0 <= r -> (0 <= Rtrunc r)%Z.
Proof.
  intros Hr. rewrite Rtrunc_nonneg by done.
  destruct (base_Int_part r) as [_ H].
  apply Z.lt_succ_r, lt_IZR. rewrite succ_IZR. lra.
Qed.

Lemma int32_nonneg r : 0 <= r -> 0 <= IZR (int32 r).
Proof.
  intros Hr. apply IZR_le. pose proof (Rtrunc_nonneg_ge0 r Hr).
  unfold int32. lia.
Qed.

Lemma div_nonneg t dt : 0 <= t -> 0 < dt -> 0 <= t / dt.
Proof.
  intros. apply Rmult_le_pos; [lra | left; apply Rinv_0_lt_compat; lra].
Qed.

Lemma two_pi_mult_nonneg f t : 0 <= f -> 0 <= t -> 0 <= 2 * PI * f * t.
Proof.
  intros Hf Ht. pose proof PI_gt_3.
  apply Rmult_le_pos; [apply Rmult_le_pos |]; lra.
Qed.

(** Every entry of the phase matrix of the reward lies in [-pi, pi). *)
Lemma reward_phase_rows_range self ts gfs :
  0 < FeetPhaseReward.ctrl_dt self ->
  Forall (fun t => 0 <= t) ts ->
  Forall (fun g => exists f, g = [f] /\ 0 < f) gfs ->
  length ts = length gfs ->
  exists m, zipM2 (FeetPhaseReward.phase_row self) ts gfs = inr m /\
            length m = length ts /\
            Forall (Forall (fun p => - PI <= p < PI)) m.
Proof.
  intros Hdt Hts. revert gfs.
  induction Hts as [| t ts Ht Hts IH]; intros [| g gfs] Hg Hlen;
    simplify_eq/=.
  - exists []. by repeat constructor.
  - apply Forall_cons in Hg as [(f & -> & Hf) Hg].
    destruct (IH gfs Hg) as (m & Hm & Hlm & Hrange); [done |].
    rewrite Hm. eexists. split; [reflexivity |]. split; [simpl; lia |].
    pose proof PI_gt_3.
    pose proof (int32_nonneg _ (div_nonneg t _ Ht Hdt)) as Hs.
    assert (0 <= IZR (int32 (t / FeetPhaseReward.ctrl_dt self)) *
                 (2 * PI * f * FeetPhaseReward.ctrl_dt self)).
    { apply Rmult_le_pos; [done |]. apply two_pi_mult_nonneg; lra. }
    constructor; [| done].
    constructor; [apply wrap_range; lra |].
    constructor; [apply wrap_range; lra | constructor].
Qed.

(** C4 (amended). For elapsed time t >= 0, gait frequency f > 0 and a
    positive control step, with the stand-still override not triggered, the
    two phases the observation computes lie in the half-open interval
    [-pi, pi); and so does every entry of the phase matrix that
    FeetPhaseReward.get_reward computes for a trajectory with non-negative
    times and positive gait frequencies. *)
Theorem phase_in_wrapped_interval :
  (forall self state f v a,
     0 < TimestepPhaseObservation.ctrl_dt self ->
     0 <= time state ->
     0 < f ->
     commands state !! "gait_frequency_command" = Some [f] ->
     commands state !! "linear_velocity_command" = Some v ->
     commands state !! "angular_velocity_command" = Some a ->
     ~ norm (v ++ a) < TimestepPhaseObservation.stand_still_threshold self ->
     exists pl pr,
       TimestepPhaseObservation.phase self state = inr [pl; pr] /\
       - PI <= pl < PI /\ - PI <= pr < PI) /\
  (forall self trajectory gfs,
     0 < FeetPhaseReward.ctrl_dt self ->
     Forall (fun t => 0 <= t) (timestep trajectory) ->
     command trajectory !! FeetPhaseReward.gait_freq_cmd_name self = Some gfs ->
     Forall (fun g => exists f, g = [f] /\ 0 < f) gfs ->
     length (timestep trajectory) = length gfs ->
     exists m,
       FeetPhaseReward.phase self trajectory = inr m /\
       length m = length (timestep trajectory) /\
       Forall (Forall (fun p => - PI <= p < PI)) m).
Proof.
  split.
  - intros self state f v a Hdt Ht Hf Hg Hv Ha Hn.
    rewrite (phase_eq _ _ _ _ _ Hg Hv Ha), bool_decide_eq_false_2 by done.
    rewrite phase_advance by done.
    pose proof PI_gt_3.
    assert (0 <= 2 * PI * f * time state)
      by (apply two_pi_mult_nonneg; lra).
    eexists _, _. split; [reflexivity |].
    split; apply wrap_range; lra.
  - intros self trajectory gfs Hdt Hts Hg Hgfs Hlen.
    unfold FeetPhaseReward.phase. rewrite (getitem_Some _ _ _ Hg). cbn [bind].
    by apply reward_phase_rows_range.
Qed.

(** C5, as the claim states it, fails: one step per second, at the start of
    the episode; [2 * PI / 1] seconds later the left foot is not back at
    phase 0, because the phase has advanced by [4 * PI * PI], which is not a
    whole number of turns. *)
Lemma phase_period_counterexample :
  TimestepPhaseObservation.phase TimestepPhaseObservation.default
    (walking_at (0 + 2 * PI / 1)) <>
  TimestepPhaseObservation.phase TimestepPhaseObservation.default
    (walking_at 0).
Proof.
  rewrite walking_phase_at_start, walking_phase_at.
  intros Heq. injection Heq as Hl _. revert Hl. unfold wrap.
  destruct (fmod_decompose (0 + 2 * PI * 1 * (0 + 2 * PI / 1) + PI) (2 * PI))
    as [k ->].
  intros Hk.
  pose proof PI_gt_3. pose proof PI_lt_7_2.
  assert (Hk' : 2 * PI * (2 * PI - IZR k) = 0) by lra.
  apply Rmult_integral in Hk' as [| Hk']; [lra |].
  assert (H6 : IZR 6 < IZR k) by lra.
  assert (H7 : IZR k < IZR 7) by lra.
  apply lt_IZR in H6, H7. lia.
Qed.

(** C5 (amended). For elapsed time t >= 0, gait frequency f > 0 and a
    positive control step, the phase clock has period 1/f: the phase, and
    with it the observation, computed at elapsed time t + 1/f equals the one
    computed at elapsed time t under the same commands. *)
Theorem phase_periodic self state state' f v a :
  0 < TimestepPhaseObservation.ctrl_dt self ->
  0 <= time state ->
  0 < f ->
  commands state !! "gait_frequency_command" = Some [f] ->
  commands state !! "linear_velocity_command" = Some v ->
  commands state !! "angular_velocity_command" = Some a ->
  commands state' = commands state ->
  time state' = time state + 1 / f ->
  TimestepPhaseObservation.phase self state' =
    TimestepPhaseObservation.phase self state /\
  TimestepPhaseObservation.observe self state' =
    TimestepPhaseObservation.observe self state.
Proof.
  intros Hdt Ht Hf Hg Hv Ha Hc Ht'.
  assert (Hp : TimestepPhaseObservation.phase self state' =
               TimestepPhaseObservation.phase self state).
  { rewrite (phase_eq self state f v a) by done.
    rewrite (phase_eq self state' f v a) by (by rewrite Hc).
    rewrite !phase_advance by done. rewrite Ht'.
    pose proof PI_gt_3.
    assert (H0 : 0 <= 2 * PI * f * time state)
      by (apply two_pi_mult_nonneg; lra).
    replace (0 + 2 * PI * f * (time state + 1 / f))
      with (0 + 2 * PI * f * time state + 2 * PI) by (field; lra).
    replace (PI + 2 * PI * f * (time state + 1 / f))
      with (PI + 2 * PI * f * time state + 2 * PI) by (field; lra).
    rewrite !wrap_add_turn by lra. reflexivity. }
  split; [exact Hp |].
  unfold TimestepPhaseObservation.observe. by rewrite Hp.
Qed.

Lemma phase_periodic_witness :
  TimestepPhaseObservation.phase TimestepPhaseObservation.default
    (walking_at (3 + 1 / 1)) =
    TimestepPhaseObservation.phase TimestepPhaseObservation.default
      (walking_at 3) /\
  TimestepPhaseObservation.observe TimestepPhaseObservation.default
    (walking_at (3 + 1 / 1)) =
    TimestepPhaseObservation.observe TimestepPhaseObservation.default
      (walking_at 3).
Proof.
  apply (phase_periodic TimestepPhaseObservation.default (walking_at 3)
           (walking_at (3 + 1 / 1)) 1 [1; 0] [0]);
    try reflexivity; simpl; lra.
Defined.

(** ** Desired foot height *)

Lemma clip_unit x : 0 <= x <= 1 -> clip x 0 1 = x.
Proof.
  intros [H0 H1]. unfold clip.
  rewrite Rmax_left by lra. by rewrite Rmin_left by lra.
Qed.

Lemma normalized_phase_0 : (- PI + PI) / (2 * PI) = 0.
Proof. pose proof PI_gt_3. field. lra. Qed.

Lemma normalized_phase_1 : (PI + PI) / (2 * PI) = 1.
Proof. pose proof PI_gt_3. field. lra. Qed.

Lemma normalized_phase_half : (0 + PI) / (2 * PI) = 5 / 10.
Proof. pose proof PI_gt_3. field. lra. Qed.

Lemma normalized_phase_above phi :
  (phi + PI) / (2 * PI) = 5 / 10 + phi / (2 * PI).
Proof. pose proof PI_gt_3. field. lra. Qed.

Section GaitPhase.

Variable bezier : R -> R -> R -> R.

(** The contract of the interpolant: it starts and ends at the given
    endpoints and is continuous where the descending branch starts. *)
Hypothesis bezier_start : forall a b, bezier a b 0 = a.
Hypothesis bezier_end : forall a b, bezier a b 1 = b.
Hypothesis bezier_continuous : forall a b, continuity_pt (bezier a b) 0.

Lemma gait_phase_swing phi h :
  0 < phi <= PI ->
  FeetPhaseReward.gait_phase bezier phi h = bezier h 0 (phi / PI).
Proof.
  intros [H0 H1]. pose proof PI_gt_3.
  unfold FeetPhaseReward.gait_phase.
  rewrite normalized_phase_above.
  assert (Hq : 0 < phi / (2 * PI) <= 5 / 10).
  { split.
    - apply Rmult_lt_0_compat; [lra | apply Rinv_0_lt_compat; lra].
    - apply (Rmult_le_reg_r (2 * PI)); [lra |].
      replace (phi / (2 * PI) * (2 * PI)) with phi by (field; lra). lra. }
  rewrite clip_unit by lra.
  rewrite bool_decide_eq_false_2 by lra.
  f_equal. field. lra.
Qed.

(** C7. For every swing height, the desired foot height is exactly 0 at
    normalized phase x = 0 (phi = -pi) and at x = 1 (phi = pi); at the
    branch boundary x = 0.5 (phi = 0) the rising branch gives swing_height,
    and the descending branch tends to swing_height as the phase
    approaches the boundary from above, so the curve is continuous
    there. *)
Theorem gait_phase_endpoints_and_boundary (swing_height : R) :
  FeetPhaseReward.gait_phase bezier (- PI) swing_height = 0 /\
  FeetPhaseReward.gait_phase bezier PI swing_height = 0 /\
  FeetPhaseReward.gait_phase bezier 0 swing_height = swing_height /\
  (forall eps, 0 < eps ->
     exists delta, 0 < delta /\
       forall phi, 0 < phi < delta ->
         Rabs (FeetPhaseReward.gait_phase bezier phi swing_height
               - swing_height) < eps).
Proof.
  pose proof PI_gt_3 as Hpi. repeat split.
  - unfold FeetPhaseReward.gait_phase.
    rewrite normalized_phase_0, clip_unit by lra.
    rewrite bool_decide_eq_true_2 by lra.
    replace (2 * 0) with 0 by lra. apply bezier_start.
  - unfold FeetPhaseReward.gait_phase.
    rewrite normalized_phase_1, clip_unit by lra.
    rewrite bool_decide_eq_false_2 by lra.
    replace (2 * 1 - 1) with 1 by lra. apply bezier_end.
  - unfold FeetPhaseReward.gait_phase.
    rewrite normalized_phase_half, clip_unit by lra.
    rewrite bool_decide_eq_true_2 by lra.
    replace (2 * (5 / 10)) with 1 by lra. apply bezier_end.
  - intros eps Heps.
    destruct (bezier_continuous swing_height 0 eps Heps) as (alp & Halp & Hc).
    exists (Rmin PI (alp * PI)). split.
    { apply Rmin_glb_lt; [lra | apply Rmult_lt_0_compat; lra]. }
    intros phi [Hphi0 Hphi].
    assert (Hphi1 : phi < PI) by (eapply Rlt_le_trans; [exact Hphi | apply Rmin_l]).
    assert (Hphi2 : phi < alp * PI)
      by (eapply Rlt_le_trans; [exact Hphi | apply Rmin_r]).
    rewrite gait_phase_swing by lra.
    assert (Hu0 : 0 < phi / PI)
      by (apply Rmult_lt_0_compat; [lra | apply Rinv_0_lt_compat; lra]).
    assert (Hu1 : phi / PI < alp).
    { apply (Rmult_lt_reg_r PI); [lra |].
      replace (phi / PI * PI) with phi by (field; lra). lra. }
    specialize (Hc (phi / PI)).
    rewrite bezier_start in Hc. apply Hc. split.
    + split; [exact I | lra].
    + simpl. unfold Rdist. rewrite Rminus_0_r, Rabs_pos_eq; lra.
Qed.

End GaitPhase.

Lemma smoothstep_bezier_continuous a b x :
  continuity_pt (smoothstep_bezier a b) x.
Proof.
  apply derivable_continuous_pt. unfold smoothstep_bezier. reg.
Qed.

Lemma gait_phase_endpoints_and_boundary_witness :
  FeetPhaseReward.gait_phase smoothstep_bezier (- PI) (12 / 100) = 0 /\
  FeetPhaseReward.gait_phase smoothstep_bezier PI (12 / 100) = 0 /\
  FeetPhaseReward.gait_phase smoothstep_bezier 0 (12 / 100) = 12 / 100 /\
  (forall eps, 0 < eps ->
     exists delta, 0 < delta /\
       forall phi, 0 < phi < delta ->
         Rabs (FeetPhaseReward.gait_phase smoothstep_bezier phi (12 / 100)
               - 12 / 100) < eps).
Proof.
  apply (gait_phase_endpoints_and_boundary smoothstep_bezier).
  - intros a b. unfold smoothstep_bezier. simpl. lra.
  - intros a b. unfold smoothstep_bezier. simpl. lra.
  - intros a b. apply smoothstep_bezier_continuous.
Defined.

(** ** Mixture spread *)

Lemma softplus_pos x : 0 < softplus x.
Proof.
  unfold softplus. rewrite <- ln_1. pose proof (exp_pos x).
  apply ln_increasing; lra.
Qed.

Lemma std_transform_bounds self raw :
  0 <= Actor.var_scale self ->
  Actor.min_std self * Actor.var_scale self <= Actor.max_std self ->
  Actor.min_std self * Actor.var_scale self
    <= Actor.std_transform self raw <= Actor.max_std self.
Proof.
  intros Hs Hm. unfold Actor.std_transform, clip_max. split.
  - apply Rmin_glb; [| done].
    pose proof (softplus_pos raw).
    assert (0 <= softplus raw * Actor.var_scale self)
      by (apply Rmult_le_pos; lra).
    lra.
  - apply Rmin_r.
Qed.

Lemma forward_stds self obs_n c d c' :
  Actor.forward self obs_n c = inr (d, c') ->
  exists raw_nm : Mat, stds_nm d = map (map (Actor.std_transform self)) raw_nm.
Proof.
  unfold Actor.forward. intros H.
  destruct (Linear.call _ _) as [| x0]; [done |]. cbn [bind] in H.
  destruct (run_rnns _ _ _ _ _) as [| [x oc]]; [done |]. cbn [bind] in H.
  destruct (Linear.call _ _) as [| out]; [done |]. cbn [bind] in H.
  destruct (reshape _ _ _) as [| mean]; [done |]. cbn [bind] in H.
  destruct (reshape _ _ _) as [| std]; [done |]. cbn [bind] in H.
  destruct (reshape _ _ _) as [| logits]; [done |]. cbn [bind] in H.
  destruct (zipM2 _ _ _) as [| mean']; [done |]. cbn [bind] in H.
  destruct (stack _) as [| st]; [done |]. cbn [bind ret] in H.
  injection H as <- _. by exists std.
Qed.

Lemma forward_stds_bounds self obs_n c d c' lo hi :
  (forall raw, lo <= Actor.std_transform self raw <= hi) ->
  Actor.forward self obs_n c = inr (d, c') ->
  Forall (Forall (fun s => lo <= s <= hi)) (stds_nm d).
Proof.
  intros Hb Hf. destruct (forward_stds _ _ _ _ _ Hf) as [raw_nm ->].
  apply Forall_fmap, Forall_true. intros r.
  apply Forall_fmap, Forall_true. intros raw. apply Hb.
Qed.

(** Over floating-point values the transform of a finite raw output is a
    finite number: an overflow of the softplus, of the sum or of the product
    is plus infinity, which the clip replaces by [max_std]. *)
Lemma ieee_std_transform_finite round softplus_float self raw :
  IEEE.rounds_nonneg round -> IEEE.softplus_nonneg softplus_float ->
  0 <= Actor.min_std self -> 0 < Actor.var_scale self ->
  0 <= Actor.max_std self ->
  exists s,
    IEEE.std_transform round softplus_float self (IEEE.Num raw) = IEEE.Num s /\
    0 <= s <= Actor.max_std self.
Proof.
  intros Hround Hsoft Hmin Hscale Hmax.
  assert (Hinf : IEEE.scale_inf true (Actor.var_scale self) = IEEE.PosInf).
  { unfold IEEE.scale_inf. by rewrite bool_decide_eq_true_2. }
  assert (Hclip : forall w, 0 <= w ->
            0 <= Rmin w (Actor.max_std self) <= Actor.max_std self).
  { intros w Hw. split; [by apply Rmin_glb | apply Rmin_r]. }
  unfold IEEE.std_transform. cbn [IEEE.softplus].
  destruct (Hsoft raw) as [-> | (y & -> & Hy)]; cbn [IEEE.add IEEE.mul].
  { rewrite Hinf. cbn. exists (Actor.max_std self). split; [done | lra]. }
  destruct (Hround (y + Actor.min_std self)) as [-> | (z & -> & Hz)];
    [lra | |]; cbn [IEEE.mul].
  { rewrite Hinf. cbn. exists (Actor.max_std self). split; [done | lra]. }
  destruct (Hround (z * Actor.var_scale self)) as [-> | (w & -> & Hw)];
    [apply Rmult_le_pos; lra | |]; cbn.
  - exists (Actor.max_std self). split; [done | lra].
  - exists (Rmin w (Actor.max_std self)). split; [done | by apply Hclip].
Qed.

(** C3. In Actor.forward every standard deviation is
    clip((softplus(raw) + min_std) * var_scale, max = max_std) of a raw
    network output, for every raw output however large or small.  For a
    non-negative var_scale whose scaled floor min_std * var_scale does not
    exceed max_std it lies in the closed interval
    [min_std * var_scale, max_std].  Model.__init__ builds every actor with
    var_scale = 1.0, so for the actor of every model it builds the interval
    is [min_std, max_std], the floor being the configured minimum spread.
    Over floating-point values, with a non-negative floor and a positive
    scale, the result is a finite number between 0 and max_std: it is never
    NaN and never infinite, whatever overflows on the way. *)
Theorem std_within_scaled_floor_and_max :
  (forall self,
     0 <= Actor.var_scale self ->
     Actor.min_std self * Actor.var_scale self <= Actor.max_std self ->
     (forall raw,
        Actor.std_transform self raw =
          Rmin ((ln (1 + exp raw) + Actor.min_std self) * Actor.var_scale self)
            (Actor.max_std self) /\
        Actor.min_std self * Actor.var_scale self
          <= Actor.std_transform self raw <= Actor.max_std self) /\
     (forall obs_n c d c',
        Actor.forward self obs_n c = inr (d, c') ->
        (exists raw_nm : Mat,
           stds_nm d = map (map (Actor.std_transform self)) raw_nm) /\
        Forall (Forall (fun s =>
          Actor.min_std self * Actor.var_scale self <= s <= Actor.max_std self))
          (stds_nm d)) /\
     (0 < Actor.var_scale self -> 0 <= Actor.min_std self ->
      forall round softplus_float,
        IEEE.rounds_nonneg round -> IEEE.softplus_nonneg softplus_float ->
        forall raw, exists s,
          IEEE.std_transform round softplus_float self (IEEE.Num raw)
            = IEEE.Num s /\
          0 <= s <= Actor.max_std self)) /\
  (forall layers num_inputs num_outputs min_std max_std num_mixtures,
     min_std <= max_std ->
     forall obs_n c d c',
       Actor.forward
         (actor (Model_init layers num_inputs num_outputs min_std max_std
                   num_mixtures)) obs_n c = inr (d, c') ->
       Forall (Forall (fun s => min_std <= s <= max_std)) (stds_nm d)).
Proof.
  split.
  - intros self Hs Hm. split; [| split].
    + intros raw. split; [reflexivity | by apply std_transform_bounds].
    + intros obs_n c d c' Hf. split; [by eapply forward_stds |].
      eapply forward_stds_bounds; [| exact Hf].
      intros raw. by apply std_transform_bounds.
    + intros Hpos Hmin round softplus_float Hround Hsoft raw.
      apply ieee_std_transform_finite; try done.
      assert (0 <= Actor.min_std self * Actor.var_scale self)
        by (apply Rmult_le_pos; lra).
      lra.
  - intros layers num_inputs num_outputs min_std max_std num_mixtures Hm
      obs_n c d c' Hf.
    eapply forward_stds_bounds; [| exact Hf].
    intros raw.
    destruct (std_transform_bounds
      (actor (Model_init layers num_inputs num_outputs min_std max_std
                num_mixtures)) raw) as [Hlo Hhi];
      cbn [Model_init actor Actor.var_scale Actor.min_std Actor.max_std] in *;
      lra.
Qed.

Lemma overflowing_round_nonneg : IEEE.rounds_nonneg overflowing_round.
Proof.
  intros x Hx. unfold overflowing_round.
  destruct (bool_decide (2 ^ 128 < x)); [by left |].
  assert (0 < 2 ^ 128) by (apply pow_lt; lra).
  rewrite bool_decide_eq_false_2 by lra.
  right. by exists x.
Qed.

Lemma rounded_softplus_nonneg : IEEE.softplus_nonneg rounded_softplus.
Proof.
  intros x. apply overflowing_round_nonneg.
  pose proof (softplus_pos x). lra.
Qed.

Lemma std_within_scaled_floor_and_max_witness :
  ((forall raw,
      Actor.std_transform (actor toy_model) raw =
        Rmin ((ln (1 + exp raw) + 1 / 100) * 1) 1 /\
      1 / 100 * 1 <= Actor.std_transform (actor toy_model) raw <= 1) /\
   (forall obs_n c d c',
      Actor.forward (actor toy_model) obs_n c = inr (d, c') ->
      (exists raw_nm : Mat,
         stds_nm d = map (map (Actor.std_transform (actor toy_model))) raw_nm) /\
      Forall (Forall (fun s => 1 / 100 * 1 <= s <= 1)) (stds_nm d)) /\
   (forall raw, exists s,
      IEEE.std_transform overflowing_round rounded_softplus (actor toy_model)
        (IEEE.Num raw) = IEEE.Num s /\
      0 <= s <= 1)) /\
  (forall obs_n c d c',
     Actor.forward (actor (Model_init toy_layers 57 20 (1 / 100) 1 1)) obs_n c
       = inr (d, c') ->
     Forall (Forall (fun s => 1 / 100 <= s <= 1)) (stds_nm d)).
Proof.
  destruct std_within_scaled_floor_and_max as [Hany Hbuilt]. split.
  - destruct (Hany (actor toy_model)) as (Hreal & Hfwd & Hfloat);
      [simpl; lra | simpl; lra |].
    split; [exact Hreal |]. split; [exact Hfwd |].
    apply Hfloat;
      [simpl; lra | simpl; lra | exact overflowing_round_nonneg
      | exact rounded_softplus_nonneg].
  - apply (Hbuilt toy_layers 57%nat 20%nat (1 / 100) 1 1%nat). lra.
Defined.

(** ** The error monad and the time axis *)

Ltac inv_bind H :=
  match type of H with
  | bind ?m _ = inr _ =>
      let E := fresh "E" in
      destruct m eqn:E; cbn [bind] in H; [discriminate H |]
  end.

Lemma zipM2_length {A B C} (f : A -> B -> result C) xs ys zs :
  zipM2 f xs ys = inr zs -> length xs = length zs /\ length ys = length zs.
Proof.
  revert ys zs. induction xs as [| x xs IH]; intros [| y ys] zs H;
    cbn in H; unfold ret, raise in H; try discriminate H.
  - by injection H as <-.
  - do 2 inv_bind H. injection H as <-.
    destruct (IH _ _ E0). simpl. lia.
Qed.

Lemma zipM2_lookup {A B C} (f : A -> B -> result C) xs ys zs i x y :
  zipM2 f xs ys = inr zs -> xs !! i = Some x -> ys !! i = Some y ->
  exists z, zs !! i = Some z /\ f x y = inr z.
Proof.
  revert ys zs i. induction xs as [| x' xs IH]; intros [| y' ys] zs i H Hx Hy;
    cbn in H; unfold ret, raise in H; try discriminate H; [done |].
  do 2 inv_bind H. injection H as <-.
  destruct i as [| i]; simplify_eq/=; [by eexists | by eapply IH].
Qed.

Lemma gated_reward_lookup (gate : R -> bool) reward ns r i n :
  zipM2 (fun e m => ret (e * b2r (gate m))) reward ns = inr r ->
  ns !! i = Some n -> gate n = false -> r !! i = Some 0.
Proof.
  intros Hz Hn Hg. destruct (zipM2_length _ _ _ _ Hz) as [Hl1 Hl2].
  destruct (lookup_lt_is_Some_2 reward i) as [e He].
  { rewrite Hl1, <- Hl2. by eapply lookup_lt_Some. }
  destruct (zipM2_lookup _ _ _ _ _ _ _ Hz He Hn) as (z & Hz' & Hf).
  rewrite Hg in Hf. injection Hf as <-. rewrite Hz'. f_equal.
  unfold b2r. lra.
Qed.

Lemma command_norm_lookup vel ang ns i (v a : Vec) :
  zipM2 (fun v a => ret (norm (v ++ a))) vel ang = inr ns ->
  vel !! i = Some v -> ang !! i = Some a -> ns !! i = Some (norm (v ++ a)).
Proof.
  intros Hz Hv Ha.
  destruct (zipM2_lookup _ _ _ _ _ _ _ Hz Hv Ha) as (z & -> & Hf).
  by injection Hf as <-.
Qed.

(** ** Stand-still gates *)

(** C10. At a trajectory step whose concatenated linear and angular velocity
    command has norm exactly stand_still_threshold, FeetPhaseReward (gate
    command_norm > threshold) and StandStillReward (gate cmd_norm <
    threshold) both return 0 for that step: both gates are strict. *)
Theorem rewards_vanish_at_threshold :
  (forall bezier self trajectory vel ang r i v a,
     command trajectory !! FeetPhaseReward.linear_velocity_cmd_name self
       = Some vel ->
     command trajectory !! FeetPhaseReward.angular_velocity_cmd_name self
       = Some ang ->
     vel !! i = Some v -> ang !! i = Some a ->
     norm (v ++ a) = FeetPhaseReward.stand_still_threshold self ->
     FeetPhaseReward.get_reward bezier self trajectory = inr r ->
     r !! i = Some 0) /\
  (forall self trajectory vel ang r i v a,
     command trajectory !! StandStillReward.linear_velocity_cmd_name self
       = Some vel ->
     command trajectory !! StandStillReward.angular_velocity_cmd_name self
       = Some ang ->
     vel !! i = Some v -> ang !! i = Some a ->
     norm (v ++ a) = StandStillReward.stand_still_threshold self ->
     StandStillReward.get_reward self trajectory = inr r ->
     r !! i = Some 0).
Proof.
  split.
  - intros bezier self trajectory vel ang r i v a Hvel Hang Hv Ha Hn H.
    unfold FeetPhaseReward.get_reward in H.
    destruct (negb (contains (obs trajectory) _)); [done |].
    destruct (negb (contains (command trajectory) _)); [done |].
    do 4 inv_bind H.
    rewrite (getitem_Some _ _ _ Hvel), (getitem_Some _ _ _ Hang) in H.
    cbn [bind] in H. inv_bind H.
    eapply (gated_reward_lookup
              (fun n => bool_decide (n > FeetPhaseReward.stand_still_threshold self)));
      [exact H | by eapply command_norm_lookup |].
    apply bool_decide_eq_false_2. lra.
  - intros self trajectory vel ang r i v a Hvel Hang Hv Ha Hn H.
    unfold StandStillReward.get_reward in H.
    rewrite (getitem_Some _ _ _ Hvel), (getitem_Some _ _ _ Hang) in H.
    cbn [bind] in H. do 2 inv_bind H.
    eapply (gated_reward_lookup
              (fun n => bool_decide (n < StandStillReward.stand_still_threshold self)));
      [exact H | by eapply command_norm_lookup |].
    apply bool_decide_eq_false_2. lra.
Qed.

Lemma rewards_vanish_at_threshold_witness :
  (exists r,
     FeetPhaseReward.get_reward smoothstep_bezier FeetPhaseReward.default
       toy_trajectory = inr r /\ r !! 0%nat = Some 0) /\
  (exists r,
     StandStillReward.get_reward (StandStillReward.default (map snd ZEROS))
       toy_trajectory = inr r /\ r !! 0%nat = Some 0).
Proof.
  split.
  - eexists. split; [reflexivity |].
    eapply (proj1 rewards_vanish_at_threshold smoothstep_bezier
              FeetPhaseReward.default toy_trajectory _ _ _ 0%nat [0; 0] [0]);
      try reflexivity.
    simpl. apply norm_zeros3.
  - eexists. split; [reflexivity |].
    eapply (proj2 rewards_vanish_at_threshold
              (StandStillReward.default (map snd ZEROS)) toy_trajectory
              _ _ _ 0%nat [0; 0] [0]);
      try reflexivity.
    simpl. apply norm_zeros3.
Defined.

(** ** Key validation *)

(** The keys a term validates raise the descriptive error: the message is
    built around the name of the missing key. *)
Lemma validated_keys_raise_value_error trajectory :
  (forall bezier self,
     obs trajectory !! FeetPhaseReward.feet_pos_obs_name self = None ->
     FeetPhaseReward.get_reward bezier self trajectory =
     inl (ValueError ("Observation " +:+ FeetPhaseReward.feet_pos_obs_name self
            +:+ " not found; add it as an observation in your task."))) /\
  (forall self,
     obs trajectory !! LinearVelocityTrackingReward.linvel_obs_name self = None ->
     LinearVelocityTrackingReward.get_reward self trajectory =
     inl (ValueError ("Observation " +:+
            LinearVelocityTrackingReward.linvel_obs_name self
            +:+ " not found; add it as an observation in your task."))) /\
  (forall self,
     obs trajectory !! FeetSlipPenalty.feet_contact_obs_name self = None ->
     FeetSlipPenalty.get_reward self trajectory =
     inl (ValueError ("Observation " +:+
            FeetSlipPenalty.feet_contact_obs_name self
            +:+ " not found; add it as an observation in your task."))).
Proof.
  repeat split; intros;
    [unfold FeetPhaseReward.get_reward
    |unfold LinearVelocityTrackingReward.get_reward
    |unfold FeetSlipPenalty.get_reward];
    unfold contains; rewrite bool_decide_eq_false_2; try done;
    by intros [? ?]; simplify_eq.
Qed.

Lemma validated_key_error_is_descriptive kind name tail :
  descriptive_error (ValueError (kind +:+ name +:+ tail)) name.
Proof. by exists kind, tail. Qed.

(** The keys a term reads without validating raise the bare [KeyError] of
    the mapping. *)
Lemma unvalidated_keys_raise_key_error trajectory :
  (forall self m,
     obs trajectory !! LinearVelocityTrackingReward.linvel_obs_name self
       = Some m ->
     command trajectory !! LinearVelocityTrackingReward.command_name self
       = None ->
     LinearVelocityTrackingReward.get_reward self trajectory =
     inl (KeyError (LinearVelocityTrackingReward.command_name self))) /\
  (forall self,
     command trajectory !! StandStillReward.linear_velocity_cmd_name self
       = None ->
     StandStillReward.get_reward self trajectory =
     inl (KeyError (StandStillReward.linear_velocity_cmd_name self))) /\
  (forall self m,
     obs trajectory !! FeetSlipPenalty.feet_contact_obs_name self = Some m ->
     obs trajectory !! FeetSlipPenalty.com_vel_obs_name self = None ->
     FeetSlipPenalty.get_reward self trajectory =
     inl (KeyError (FeetSlipPenalty.com_vel_obs_name self))).
Proof.
  repeat split.
  - intros self m Ho Hc. unfold LinearVelocityTrackingReward.get_reward, contains.
    rewrite bool_decide_eq_true_2 by (by rewrite Ho).
    by rewrite (getitem_None _ _ Hc).
  - intros self Hc. unfold StandStillReward.get_reward.
    by rewrite (getitem_None _ _ Hc).
  - intros self m Ho Hc. unfold FeetSlipPenalty.get_reward, contains.
    rewrite bool_decide_eq_true_2 by (by rewrite Ho).
    by rewrite (getitem_Some _ _ _ Ho), (getitem_None _ _ Hc).
Qed.

(** C6 fails on the code. With the linear-velocity command missing from the
    command mapping, LinearVelocityTrackingReward.get_reward and
    StandStillReward.get_reward raise the mapping's KeyError, and so does
    FeetSlipPenalty.get_reward when the centre-of-mass velocity observation
    is missing: none of them raises the descriptive ValueError that the
    validated keys raise. *)
Theorem unvalidated_keys_evaluation :
  LinearVelocityTrackingReward.get_reward LinearVelocityTrackingReward.default
    trajectory_without_command = inl (KeyError "linear_velocity_command") /\
  StandStillReward.get_reward (StandStillReward.default (map snd ZEROS))
    trajectory_without_command = inl (KeyError "linear_velocity_command") /\
  FeetSlipPenalty.get_reward FeetSlipPenalty.default
    trajectory_without_com_velocity =
    inl (KeyError "center_of_mass_velocity_observation") /\
  (forall key key', ~ descriptive_error (KeyError key) key').
Proof.
  split; [reflexivity |]. split; [reflexivity |]. split; [reflexivity |].
  intros key key' (pre & post & H). discriminate H.
Qed.

(** ** Recurrent evaluation *)

Lemma where_vec_select c x y r :
  where_vec c x y = inr r -> r = if c then x else y.
Proof.
  unfold where_vec. revert y r.
  induction x as [| a x IH]; intros [| b y] r H;
    cbn in H; unfold ret, raise in H; try discriminate H.
  - injection H as <-. by destruct c.
  - inv_bind H. injection H as <-. rewrite (IH _ _ E). by destruct c.
Qed.

Lemma where_mat_select c x y r :
  where_mat c x y = inr r -> r = if c then x else y.
Proof.
  revert y r.
  induction x as [| a x IH]; intros [| b y] r H;
    cbn in H; unfold ret, raise in H; try discriminate H.
  - injection H as <-. by destruct c.
  - do 2 inv_bind H. injection H as <-.
    rewrite (IH _ _ E0), (where_vec_select _ _ _ _ E). by destruct c.
Qed.

Lemma lax_scan_app {C X Y} (f : C -> X -> result (C * Y)) init xs xs' :
  lax_scan f init (xs ++ xs') =
  ('(c, ys) <- lax_scan f init xs ;
   '(c', ys') <- lax_scan f c xs' ;
   ret (c', ys ++ ys')).
Proof.
  revert init. induction xs as [| x xs IH]; intros init; cbn.
  - by destruct (lax_scan f init xs') as [| [c ys]].
  - destruct (f init x) as [| [c y]]; [done |]. cbn. rewrite IH.
    destruct (lax_scan f c xs) as [| [c1 ys]]; [done |]. cbn.
    by destruct (lax_scan f c1 xs') as [| [c2 ys']].
Qed.

Lemma mapM_lookup {A B} (f : A -> result B) l ys i x :
  mapM f l = inr ys -> l !! i = Some x ->
  exists y, ys !! i = Some y /\ f x = inr y.
Proof.
  revert ys i. induction l as [| a l IH]; intros ys i H Hx; [done |].
  cbn in H. do 2 inv_bind H. injection H as <-.
  destruct i as [| i]; simplify_eq/=; [by eexists | by eapply IH].
Qed.

(** Slice [t] of the unstacked trajectory carries [done[t]]. *)
Lemma unstack_lookup trajectory xs t d :
  unstack trajectory = inr xs ->
  done trajectory !! t = Some d ->
  exists tr, xs !! t = Some tr /\ t_done tr = d /\
             slice_at trajectory t = inr tr.
Proof.
  unfold unstack. intros H Hd.
  destruct (same_leading_axis trajectory); [| done].
  destruct (mapM_lookup _ _ _ t t H) as (tr & Htr & Hs).
  { apply lookup_seq. split; [done |]. by eapply lookup_lt_Some. }
  exists tr. split; [done |]. split; [| done].
  unfold slice_at in Hs. rewrite Hd in Hs.
  destruct (action trajectory !! t); [| discriminate Hs].
  by injection Hs as <-.
Qed.

(** A scan that returns has passed through every step: it reached step [t]
    with some carry, the body returned there the output stored at position
    [t], and the rest of the scan ran from the carry the body returned. *)
Lemma lax_scan_lookup {C X Y} (f : C -> X -> result (C * Y)) init xs c ys t x :
  lax_scan f init xs = inr (c, ys) ->
  xs !! t = Some x ->
  exists c_t c_next y,
    lax_scan f init (take t xs) = inr (c_t, take t ys) /\
    f c_t x = inr (c_next, y) /\
    ys !! t = Some y /\
    lax_scan f c_next (drop (S t) xs) = inr (c, drop (S t) ys).
Proof.
  revert init ys t. induction xs as [| a xs IH]; intros init ys t H Hx;
    [done |].
  cbn [lax_scan] in H.
  destruct (f init a) as [| [c1 y1]] eqn:Ef; [discriminate H |].
  cbn [bind] in H.
  destruct (lax_scan f c1 xs) as [| [c2 ys2]] eqn:Es; [discriminate H |].
  cbn [bind ret] in H. injection H as <- <-.
  destruct t as [| t].
  - injection Hx as ->. exists init, c1, y1. cbn [take drop lookup].
    by repeat split.
  - destruct (IH _ _ _ Es Hx) as (c_t & c_next & y & Hpre & Hf & Hy & Hpost).
    exists c_t, c_next, y. cbn [take lax_scan]. rewrite Ef. cbn [bind].
    rewrite Hpre. by repeat split.
Qed.

Section Recurrent.

Context {PRNGKey : Type} `{!Distribution PRNGKey}.

(** The carry into step [t + 1] is what the scan body returns at step [t]
    from the carry into step [t]. *)
Lemma carry_into_S self model (rng : PRNGKey) c0 xs t tr :
  xs !! t = Some tr ->
  KbotWalkingTask.carry_into self model rng c0 xs (S t) =
  (c <- KbotWalkingTask.carry_into self model rng c0 xs t ;
   '(c', _) <- KbotWalkingTask.scan_fn self model rng c tr ;
   ret c').
Proof.
  intros Ht. unfold KbotWalkingTask.carry_into.
  rewrite (take_S_r _ _ _ Ht), lax_scan_app.
  destruct (lax_scan _ c0 (take t xs)) as [| [c ys]]; [done |]. cbn.
  by destruct (KbotWalkingTask.scan_fn self model rng c tr) as [| [c' y]].
Qed.

(** What the body of the scan does at one step, read off its result. *)
Lemma scan_fn_inv self model (rng : PRNGKey) actor_carry critic_carry tr
    c_next y :
  KbotWalkingTask.scan_fn self model rng (actor_carry, critic_carry) tr
    = inr (c_next, y) ->
  exists dist next_actor_carry lp value next_critic_carry v,
    KbotWalkingTask.run_actor self (actor model) (t_obs tr) (t_command tr)
      actor_carry = inr (dist, next_actor_carry) /\
    log_prob dist (t_action tr) = inr lp /\
    KbotWalkingTask.run_critic self (critic model) (t_obs tr) (t_command tr)
      critic_carry = inr (value, next_critic_carry) /\
    KbotWalkingTask.squeeze value = inr v /\
    y = {| log_probs := lp; values := v |} /\
    c_next = if t_done tr
             then KbotWalkingTask.get_initial_model_carry self rng
             else (next_actor_carry, next_critic_carry).
Proof.
  intros H. unfold KbotWalkingTask.scan_fn in H.
  destruct (KbotWalkingTask.run_actor _ _ _ _ _)
    as [| [dist next_actor_carry]] eqn:Ea; [discriminate H |].
  cbn [bind] in H.
  destruct (log_prob _ _) as [| lp] eqn:Elp; [discriminate H |].
  cbn [bind] in H.
  destruct (KbotWalkingTask.run_critic _ _ _ _ _)
    as [| [value next_critic_carry]] eqn:Ec; [discriminate H |].
  cbn [bind] in H.
  destruct (KbotWalkingTask.squeeze value) as [| v] eqn:Ev; [discriminate H |].
  cbn [bind KbotWalkingTask.get_initial_model_carry] in H.
  destruct (where_mat _ _ next_actor_carry) as [| a] eqn:Ewa;
    [discriminate H |].
  cbn [bind] in H.
  destruct (where_mat _ _ next_critic_carry) as [| c] eqn:Ewc;
    [discriminate H |].
  cbn [bind ret] in H. injection H as <- <-.
  exists dist, next_actor_carry, lp, value, next_critic_carry, v.
  repeat split; try done.
  apply where_mat_select in Ewa, Ewc. subst.
  unfold KbotWalkingTask.get_initial_model_carry. by destruct (t_done tr).
Qed.

(** C1. Whenever get_ppo_variables returns, its scan has, for every step
    index t of the trajectory, fed some carry pair into step t, run the
    actor and the critic on slice t from that pair and stored their
    PPOVariables at position t of the result; the carry pair it fed into
    step t+1 is the all-zero pair of get_initial_model_carry when done[t] is
    True, whatever memory the two networks computed at step t, and is the
    pair (actor memory, critic memory) they computed at step t when done[t]
    is False; and the remaining steps were run from that pair, giving the
    rest of the result and the carry that get_ppo_variables returns. *)
Theorem carry_reset_on_done self model (rng : PRNGKey) c0 trajectory vars
    c_final t (d : bool) :
  KbotWalkingTask.get_ppo_variables self model trajectory c0 rng
    = inr (vars, c_final) ->
  done trajectory !! t = Some d ->
  exists xs tr actor_carry critic_carry dist next_actor_carry lp value
         next_critic_carry v c_next,
    unstack trajectory = inr xs /\
    xs !! t = Some tr /\
    KbotWalkingTask.carry_into self model rng c0 xs t
      = inr (actor_carry, critic_carry) /\
    KbotWalkingTask.run_actor self (actor model) (t_obs tr) (t_command tr)
      actor_carry = inr (dist, next_actor_carry) /\
    log_prob dist (t_action tr) = inr lp /\
    KbotWalkingTask.run_critic self (critic model) (t_obs tr) (t_command tr)
      critic_carry = inr (value, next_critic_carry) /\
    KbotWalkingTask.squeeze value = inr v /\
    vars !! t = Some {| log_probs := lp; values := v |} /\
    KbotWalkingTask.carry_into self model rng c0 xs (S t) = inr c_next /\
    c_next = (if d
              then KbotWalkingTask.get_initial_model_carry self rng
              else (next_actor_carry, next_critic_carry)) /\
    lax_scan (KbotWalkingTask.scan_fn self model rng) c_next (drop (S t) xs)
      = inr (c_final, drop (S t) vars).
Proof.
  intros H Hd. unfold KbotWalkingTask.get_ppo_variables in H.
  destruct (unstack trajectory) as [| xs] eqn:Hxs; [discriminate H |].
  cbn [bind] in H.
  destruct (lax_scan _ c0 xs) as [| [c ys]] eqn:Hscan; [discriminate H |].
  cbn [bind ret] in H. injection H as <- <-.
  destruct (unstack_lookup _ _ _ _ Hxs Hd) as (tr & Htr & <- & _).
  destruct (lax_scan_lookup _ _ _ _ _ _ _ Hscan Htr)
    as ([ac cc] & c_next & y & Hpre & Hf & Hy & Hpost).
  destruct (scan_fn_inv _ _ _ _ _ _ _ _ Hf)
    as (dist & na & lp & value & nc & v & Ha & Hlp & Hc & Hv & -> & Hnext).
  exists xs, tr, ac, cc, dist, na, lp, value, nc, v, c_next.
  repeat split; try done.
  - unfold KbotWalkingTask.carry_into. by rewrite Hpre.
  - rewrite (carry_into_S _ _ _ _ _ _ _ Htr).
    unfold KbotWalkingTask.carry_into. rewrite Hpre. cbn [bind ret].
    by rewrite Hf.
Qed.

(** What [run_actor] returns is determined by the nine entries it reads. *)
Lemma run_actor_reads_actor_keys self model obs1 obs2 cmd1 cmd2 c :
  Forall (fun k => obs1 !! k = obs2 !! k) actor_observation_keys ->
  Forall (fun k => cmd1 !! k = cmd2 !! k) actor_command_keys ->
  KbotWalkingTask.run_actor self model obs1 cmd1 c =
  KbotWalkingTask.run_actor self model obs2 cmd2 c.
Proof.
  intros Ho Hc. unfold actor_observation_keys in Ho. unfold actor_command_keys in Hc.
  repeat match goal with
         | H : Forall _ (_ :: _) |- _ => apply Forall_cons in H as [? H]
         end.
  unfold KbotWalkingTask.run_actor, getitem. by repeat match goal with
         | H : _ !! _ = _ !! _ |- _ => rewrite H; clear H
         end.
Qed.

(** C8. Two observation mappings and two command mappings that agree on the
    nine actor inputs, however they differ elsewhere (in particular on the
    privileged keys), give the same distribution and carry from run_actor
    and the same Action from sample_action under the same carry, random
    source and argmax flag. *)
Theorem actor_ignores_privileged self model obs1 obs2 cmd1 cmd2 :
  Forall (fun k => obs1 !! k = obs2 !! k) actor_observation_keys ->
  Forall (fun k => cmd1 !! k = cmd2 !! k) actor_command_keys ->
  (forall c,
     KbotWalkingTask.run_actor self (actor model) obs1 cmd1 c =
     KbotWalkingTask.run_actor self (actor model) obs2 cmd2 c) /\
  (forall model_carry (rng : PRNGKey) argmax,
     KbotWalkingTask.sample_action self model model_carry obs1 cmd1 rng argmax =
     KbotWalkingTask.sample_action self model model_carry obs2 cmd2 rng argmax).
Proof.
  intros Ho Hc. split.
  - intros c. by apply run_actor_reads_actor_keys.
  - intros [ac cc] rng argmax. unfold KbotWalkingTask.sample_action.
    by rewrite (run_actor_reads_actor_keys self (actor model) obs1 obs2 cmd1 cmd2).
Qed.

(** C9. Whenever sample_action returns an Action, the critic component of
    the carry inside it is the critic carry that was passed in; only the
    actor component is advanced, to the carry run_actor returns. *)
Theorem sample_action_keeps_critic_carry self model actor_carry critic_carry
    observations commands (rng : PRNGKey) argmax a :
  KbotWalkingTask.sample_action self model (actor_carry, critic_carry)
    observations commands rng argmax = inr a ->
  snd (carry a) = critic_carry /\
  exists dist,
    KbotWalkingTask.run_actor self (actor model) observations commands
      actor_carry = inr (dist, fst (carry a)).
Proof.
  unfold KbotWalkingTask.sample_action. intros H.
  inv_bind H. destruct p as [dist ac]. injection H as <-.
  split; [done | by exists dist].
Qed.

End Recurrent.

Lemma carry_reset_on_done_witness :
  exists vars c_final,
    KbotWalkingTask.get_ppo_variables toy_task toy_model toy_episode
      (KbotWalkingTask.get_initial_model_carry toy_task 0%nat) 0%nat
      = inr (vars, c_final) /\
    exists xs tr actor_carry critic_carry dist next_actor_carry lp value
           next_critic_carry v c_next,
      unstack toy_episode = inr xs /\
      xs !! 2%nat = Some tr /\
      KbotWalkingTask.carry_into toy_task toy_model 0%nat
        (KbotWalkingTask.get_initial_model_carry toy_task 0%nat) xs 2
        = inr (actor_carry, critic_carry) /\
      KbotWalkingTask.run_actor toy_task (actor toy_model)
        (t_obs tr) (t_command tr) actor_carry = inr (dist, next_actor_carry) /\
      log_prob dist (t_action tr) = inr lp /\
      KbotWalkingTask.run_critic toy_task (critic toy_model)
        (t_obs tr) (t_command tr) critic_carry
        = inr (value, next_critic_carry) /\
      KbotWalkingTask.squeeze value = inr v /\
      vars !! 2%nat = Some {| log_probs := lp; values := v |} /\
      KbotWalkingTask.carry_into toy_task toy_model 0%nat
        (KbotWalkingTask.get_initial_model_carry toy_task 0%nat) xs 3
        = inr c_next /\
      c_next = (if true
                then KbotWalkingTask.get_initial_model_carry toy_task 0%nat
                else (next_actor_carry, next_critic_carry)) /\
      lax_scan (KbotWalkingTask.scan_fn toy_task toy_model 0%nat) c_next
        (drop 3 xs) = inr (c_final, drop 3 vars).
Proof.
  eexists _, _. split; [reflexivity |].
  eapply (carry_reset_on_done toy_task toy_model 0%nat
            (KbotWalkingTask.get_initial_model_carry toy_task 0%nat)
            toy_episode _ _ 2 true);
    reflexivity.
Defined.

(** The scenario of the specification, run on the toy model: the memory
    computed at every step is [[1]], the episode ends at step 2, and the
    carry into step 3 is the zero carry. *)
Example done_resets_memory_scenario :
  let carry_at :=
    KbotWalkingTask.carry_into toy_task toy_model 0%nat
      (KbotWalkingTask.get_initial_model_carry toy_task 0%nat) toy_slices in
  carry_at 0%nat = inr ([[0]], [[0]]) /\
  carry_at 1%nat = inr ([[1]], [[1]]) /\
  carry_at 2%nat = inr ([[1]], [[1]]) /\
  carry_at 3%nat = inr ([[0]], [[0]]) /\
  carry_at 4%nat = inr ([[1]], [[1]]).
Proof. repeat split; reflexivity. Qed.

Lemma actor_ignores_privileged_witness :
  observations_of 0 0 !! "feet_contact_observation" <>
    observations_of 0 5 !! "feet_contact_observation" /\
  (forall c,
     KbotWalkingTask.run_actor toy_task (actor toy_model)
       (observations_of 0 0) (commands_of [1; 0] [0] [1]) c =
     KbotWalkingTask.run_actor toy_task (actor toy_model)
       (observations_of 0 5) (commands_of [1; 0] [0] [1]) c) /\
  (forall model_carry (rng : nat) argmax,
     KbotWalkingTask.sample_action toy_task toy_model model_carry
       (observations_of 0 0) (commands_of [1; 0] [0] [1]) rng argmax =
     KbotWalkingTask.sample_action toy_task toy_model model_carry
       (observations_of 0 5) (commands_of [1; 0] [0] [1]) rng argmax).
Proof.
  split.
  - change (Some (replicate 4 0) <> Some (replicate 4 5)).
    intros H. injection H as H. lra.
  - apply (actor_ignores_privileged toy_task toy_model
             (observations_of 0 0) (observations_of 0 5)
             (commands_of [1; 0] [0] [1]) (commands_of [1; 0] [0] [1]));
      repeat constructor.
Defined.

Lemma sample_action_keeps_critic_carry_witness :
  exists a,
    KbotWalkingTask.sample_action toy_task toy_model ([[0]], [[7]])
      (observations_of 0 0) (commands_of [1; 0] [0] [1]) 0%nat true
      = inr a /\
    snd (carry a) = [[7]] /\
    exists dist,
      KbotWalkingTask.run_actor toy_task (actor toy_model)
        (observations_of 0 0) (commands_of [1; 0] [0] [1]) [[0]]
        = inr (dist, fst (carry a)).
Proof.
  eexists. split; [reflexivity |].
  apply (sample_action_keeps_critic_carry toy_task toy_model [[0]] [[7]]
           (observations_of 0 0) (commands_of [1; 0] [0] [1]) 0%nat true).
  reflexivity.
Defined.

Lemma phase_in_wrapped_interval_witness :
  (exists pl pr,
     TimestepPhaseObservation.phase TimestepPhaseObservation.default
       (walking_at 3) = inr [pl; pr] /\
     - PI <= pl < PI /\ - PI <= pr < PI) /\
  (exists m,
     FeetPhaseReward.phase FeetPhaseReward.default toy_trajectory = inr m /\
     length m = length (timestep toy_trajectory) /\
     Forall (Forall (fun p => - PI <= p < PI)) m).
Proof.
  split.
  - apply (proj1 phase_in_wrapped_interval TimestepPhaseObservation.default
             (walking_at 3) 1 [1; 0] [0]);
      try reflexivity; try (simpl; lra).
    exact walking_not_standing.
  - apply (proj2 phase_in_wrapped_interval FeetPhaseReward.default
             toy_trajectory [[1]; [1]]);
      try reflexivity.
    + simpl. lra.
    + simpl. repeat constructor; lra.
    + repeat constructor; exists 1; (split; [reflexivity | lra]).
Defined.

(* ------------------------------------------------------------------ *)
(** * Further properties of the code                                    *)
(* ------------------------------------------------------------------ *)

(** ** The phase observation in closed form *)

Lemma cos_sin_turns x (k : Z) :
  cos (x - IZR k * (2 * PI)) = cos x /\ sin (x - IZR k * (2 * PI)) = sin x.
Proof.
  destruct (Z_le_gt_dec 0 k) as [Hk | Hk].
  - rewrite <- (Z2Nat.id k Hk), <- INR_IZR_INZ.
    set (n := Z.to_nat k).
    rewrite <- (cos_period (x - INR n * (2 * PI)) n) at 1.
    rewrite <- (sin_period (x - INR n * (2 * PI)) n) at 1.
    split; f_equal; lra.
  - assert (Hk' : (0 <= - k)%Z) by lia.
    replace (IZR k) with (- IZR (- k)) by (rewrite opp_IZR; lra).
    rewrite <- (Z2Nat.id (- k) Hk'), <- INR_IZR_INZ.
    set (n := Z.to_nat (- k)).
    replace (x - - INR n * (2 * PI)) with (x + 2 * INR n * PI) by lra.
    by rewrite cos_period, sin_period.
Qed.

Lemma cos_wrap p : cos (wrap p) = cos p.
Proof.
  unfold wrap. destruct (fmod_decompose (p + PI) (2 * PI)) as [k ->].
  replace (p + PI - IZR k * (2 * PI) - PI) with (p - IZR k * (2 * PI)) by lra.
  apply cos_sin_turns.
Qed.

Lemma sin_wrap p : sin (wrap p) = sin p.
Proof.
  unfold wrap. destruct (fmod_decompose (p + PI) (2 * PI)) as [k ->].
  replace (p + PI - IZR k * (2 * PI) - PI) with (p - IZR k * (2 * PI)) by lra.
  apply cos_sin_turns.
Qed.

(** X1. While the stand-still override is off, the wrap leaves no trace in
    the observation: with theta = 2*pi*f*t it is
    [cos theta, -cos theta, sin theta, -sin theta], for every elapsed time
    (negative ones included), so each foot's pair lies on the unit circle
    and the two feet are half a cycle apart. *)
Theorem observe_closed_form self state f v a :
  0 < TimestepPhaseObservation.ctrl_dt self ->
  commands state !! "gait_frequency_command" = Some [f] ->
  commands state !! "linear_velocity_command" = Some v ->
  commands state !! "angular_velocity_command" = Some a ->
  ~ norm (v ++ a) < TimestepPhaseObservation.stand_still_threshold self ->
  let theta := 2 * PI * f * time state in
  TimestepPhaseObservation.observe self state =
  inr [cos theta; - cos theta; sin theta; - sin theta].
Proof.
  intros Hdt Hg Hv Ha Hn theta.
  unfold TimestepPhaseObservation.observe.
  rewrite (phase_eq _ _ _ _ _ Hg Hv Ha), bool_decide_eq_false_2 by done.
  rewrite phase_advance by done. fold theta. cbn [bind map app ret].
  rewrite !cos_wrap, !sin_wrap.
  replace (0 + theta) with theta by lra.
  replace (PI + theta) with (theta + PI) by lra.
  by rewrite neg_cos, neg_sin.
Qed.

Lemma observe_closed_form_witness :
  TimestepPhaseObservation.observe TimestepPhaseObservation.default
    (walking_at 3) =
  inr [cos (2 * PI * 1 * 3); - cos (2 * PI * 1 * 3);
       sin (2 * PI * 1 * 3); - sin (2 * PI * 1 * 3)].
Proof.
  apply (observe_closed_form TimestepPhaseObservation.default (walking_at 3)
           1 [1; 0] [0]); try reflexivity.
  - simpl. lra.
  - exact walking_not_standing.
Defined.

(** ** The desired foot height outside and inside the cycle *)

Lemma clip_unit_range x : 0 <= clip x 0 1 <= 1.
Proof.
  unfold clip. split.
  - apply Rmin_glb; [apply Rmax_r | lra].
  - apply Rmin_r.
Qed.

Lemma clip_unit_below x : x <= 0 -> clip x 0 1 = 0.
Proof.
  intros Hx. unfold clip. rewrite Rmax_right by done. apply Rmin_left. lra.
Qed.

Lemma clip_unit_above x : 1 <= x -> clip x 0 1 = 1.
Proof.
  intros Hx. unfold clip. rewrite Rmax_left by lra. by apply Rmin_right.
Qed.

Section GaitPhaseRange.

Variable bezier : R -> R -> R -> R.

Hypothesis bezier_start : forall a b, bezier a b 0 = a.
Hypothesis bezier_end : forall a b, bezier a b 1 = b.

(** X2. The normalized phase is clipped to [0, 1], so for a phase at or
    below -pi and for a phase at or above pi the desired foot height is 0,
    for any interpolant that starts and ends at its endpoints. *)
Theorem gait_phase_zero_outside_cycle phi swing_height :
  phi <= - PI \/ PI <= phi ->
  FeetPhaseReward.gait_phase bezier phi swing_height = 0.
Proof.
  pose proof PI_gt_3 as Hpi. unfold FeetPhaseReward.gait_phase.
  intros [Hlo | Hhi].
  - rewrite clip_unit_below.
    + rewrite bool_decide_eq_true_2 by lra.
      replace (2 * 0) with 0 by lra. apply bezier_start.
    + apply (Rmult_le_reg_r (2 * PI)); [lra |].
      replace ((phi + PI) / (2 * PI) * (2 * PI)) with (phi + PI)
        by (field; lra).
      lra.
  - rewrite clip_unit_above.
    + rewrite bool_decide_eq_false_2 by lra.
      replace (2 * 1 - 1) with 1 by lra. apply bezier_end.
    + apply (Rmult_le_reg_r (2 * PI)); [lra |].
      replace ((phi + PI) / (2 * PI) * (2 * PI)) with (phi + PI)
        by (field; lra).
      lra.
Qed.

(** The interpolant stays between its endpoints on [0, 1]. *)
Hypothesis bezier_between :
  forall a b u, 0 <= u <= 1 -> Rmin a b <= bezier a b u <= Rmax a b.

(** X3. For a non-negative swing height the desired foot height never
    leaves [0, swing_height], whatever the phase is, for any interpolant
    that stays between its endpoints. *)
Theorem gait_phase_within_swing_height phi swing_height :
  0 <= swing_height ->
  0 <= FeetPhaseReward.gait_phase bezier phi swing_height <= swing_height.
Proof.
  intros Hh. unfold FeetPhaseReward.gait_phase.
  pose proof (clip_unit_range ((phi + PI) / (2 * PI))) as [Hx0 Hx1].
  set (x := clip _ 0 1) in *.
  case_bool_decide as Hx.
  - pose proof (bezier_between 0 swing_height (2 * x)) as Hb.
    rewrite Rmin_left, Rmax_right in Hb by done. apply Hb. lra.
  - pose proof (bezier_between swing_height 0 (2 * x - 1)) as Hb.
    rewrite Rmin_right, Rmax_left in Hb by done. apply Hb. lra.
Qed.

End GaitPhaseRange.

Lemma smoothstep_bezier_between a b u :
  0 <= u <= 1 -> Rmin a b <= smoothstep_bezier a b u <= Rmax a b.
Proof.
  intros [Hu0 Hu1]. unfold smoothstep_bezier. cbn zeta.
  set (s := u ^ 3 + 3 * (u ^ 2 * (1 - u))).
  assert (Hs : 0 <= s <= 1).
  { assert (Hlo : 0 <= u * u * (3 - 2 * u))
      by (apply Rmult_le_pos; [apply Rmult_le_pos |]; lra).
    assert (Hhi : 0 <= (1 - u) * (1 - u) * (1 + 2 * u))
      by (apply Rmult_le_pos; [apply Rmult_le_pos |]; lra).
    replace s with (u * u * (3 - 2 * u)) by (unfold s; ring).
    split; [exact Hlo |].
    replace (u * u * (3 - 2 * u)) with (1 - (1 - u) * (1 - u) * (1 + 2 * u))
      by ring.
    lra. }
  destruct (Rle_dec a b) as [Hab | Hab].
  - rewrite Rmin_left, Rmax_right by lra. split; nra.
  - rewrite Rmin_right, Rmax_left by lra. split; nra.
Qed.

Lemma gait_phase_zero_outside_cycle_witness :
  FeetPhaseReward.gait_phase smoothstep_bezier 4 (12 / 100) = 0.
Proof.
  apply (gait_phase_zero_outside_cycle smoothstep_bezier).
  - intros a b. unfold smoothstep_bezier. simpl. lra.
  - intros a b. unfold smoothstep_bezier. simpl. lra.
  - right. pose proof PI_lt_7_2. lra.
Defined.

Lemma gait_phase_within_swing_height_witness :
  0 <= FeetPhaseReward.gait_phase smoothstep_bezier 1 (12 / 100) <= 12 / 100.
Proof.
  apply (gait_phase_within_swing_height smoothstep_bezier).
  - intros a b u Hu. by apply smoothstep_bezier_between.
  - lra.
Defined.

(** ** Elementwise operations and the time axis, continued *)

Lemma zip_with_exact_Forall (P Q S : R -> Prop) f xs ys zs :
  (forall x y, P x -> Q y -> S (f x y)) ->
  Forall P xs -> Forall Q ys ->
  zip_with_exact f xs ys = inr zs -> Forall S zs.
Proof.
  intros Hf Hxs. revert ys zs.
  induction Hxs as [| x xs Hx Hxs IH]; intros ys zs Hys H;
    destruct Hys as [| y ys Hy Hys];
    cbn in H; unfold ret, raise in H; try discriminate H.
  - injection H as <-. constructor.
  - inv_bind H. injection H as <-. constructor; [by apply Hf | by eapply IH].
Qed.

Lemma zip_with_exact_length f xs ys zs :
  zip_with_exact f xs ys = inr zs ->
  length xs = length zs /\ length ys = length zs.
Proof.
  revert ys zs. induction xs as [| x xs IH]; intros [| y ys] zs H;
    cbn in H; unfold ret, raise in H; try discriminate H.
  - by injection H as <-.
  - inv_bind H. injection H as <-. destruct (IH _ _ E). simpl. lia.
Qed.

Lemma zip_with_exact_same_length f xs ys :
  length xs = length ys -> zip_with_exact f xs ys = inr (zip_with f xs ys).
Proof.
  revert ys. induction xs as [| x xs IH]; intros [| y ys] Hl;
    simplify_eq/=; [done |].
  by rewrite IH.
Qed.

Lemma broadcast2_Forall (P Q S : R -> Prop) f xs ys zs :
  (forall x y, P x -> Q y -> S (f x y)) ->
  Forall P xs -> Forall Q ys ->
  broadcast2 f xs ys = inr zs -> Forall S zs.
Proof.
  intros Hf Hxs Hys H.
  assert (Hl : forall x, P x -> Forall S (map (f x) ys)).
  { intros x Hx. apply Forall_fmap.
    eapply Forall_impl; [exact Hys |]. intros y Hy. by apply Hf. }
  assert (Hr : forall y, Q y -> Forall S (map (fun x => f x y) xs)).
  { intros y Hy. apply Forall_fmap.
    eapply Forall_impl; [exact Hxs |]. intros x Hx. by apply Hf. }
  unfold broadcast2 in H.
  destruct xs as [| x [| x' xs]].
  - destruct ys as [| y [| y' ys]]; try (by eapply zip_with_exact_Forall).
    injection H as <-. constructor.
  - apply Forall_cons in Hxs as [Hx _]. unfold ret in H.
    injection H as <-. by apply Hl.
  - destruct ys as [| y [| y' ys]]; try (by eapply zip_with_exact_Forall).
    apply Forall_cons in Hys as [Hy _]. unfold ret in H.
    injection H as <-. by apply Hr.
Qed.

Lemma broadcast2_same_length f xs ys :
  length xs = length ys -> broadcast2 f xs ys = inr (zip_with f xs ys).
Proof.
  intros Hl. unfold broadcast2.
  destruct xs as [| x [| x' xs]]; destruct ys as [| y [| y' ys]];
    simplify_eq/=; try done.
  by rewrite zip_with_exact_same_length.
Qed.

Lemma zipM2_Forall {A B C} (P : A -> Prop) (Q : B -> Prop) (S : C -> Prop)
    (f : A -> B -> result C) xs ys zs :
  (forall x y z, P x -> Q y -> f x y = inr z -> S z) ->
  Forall P xs -> Forall Q ys ->
  zipM2 f xs ys = inr zs -> Forall S zs.
Proof.
  intros Hf Hxs. revert ys zs.
  induction Hxs as [| x xs Hx Hxs IH]; intros ys zs Hys H;
    destruct Hys as [| y ys Hy Hys];
    cbn in H; unfold ret, raise in H; try discriminate H.
  - injection H as <-. constructor.
  - do 2 inv_bind H. injection H as <-.
    constructor; [by eapply Hf | by eapply IH].
Qed.

Lemma zipM2_lookup_inv {A B C} (f : A -> B -> result C) xs ys zs i z :
  zipM2 f xs ys = inr zs -> zs !! i = Some z ->
  exists x y, xs !! i = Some x /\ ys !! i = Some y /\ f x y = inr z.
Proof.
  revert ys zs i. induction xs as [| x' xs IH]; intros [| y' ys] zs i H Hz;
    cbn in H; unfold ret, raise in H; try discriminate H.
  - by injection H as <-.
  - do 2 inv_bind H. injection H as <-.
    destruct i as [| i]; simplify_eq/=; [by eexists _, _ | by eapply IH].
Qed.

Lemma mapM_length {A B} (f : A -> result B) l ys :
  mapM f l = inr ys -> length ys = length l.
Proof.
  revert ys. induction l as [| a l IH]; intros ys H; cbn in H.
  - by injection H as <-.
  - do 2 inv_bind H. injection H as <-. simpl. by rewrite (IH _ eq_refl).
Qed.

Lemma mapM_Forall {A B} (P : A -> Prop) (S : B -> Prop) (f : A -> result B)
    l ys :
  (forall a b, P a -> f a = inr b -> S b) ->
  Forall P l -> mapM f l = inr ys -> Forall S ys.
Proof.
  intros Hf Hl. revert ys.
  induction Hl as [| a l Ha Hl IH]; intros ys H; cbn in H.
  - injection H as <-. constructor.
  - do 2 inv_bind H. injection H as <-.
    constructor; [by eapply Hf | by apply IH].
Qed.

Lemma vsum_nonneg v : Forall (fun x => 0 <= x) v -> 0 <= vsum v.
Proof.
  unfold vsum. induction 1 as [| x v Hx Hv IH]; simpl; lra.
Qed.

Lemma vsum_zeros v : Forall (fun x => x = 0) v -> vsum v = 0.
Proof.
  unfold vsum. induction 1 as [| x v Hx Hv IH]; simpl; lra.
Qed.

Lemma squares_nonneg v : Forall (fun x => 0 <= x) (map (fun a => a * a) v).
Proof. apply Forall_fmap, Forall_true. intros x. simpl. nra. Qed.

Lemma get_norm_nonneg v n : Forall (fun x => 0 <= x) (get_norm v n).
Proof.
  destruct n; simpl; apply Forall_fmap, Forall_true; intros x; simpl.
  - apply Rabs_pos.
  - nra.
Qed.

(** The shaping [exp(-e / s)] of a non-negative error with a positive scale
    lies in (0, 1]. *)
Lemma shaping_range e s : 0 <= e -> 0 < s -> 0 < exp (- e / s) <= 1.
Proof.
  intros He Hs. split; [apply exp_pos |].
  rewrite <- exp_0.
  destruct (Req_dec e 0) as [-> | Hne].
  - right. f_equal. unfold Rdiv. rewrite Ropp_0. apply Rmult_0_l.
  - left. apply exp_increasing.
    assert (0 < e / s)
      by (apply Rmult_lt_0_compat; [lra | by apply Rinv_0_lt_compat]).
    unfold Rdiv in *. lra.
Qed.

Lemma shaping_zero_error s : exp (- 0 / s) = 1.
Proof.
  unfold Rdiv. rewrite Ropp_0, Rmult_0_l. apply exp_0.
Qed.

Lemma gated_range r (b : bool) : 0 < r <= 1 -> 0 <= r * b2r b <= 1.
Proof. intros Hr. destruct b; simpl; lra. Qed.

Lemma shaped_map_range (es : Vec) s :
  0 < s -> Forall (fun e => 0 <= e) es ->
  Forall (fun r => 0 < r <= 1) (map (fun e => exp (- e / s)) es).
Proof.
  intros Hs He. apply Forall_fmap. eapply Forall_impl; [exact He |].
  intros e He0. simpl. by apply shaping_range.
Qed.

(** ** Ranges of the shaped rewards *)

Ltac inv_bind_beta H := cbv beta in H; inv_bind H.

Ltac inv_bind_as H E x :=
  cbv beta in H;
  match type of H with
  | bind ?m _ = inr _ =>
      destruct m as [| x] eqn:E; cbn [bind] in H; [discriminate H |]
  end.

Lemma gated_rewards_range (gate : R -> bool) reward ns r :
  Forall (fun x => 0 < x <= 1) reward ->
  zipM2 (fun e m => ret (e * b2r (gate m))) reward ns = inr r ->
  Forall (fun x => 0 <= x <= 1) r.
Proof.
  intros Hr Hz.
  eapply (zipM2_Forall (fun x => 0 < x <= 1) (fun _ => True)
            (fun x => 0 <= x <= 1)); [| exact Hr | apply Forall_true; done | exact Hz].
  intros x y z Hx _ Hf. injection Hf as <-. by apply gated_range.
Qed.

Lemma squared_error_rows_nonneg (xs ys : Mat) es :
  zipM2 (fun z i => d <- broadcast2 Rminus z i ;
                    ret (vsum (map (fun a => a * a) d))) xs ys = inr es ->
  Forall (fun e => 0 <= e) es.
Proof.
  intros H.
  eapply (zipM2_Forall (fun _ => True) (fun _ => True));
    [| apply Forall_true; done | apply Forall_true; done | exact H].
  intros x y z _ _ Hf. inv_bind_beta Hf. injection Hf as <-.
  apply vsum_nonneg, squares_nonneg.
Qed.

(** X4. Whenever FeetPhaseReward.get_reward returns, with a positive
    sensitivity, it returns one reward per time step of the trajectory and
    every reward lies in [0, 1]. *)
Theorem feet_phase_reward_range bezier self trajectory r :
  0 < FeetPhaseReward.sensitivity self ->
  FeetPhaseReward.get_reward bezier self trajectory = inr r ->
  length r = length (timestep trajectory) /\
  Forall (fun x => 0 <= x <= 1) r.
Proof.
  intros Hs H. unfold FeetPhaseReward.get_reward in H.
  destruct (negb (contains (obs trajectory) _)); [done |].
  destruct (negb (contains (command trajectory) _)); [done |].
  do 7 inv_bind H.
  pose proof (squared_error_rows_nonneg _ _ _ E2) as He.
  split.
  - destruct (zipM2_length _ _ _ _ H) as [<- _].
    destruct (zipM2_length _ _ _ _ E2) as [_ Hl].
    rewrite length_map, <- Hl, length_map.
    unfold FeetPhaseReward.phase in E. inv_bind E.
    by destruct (zipM2_length _ _ _ _ E) as [-> _].
  - eapply (gated_rewards_range
              (fun n => bool_decide (n > FeetPhaseReward.stand_still_threshold self)));
      [| exact H].
    by apply shaped_map_range.
Qed.

Lemma feet_phase_reward_range_witness :
  exists r,
    FeetPhaseReward.get_reward smoothstep_bezier FeetPhaseReward.default
      toy_trajectory = inr r /\
    length r = length (timestep toy_trajectory) /\
    Forall (fun x => 0 <= x <= 1) r.
Proof.
  eexists. split; [reflexivity |].
  apply (feet_phase_reward_range smoothstep_bezier FeetPhaseReward.default
           toy_trajectory); [simpl; lra | reflexivity].
Defined.

(** X5. Whenever LinearVelocityTrackingReward.get_reward returns, with a
    positive error scale, it returns one reward per row of the command and
    every reward lies in [0, 1], for either norm. *)
Theorem linear_velocity_reward_range self trajectory cmd r :
  0 < LinearVelocityTrackingReward.error_scale self ->
  command trajectory !! LinearVelocityTrackingReward.command_name self
    = Some cmd ->
  LinearVelocityTrackingReward.get_reward self trajectory = inr r ->
  length r = length cmd /\ Forall (fun x => 0 <= x <= 1) r.
Proof.
  intros Hs Hc H. unfold LinearVelocityTrackingReward.get_reward in H.
  destruct (negb (contains (obs trajectory) _)); [done |].
  rewrite (getitem_Some _ _ _ Hc) in H. cbn [bind] in H.
  do 2 inv_bind H.
  assert (He : Forall (fun e => 0 <= e) l0).
  { eapply (zipM2_Forall (fun _ => True) (fun _ => True));
      [| apply Forall_true; done | apply Forall_true; done | exact E0].
    intros x y z _ _ Hf. inv_bind_beta Hf. injection Hf as <-.
    apply vsum_nonneg, get_norm_nonneg. }
  split.
  - destruct (zipM2_length _ _ _ _ H) as [_ <-]. by rewrite length_map.
  - eapply (gated_rewards_range
              (fun n => bool_decide
                 (n > LinearVelocityTrackingReward.stand_still_threshold self)));
      [| exact H].
    by apply shaped_map_range.
Qed.

Lemma linear_velocity_reward_range_witness :
  exists r,
    LinearVelocityTrackingReward.get_reward
      LinearVelocityTrackingReward.default tracking_trajectory = inr r /\
    length r = length [[5 / 10; 0]] /\ Forall (fun x => 0 <= x <= 1) r.
Proof.
  eexists. split; [reflexivity |].
  apply (linear_velocity_reward_range LinearVelocityTrackingReward.default
           tracking_trajectory [[5 / 10; 0]]);
    [simpl; lra | reflexivity | reflexivity].
Defined.

Lemma difference_with_itself c :
  exists d, broadcast2 Rminus c c = inr d /\ Forall (fun x => x = 0) d.
Proof.
  exists (zip_with Rminus c c). split; [by apply broadcast2_same_length |].
  induction c as [| x c IH]; simpl; constructor; [lra | done].
Qed.

Lemma get_norm_zeros d n :
  Forall (fun x => x = 0) d -> Forall (fun x => x = 0) (get_norm d n).
Proof.
  intros Hd. destruct n; simpl; apply Forall_fmap;
    (eapply Forall_impl; [exact Hd |]); intros x ->; simpl.
  - apply Rabs_R0.
  - lra.
Qed.

Lemma squares_zeros d :
  Forall (fun x => x = 0) d -> Forall (fun x => x = 0) (map (fun a => a * a) d).
Proof.
  intros Hd. apply Forall_fmap.
  eapply Forall_impl; [exact Hd |]. intros x ->. simpl. lra.
Qed.

(** X6. Exact tracking earns the full reward: at a time step where the first
    two components of the observed base velocity equal the commanded linear
    velocity and the norm of the command exceeds the stand-still threshold,
    LinearVelocityTrackingReward.get_reward returns exactly 1 for that
    step. *)
Theorem linear_velocity_reward_exact self trajectory cmd vel r i c o :
  command trajectory !! LinearVelocityTrackingReward.command_name self
    = Some cmd ->
  obs trajectory !! LinearVelocityTrackingReward.linvel_obs_name self
    = Some vel ->
  cmd !! i = Some c -> vel !! i = Some o ->
  take 2 o = c ->
  norm c > LinearVelocityTrackingReward.stand_still_threshold self ->
  LinearVelocityTrackingReward.get_reward self trajectory = inr r ->
  r !! i = Some 1.
Proof.
  intros Hc Ho Hci Hoi Heq Hn H.
  unfold LinearVelocityTrackingReward.get_reward in H.
  destruct (negb (contains (obs trajectory) _)); [done |].
  rewrite (getitem_Some _ _ _ Hc), (getitem_Some _ _ _ Ho) in H.
  cbn [bind] in H. inv_bind H.
  destruct (zipM2_lookup _ _ _ _ _ _ _ E Hci Hoi) as (e & He & Hf).
  rewrite Heq in Hf.
  destruct (difference_with_itself c) as (d & Hd & Hd0).
  rewrite Hd in Hf. cbn [bind] in Hf. injection Hf as <-.
  rewrite (vsum_zeros _ (get_norm_zeros _ _ Hd0)) in He.
  assert (Hr : map (fun e => exp (- e / LinearVelocityTrackingReward.error_scale self)) l
               !! i = Some (exp (- 0 / LinearVelocityTrackingReward.error_scale self)))
    by (by rewrite list_lookup_fmap, He).
  assert (Hm : map norm cmd !! i = Some (norm c))
    by (by rewrite list_lookup_fmap, Hci).
  destruct (zipM2_lookup _ _ _ _ _ _ _ H Hr Hm) as (z & -> & Hz).
  injection Hz as <-. f_equal.
  rewrite shaping_zero_error, bool_decide_eq_true_2 by done. simpl. lra.
Qed.

Lemma norm_half_forward_positive : norm [5 / 10; 0] > 0.
Proof.
  unfold norm, vsum. simpl. apply Rlt_gt, sqrt_lt_R0. lra.
Qed.

Lemma linear_velocity_reward_exact_witness :
  exists r,
    LinearVelocityTrackingReward.get_reward
      LinearVelocityTrackingReward.default tracking_trajectory = inr r /\
    r !! 0%nat = Some 1.
Proof.
  eexists. split; [reflexivity |].
  eapply (linear_velocity_reward_exact LinearVelocityTrackingReward.default
            tracking_trajectory _ _ _ 0%nat [5 / 10; 0] [5 / 10; 0; 0]);
    try reflexivity.
  exact norm_half_forward_positive.
Defined.

(** X7. Whenever StandStillReward.get_reward returns, with a positive
    sensitivity, it returns one reward per row of qpos and every reward lies
    in [0, 1]. *)
Theorem stand_still_reward_range self trajectory r :
  0 < StandStillReward.sensitivity self ->
  StandStillReward.get_reward self trajectory = inr r ->
  length r = length (qpos trajectory) /\ Forall (fun x => 0 <= x <= 1) r.
Proof.
  intros Hs H. unfold StandStillReward.get_reward in H.
  inv_bind_as H Evel vel. inv_bind_as H Eang ang.
  inv_bind_as H Enorm ns. inv_bind_as H Eerr es.
  assert (He : Forall (fun e => 0 <= e) es).
  { eapply (mapM_Forall (fun _ => True));
      [| apply Forall_true; done | exact Eerr].
    intros q e _ Hf. inv_bind_beta Hf. injection Hf as <-.
    apply vsum_nonneg, squares_nonneg. }
  split.
  - destruct (zipM2_length _ _ _ _ H) as [<- _].
    by rewrite length_map, (mapM_length _ _ _ Eerr).
  - eapply (gated_rewards_range
              (fun n => bool_decide
                 (n < StandStillReward.stand_still_threshold self)));
      [| exact H].
    by apply shaped_map_range.
Qed.

Lemma stand_still_reward_range_witness :
  exists r,
    StandStillReward.get_reward (StandStillReward.default (map snd ZEROS))
      toy_trajectory = inr r /\
    length r = length (qpos toy_trajectory) /\
    Forall (fun x => 0 <= x <= 1) r.
Proof.
  eexists. split; [reflexivity |].
  apply (stand_still_reward_range (StandStillReward.default (map snd ZEROS))
           toy_trajectory); [simpl; lra | reflexivity].
Defined.

(** X8. Standing at the targets earns the full reward: at a time step where
    the joint positions qpos[7:] equal joint_targets and the norm of the
    concatenated commands is below the stand-still threshold,
    StandStillReward.get_reward returns exactly 1 for that step. *)
Theorem stand_still_reward_at_targets self trajectory vel ang r i v a q :
  command trajectory !! StandStillReward.linear_velocity_cmd_name self
    = Some vel ->
  command trajectory !! StandStillReward.angular_velocity_cmd_name self
    = Some ang ->
  vel !! i = Some v -> ang !! i = Some a ->
  qpos trajectory !! i = Some q ->
  drop 7 q = StandStillReward.joint_targets self ->
  norm (v ++ a) < StandStillReward.stand_still_threshold self ->
  StandStillReward.get_reward self trajectory = inr r ->
  r !! i = Some 1.
Proof.
  intros Hvel Hang Hv Ha Hq Heq Hn H.
  unfold StandStillReward.get_reward in H.
  rewrite (getitem_Some _ _ _ Hvel), (getitem_Some _ _ _ Hang) in H.
  cbn [bind] in H. inv_bind_as H Enorm ns. inv_bind_as H Eerr es.
  pose proof (command_norm_lookup _ _ _ _ _ _ Enorm Hv Ha) as Hni.
  destruct (mapM_lookup _ _ _ _ _ Eerr Hq) as (e & He & Hf).
  cbv beta in Hf. rewrite Heq in Hf.
  destruct (difference_with_itself (StandStillReward.joint_targets self))
    as (d & Hd & Hd0).
  rewrite Hd in Hf. cbn [bind] in Hf. injection Hf as <-.
  rewrite (vsum_zeros _ (squares_zeros _ Hd0)) in He.
  assert (Hr : map (fun e => exp (- e / StandStillReward.sensitivity self)) es
               !! i = Some (exp (- 0 / StandStillReward.sensitivity self)))
    by (by rewrite list_lookup_fmap, He).
  destruct (zipM2_lookup _ _ _ _ _ _ _ H Hr Hni) as (z & -> & Hz).
  injection Hz as <-. f_equal.
  rewrite shaping_zero_error, bool_decide_eq_true_2 by done. simpl. lra.
Qed.

Lemma stand_still_reward_at_targets_witness :
  exists r,
    StandStillReward.get_reward standing_reward tracking_trajectory = inr r /\
    r !! 0%nat = Some 1.
Proof.
  eexists. split; [reflexivity |].
  eapply (stand_still_reward_at_targets standing_reward tracking_trajectory
            _ _ _ 0%nat [5 / 10; 0] [1 / 10]);
    try reflexivity.
  unfold norm, vsum. simpl.
  apply Rlt_le_trans with (sqrt 1); [apply sqrt_lt_1; lra |].
  rewrite sqrt_1. lra.
Defined.

(** X9. Whenever AngularVelocityTrackingReward.get_reward returns, with a
    positive error scale, every reward it returns lies in [0, 1]. *)
Theorem angular_velocity_reward_range self trajectory r :
  0 < AngularVelocityTrackingReward.error_scale self ->
  AngularVelocityTrackingReward.get_reward self trajectory = inr r ->
  Forall (fun x => 0 <= x <= 1) r.
Proof.
  intros Hs H. unfold AngularVelocityTrackingReward.get_reward in H.
  destruct (negb (contains (obs trajectory) _)); [done |].
  inv_bind_as H Ec cmd. inv_bind_as H Eo angvel.
  inv_bind_as H Ey yaw. inv_bind_as H Ed d.
  eapply (broadcast2_Forall (fun x => 0 < x <= 1) (fun m => m = 0 \/ m = 1));
    [| | | exact H].
  - intros x m Hx [-> | ->]; lra.
  - apply shaped_map_range; [done | apply squares_nonneg].
  - apply Forall_fmap, Forall_true. intros n. simpl.
    destruct (bool_decide _); simpl; auto.
Qed.

Lemma angular_velocity_reward_range_witness :
  exists r,
    AngularVelocityTrackingReward.get_reward
      AngularVelocityTrackingReward.default tracking_trajectory = inr r /\
    Forall (fun x => 0 <= x <= 1) r.
Proof.
  eexists. split; [reflexivity |].
  apply (angular_velocity_reward_range AngularVelocityTrackingReward.default
           tracking_trajectory); [simpl; lra | reflexivity].
Defined.

(** ** The two families of gates are exclusive *)

(** X10. With the same command keys and the same threshold, the gait reward
    and the stand-still reward are never both non-zero at one time step: the
    first is gated by command_norm > threshold, the second by cmd_norm <
    threshold. *)
Theorem gait_and_stand_still_exclusive bezier fp ss trajectory rf rs i x y :
  FeetPhaseReward.linear_velocity_cmd_name fp
    = StandStillReward.linear_velocity_cmd_name ss ->
  FeetPhaseReward.angular_velocity_cmd_name fp
    = StandStillReward.angular_velocity_cmd_name ss ->
  FeetPhaseReward.stand_still_threshold fp
    = StandStillReward.stand_still_threshold ss ->
  FeetPhaseReward.get_reward bezier fp trajectory = inr rf ->
  StandStillReward.get_reward ss trajectory = inr rs ->
  rf !! i = Some x -> rs !! i = Some y ->
  x = 0 \/ y = 0.
Proof.
  intros Hlin Hang Hthr Hf Hs Hx Hy.
  unfold FeetPhaseReward.get_reward in Hf.
  destruct (negb (contains (obs trajectory) _)); [done |].
  destruct (negb (contains (command trajectory) _)); [done |].
  inv_bind_as Hf Ep ph. inv_bind_as Hf Efp fpos. inv_bind_as Hf Efz fz.
  inv_bind_as Hf Ee es. inv_bind_as Hf Ev vel. inv_bind_as Hf Ea ang.
  inv_bind_as Hf En ns.
  unfold StandStillReward.get_reward in Hs.
  rewrite <- Hlin, <- Hang, Ev, Ea in Hs. cbn [bind] in Hs.
  rewrite En in Hs. cbn [bind] in Hs. inv_bind_as Hs Ee' es'.
  destruct (zipM2_lookup_inv _ _ _ _ _ _ Hf Hx) as (e & n & _ & Hn & Hfx).
  destruct (zipM2_lookup_inv _ _ _ _ _ _ Hs Hy) as (e' & n' & _ & Hn' & Hfy).
  rewrite Hn in Hn'. injection Hn' as <-.
  injection Hfx as <-. injection Hfy as <-. rewrite Hthr.
  destruct (Rlt_dec n (StandStillReward.stand_still_threshold ss)) as [Hlt | Hge].
  - left. rewrite bool_decide_eq_false_2 by lra. simpl. lra.
  - right. rewrite (bool_decide_eq_false_2 (n < _)) by done. simpl. lra.
Qed.

Lemma gait_and_stand_still_exclusive_witness :
  exists rf rs x y,
    FeetPhaseReward.get_reward smoothstep_bezier FeetPhaseReward.default
      toy_trajectory = inr rf /\
    StandStillReward.get_reward (StandStillReward.default (map snd ZEROS))
      toy_trajectory = inr rs /\
    rf !! 1%nat = Some x /\ rs !! 1%nat = Some y /\ (x = 0 \/ y = 0).
Proof.
  eexists _, _, _, _.
  split; [reflexivity |]. split; [reflexivity |].
  split; [reflexivity |]. split; [reflexivity |].
  eapply (gait_and_stand_still_exclusive smoothstep_bezier
            FeetPhaseReward.default
            (StandStillReward.default (map snd ZEROS)) toy_trajectory
            _ _ 1%nat);
    reflexivity.
Defined.

(** ** Penalties *)

(** X11. Whenever FeetSlipPenalty.get_reward returns, the penalty of every
    time step is non-negative if the contact flags are non-negative, and is
    exactly 0 at every step if no foot is in contact (all flags 0). *)
Theorem feet_slip_penalty_sign self trajectory contact r :
  obs trajectory !! FeetSlipPenalty.feet_contact_obs_name self = Some contact ->
  FeetSlipPenalty.get_reward self trajectory = inr r ->
  (Forall (Forall (fun c => 0 <= c)) contact -> Forall (fun x => 0 <= x) r) /\
  (Forall (Forall (fun c => c = 0)) contact -> Forall (fun x => x = 0) r).
Proof.
  intros Hc H. unfold FeetSlipPenalty.get_reward in H.
  destruct (negb (contains (obs trajectory) _)); [done |].
  rewrite (getitem_Some _ _ _ Hc) in H. cbn [bind] in H.
  inv_bind_as H Ev com_vel.
  assert (Hn : Forall (fun n => 0 <= n) (map norm (map (take 2) com_vel))).
  { apply Forall_fmap, Forall_true. intros v. apply norm_nonneg. }
  split; intros Hcontact.
  - eapply (zipM2_Forall (fun n => 0 <= n) (Forall (fun c => 0 <= c)));
      [| exact Hn | exact Hcontact | exact H].
    intros n c z Hn0 Hc0 Hz. injection Hz as <-.
    apply vsum_nonneg, Forall_fmap.
    eapply Forall_impl; [exact Hc0 |]. intros a Ha. simpl.
    by apply Rmult_le_pos.
  - eapply (zipM2_Forall (fun n => 0 <= n) (Forall (fun c => c = 0)));
      [| exact Hn | exact Hcontact | exact H].
    intros n c z Hn0 Hc0 Hz. injection Hz as <-.
    apply vsum_zeros, Forall_fmap.
    eapply Forall_impl; [exact Hc0 |]. intros a ->. simpl. lra.
Qed.

Lemma feet_slip_penalty_sign_witness :
  exists r,
    FeetSlipPenalty.get_reward FeetSlipPenalty.default tracking_trajectory
      = inr r /\
    (Forall (Forall (fun c => 0 <= c)) [[1; 0; 1; 0]] ->
     Forall (fun x => 0 <= x) r) /\
    (Forall (Forall (fun c => c = 0)) [[1; 0; 1; 0]] ->
     Forall (fun x => x = 0) r).
Proof.
  eexists. split; [reflexivity |].
  apply (feet_slip_penalty_sign FeetSlipPenalty.default tracking_trajectory
           [[1; 0; 1; 0]]); reflexivity.
Defined.

Lemma find_first_missing (p : string -> bool) pre name post :
  Forall (fun n => p n = false) pre -> p name = true ->
  List.find p (pre ++ name :: post) = Some name.
Proof.
  intros Hpre Hname. induction Hpre as [| n pre Hn Hpre IH]; simpl.
  - by rewrite Hname.
  - by rewrite Hn.
Qed.

Lemma contains_true {V} (d : gmap string V) key :
  is_Some (d !! key) -> contains d key = true.
Proof. intros H. unfold contains. by apply bool_decide_eq_true_2. Qed.

Lemma contains_false {V} (d : gmap string V) key :
  d !! key = None -> contains d key = false.
Proof.
  intros H. unfold contains. apply bool_decide_eq_false_2.
  rewrite H. by intros [? ?].
Qed.

(** X12. ContactForcePenalty.get_reward checks its sensors in the order of
    sensor_names: when the sensors before one are all observed and that one
    is not, it raises the ValueError naming that sensor, whatever follows it
    in the list. *)
Theorem contact_force_first_missing self trajectory pre name post :
  ContactForcePenalty.sensor_names self = pre ++ name :: post ->
  Forall (fun n => is_Some (obs trajectory !! n)) pre ->
  obs trajectory !! name = None ->
  ContactForcePenalty.get_reward self trajectory =
  inl (ValueError (name +:+ " not found in trajectory.obs")).
Proof.
  intros Hnames Hpre Hname.
  unfold ContactForcePenalty.get_reward, ContactForcePenalty.first_missing.
  rewrite Hnames.
  rewrite (find_first_missing _ pre name post); [done | |].
  - eapply Forall_impl; [exact Hpre |]. intros n Hn. simpl.
    by rewrite contains_true.
  - simpl. by rewrite contains_false.
Qed.

Lemma contact_force_first_missing_witness :
  ContactForcePenalty.get_reward foot_force_penalty trajectory_without_command
  = inl (ValueError ("sensor_observation_left_foot_force"
                       +:+ " not found in trajectory.obs")).
Proof.
  apply (contact_force_first_missing foot_force_penalty
           trajectory_without_command []
           "sensor_observation_left_foot_force"
           ["sensor_observation_right_foot_force"]).
  - reflexivity.
  - constructor.
  - reflexivity.
Defined.

Lemma Forall_zip_with_closed (P : R -> Prop) (f : R -> R -> R) xs ys :
  (forall x y, P x -> P y -> P (f x y)) ->
  Forall P xs -> Forall P ys -> Forall P (zip_with f xs ys).
Proof.
  intros Hf Hxs. revert ys.
  induction Hxs as [| x xs Hx Hxs IH]; intros ys Hys; [constructor |].
  destruct Hys as [| y ys Hy Hys]; [constructor |].
  simpl. constructor; [by apply Hf | by apply IH].
Qed.

Lemma sum_over_sensors_Forall (P : R -> Prop) n costs :
  P 0 -> (forall x y, P x -> P y -> P (x + y)) ->
  Forall (Forall P) costs ->
  Forall P (ContactForcePenalty.sum_over_sensors n costs).
Proof.
  intros H0 Hadd Hc. unfold ContactForcePenalty.sum_over_sensors.
  induction Hc as [| c costs Hc Hcs IH]; simpl.
  - by apply Forall_replicate.
  - by apply Forall_zip_with_closed.
Qed.

Lemma getitem_inv {V} (d : gmap string V) key v :
  getitem d key = inr v -> d !! key = Some v.
Proof.
  unfold getitem. destruct (d !! key); intros H; [| discriminate H].
  by injection H as ->.
Qed.

(** X13. Whenever ContactForcePenalty.get_reward returns, the cost of every
    time step is non-negative, and it is exactly 0 at every step when the
    vertical force of every listed sensor, the component that index 2 of
    each of its rows reads, stays within max_contact_force. *)
Theorem contact_force_penalty_sign self trajectory r :
  ContactForcePenalty.get_reward self trajectory = inr r ->
  Forall (fun x => 0 <= x) r /\
  ((forall name m,
      name ∈ ContactForcePenalty.sensor_names self ->
      obs trajectory !! name = Some m ->
      Forall (fun row => forall z, item row 2 = inr z ->
                Rabs z <= ContactForcePenalty.max_contact_force self) m) ->
   Forall (fun x => x = 0) r).
Proof.
  intros H. unfold ContactForcePenalty.get_reward in H.
  destruct (ContactForcePenalty.first_missing self trajectory);
    [discriminate H |].
  inv_bind_as H Ea arrays.
  destruct arrays as [| a arrays]; [discriminate H |].
  destruct (ContactForcePenalty.same_shape (a :: arrays)); [| discriminate H].
  inv_bind_as H Ez fz. injection H as <-. split.
  - apply sum_over_sensors_Forall; [lra | intros; lra |].
    apply Forall_fmap, Forall_true. intros v.
    apply Forall_fmap, Forall_true. intros f. simpl. apply Rmax_r.
  - intros Hlim.
    set (within := fun row : Vec => forall z, item row 2 = inr z ->
                     Rabs z <= ContactForcePenalty.max_contact_force self).
    set (no_excess := fun f =>
           Rmax (Rabs f - ContactForcePenalty.max_contact_force self) 0 = 0).
    assert (Harr : Forall (Forall within) (a :: arrays)).
    { eapply (mapM_Forall (fun n => n ∈ ContactForcePenalty.sensor_names self));
        [| | exact Ea].
      - intros n m Hn Hg. apply (Hlim n m Hn). by apply getitem_inv.
      - by apply Forall_forall. }
    assert (Hfz : Forall (Forall no_excess) fz).
    { eapply (mapM_Forall (Forall within)); [| exact Harr | exact Ez].
      intros m v Hm Hv.
      eapply (mapM_Forall within); [| exact Hm | exact Hv].
      intros row z Hrow Hz.
      unfold no_excess. apply Rmax_right. specialize (Hrow _ Hz). lra. }
    apply sum_over_sensors_Forall; [done | intros x y -> ->; lra |].
    apply Forall_fmap. eapply Forall_impl; [exact Hfz |].
    intros v Hv. simpl. apply Forall_fmap.
    eapply Forall_impl; [exact Hv |]. intros f Hf. exact Hf.
Qed.

Lemma contact_force_penalty_sign_witness :
  exists r,
    ContactForcePenalty.get_reward foot_force_penalty tracking_trajectory
      = inr r /\
    Forall (fun x => 0 <= x) r /\
    ((forall name m,
        name ∈ ContactForcePenalty.sensor_names foot_force_penalty ->
        obs tracking_trajectory !! name = Some m ->
        Forall (fun row => forall z, item row 2 = inr z ->
                  Rabs z <=
                  ContactForcePenalty.max_contact_force foot_force_penalty) m) ->
     Forall (fun x => x = 0) r).
Proof.
  eexists. split; [reflexivity |].
  apply (contact_force_penalty_sign foot_force_penalty tracking_trajectory).
  reflexivity.
Defined.

(** The excess of the joints [qs] over the limits, as lines 429-431 sum
    it. *)
Lemma penalty_row_same_length self q :
  length (drop 7 q) = length (JointPositionLimitPenalty.lower_limits self) ->
  length (JointPositionLimitPenalty.lower_limits self)
    = length (JointPositionLimitPenalty.upper_limits self) ->
  JointPositionLimitPenalty.penalty_row self q =
  inr (vsum (zip_with Rplus
               (map (fun d => - Rmin d 0)
                  (zip_with Rminus (drop 7 q)
                     (JointPositionLimitPenalty.lower_limits self)))
               (map (fun d => Rmax d 0)
                  (zip_with Rminus (drop 7 q)
                     (JointPositionLimitPenalty.upper_limits self))))).
Proof.
  intros Hl Hu. unfold JointPositionLimitPenalty.penalty_row.
  rewrite broadcast2_same_length by done. cbn [bind].
  rewrite broadcast2_same_length by congruence. cbn [bind].
  rewrite broadcast2_same_length; [done |].
  rewrite !length_map, !length_zip_with. lia.
Qed.

Lemma excess_head q l h :
  0 <= - Rmin (q - l) 0 + Rmax (q - h) 0 /\
  (- Rmin (q - l) 0 + Rmax (q - h) 0 = 0 <-> l <= q <= h).
Proof.
  unfold Rmin, Rmax.
  destruct (Rle_dec (q - l) 0), (Rle_dec (q - h) 0); split; try split;
    intros; lra.
Qed.

Lemma excess_sum qs lo hi :
  length qs = length lo -> length lo = length hi ->
  let p := vsum (zip_with Rplus
                   (map (fun d => - Rmin d 0) (zip_with Rminus qs lo))
                   (map (fun d => Rmax d 0) (zip_with Rminus qs hi))) in
  0 <= p /\ (p = 0 <-> Forall3 (fun q l h => l <= q <= h) qs lo hi).
Proof.
  revert lo hi. induction qs as [| q qs IH]; intros [| l lo] [| h hi] Hl Hh;
    simplify_eq/=.
  - split; [lra |]. split; [constructor | done].
  - destruct (IH lo hi) as [Hp Hiff]; [done | done |].
    destruct (excess_head q l h) as [He Heiff].
    unfold vsum in *. simpl. split; [lra |]. split.
    + intros Hz. constructor; [apply Heiff; lra | apply Hiff; lra].
    + intros HF. inversion HF as [| ? ? ? ? ? ? Hq HF']; subst.
      apply Heiff in Hq. apply Hiff in HF'. lra.
Qed.

(** X14. With one soft limit pair per joint, JointPositionLimitPenalty's
    penalty for a posture is never negative, and it is 0 exactly when every
    joint position qpos[7:] lies within its soft limits. *)
Theorem joint_limit_penalty_zero_iff self q :
  length (drop 7 q) = length (JointPositionLimitPenalty.lower_limits self) ->
  length (JointPositionLimitPenalty.lower_limits self)
    = length (JointPositionLimitPenalty.upper_limits self) ->
  exists p,
    JointPositionLimitPenalty.penalty_row self q = inr p /\
    0 <= p /\
    (p = 0 <->
     Forall3 (fun q l h => l <= q <= h) (drop 7 q)
       (JointPositionLimitPenalty.lower_limits self)
       (JointPositionLimitPenalty.upper_limits self)).
Proof.
  intros Hl Hu. eexists. split; [by apply penalty_row_same_length |].
  by apply excess_sum.
Qed.

Lemma joint_limit_penalty_zero_iff_witness :
  exists p,
    JointPositionLimitPenalty.penalty_row two_joint_limits
      (replicate 7 0 ++ [1; 0]) = inr p /\
    0 <= p /\
    (p = 0 <->
     Forall3 (fun q l h => l <= q <= h) (drop 7 (replicate 7 0 ++ [1; 0]))
       (JointPositionLimitPenalty.lower_limits two_joint_limits)
       (JointPositionLimitPenalty.upper_limits two_joint_limits)).
Proof.
  apply (joint_limit_penalty_zero_iff two_joint_limits
           (replicate 7 0 ++ [1; 0])); reflexivity.
Defined.

Lemma excess_single qs lo hi j l h delta :
  Forall3 (fun q l h => l <= q <= h) qs lo hi ->
  lo !! j = Some l -> hi !! j = Some h -> l <= h -> 0 <= delta ->
  vsum (zip_with Rplus
          (map (fun d => - Rmin d 0)
             (zip_with Rminus (<[j := h + delta]> qs) lo))
          (map (fun d => Rmax d 0)
             (zip_with Rminus (<[j := h + delta]> qs) hi))) = delta.
Proof.
  intros HF. revert j.
  induction HF as [| q l' h' qs lo hi Hq HF IH]; intros j Hl Hh Hlh Hd;
    [done |].
  destruct j as [| j]; simplify_eq/=.
  - destruct (excess_sum qs lo hi) as [_ Hiff];
      [by eapply Forall3_length_lm
      | rewrite <- (Forall3_length_lm _ _ _ _ HF); by eapply Forall3_length_lr |].
    apply Hiff in HF. unfold vsum in *. simpl. rewrite HF.
    destruct (excess_head (h + delta) l h) as [_ _].
    unfold Rmin, Rmax.
    destruct (Rle_dec (h + delta - l) 0), (Rle_dec (h + delta - h) 0); lra.
  - specialize (IH j Hl Hh Hlh Hd). unfold vsum in *. simpl. rewrite IH.
    destruct (excess_head q l' h') as [_ Hz]. apply Hz in Hq. lra.
Qed.

(** X15. The penalty is linear beyond the deadband: when every joint is
    within its soft limits except one that sits delta >= 0 above its upper
    soft limit, the penalty of the posture is exactly delta (0 for a joint
    exactly at the limit). *)
Theorem joint_limit_penalty_linear self q qs j l h delta :
  drop 7 q = <[j := h + delta]> qs ->
  Forall3 (fun q l h => l <= q <= h) qs
    (JointPositionLimitPenalty.lower_limits self)
    (JointPositionLimitPenalty.upper_limits self) ->
  JointPositionLimitPenalty.lower_limits self !! j = Some l ->
  JointPositionLimitPenalty.upper_limits self !! j = Some h ->
  l <= h -> 0 <= delta ->
  JointPositionLimitPenalty.penalty_row self q = inr delta.
Proof.
  intros Hq HF Hl Hh Hlh Hd.
  pose proof (Forall3_length_lm _ _ _ _ HF) as Hlen1.
  pose proof (Forall3_length_lr _ _ _ _ HF) as Hlen2.
  rewrite penalty_row_same_length.
  - rewrite Hq. f_equal. by eapply excess_single.
  - by rewrite Hq, length_insert.
  - congruence.
Qed.

Lemma two_joint_limits_within :
  Forall3 (fun q l h => l <= q <= h) [0; 0]
    (JointPositionLimitPenalty.lower_limits two_joint_limits)
    (JointPositionLimitPenalty.upper_limits two_joint_limits).
Proof.
  unfold two_joint_limits, JointPositionLimitPenalty.create. simpl.
  repeat constructor; lra.
Qed.

Lemma joint_limit_penalty_linear_witness :
  JointPositionLimitPenalty.penalty_row two_joint_limits
    (replicate 7 0 ++
     [(-1 + 1) / 2 + 5 / 10 * (1 - -1) * (95 / 100) + 1; 0]) = inr 1.
Proof.
  apply (joint_limit_penalty_linear two_joint_limits _ [0; 0] 0%nat
           ((-1 + 1) / 2 - 5 / 10 * (1 - -1) * (95 / 100))
           ((-1 + 1) / 2 + 5 / 10 * (1 - -1) * (95 / 100)) 1).
  - reflexivity.
  - exact two_joint_limits_within.
  - reflexivity.
  - reflexivity.
  - lra.
  - lra.
Defined.

(** X16. JointPositionLimitPenalty.create skips the free joint and gives
    joint j the soft limits of jnt_range[j + 1]: for a factor in [0, 1] and
    lower <= upper they lie inside the hard limits, are centred on the same
    midpoint, and span the fraction soft_limit_factor of the hard range. *)
Theorem soft_limits_inside_hard_limits jnt_range factor scale j lo hi :
  0 <= factor <= 1 ->
  jnt_range !! S j = Some (lo, hi) ->
  lo <= hi ->
  exists sl su,
    JointPositionLimitPenalty.lower_limits
      (JointPositionLimitPenalty.create jnt_range factor scale) !! j = Some sl /\
    JointPositionLimitPenalty.upper_limits
      (JointPositionLimitPenalty.create jnt_range factor scale) !! j = Some su /\
    lo <= sl /\ sl <= su /\ su <= hi /\
    sl + su = lo + hi /\ su - sl = factor * (hi - lo).
Proof.
  intros [Hf0 Hf1] Hj Hlh.
  assert (Hd : drop 1 jnt_range !! j = Some (lo, hi))
    by (by rewrite lookup_drop).
  exists ((lo + hi) / 2 - 5 / 10 * (hi - lo) * factor),
         ((lo + hi) / 2 + 5 / 10 * (hi - lo) * factor).
  unfold JointPositionLimitPenalty.create. simpl.
  rewrite !lookup_zip_with, !list_lookup_fmap, Hd. simpl.
  split; [done |]. split; [done |].
  assert (0 <= (hi - lo) * factor) by (apply Rmult_le_pos; lra).
  assert ((hi - lo) * factor <= (hi - lo) * 1)
    by (apply Rmult_le_compat_l; lra).
  repeat split; lra.
Qed.

Lemma soft_limits_inside_hard_limits_witness :
  exists sl su,
    JointPositionLimitPenalty.lower_limits two_joint_limits !! 1%nat
      = Some sl /\
    JointPositionLimitPenalty.upper_limits two_joint_limits !! 1%nat
      = Some su /\
    -2 <= sl /\ sl <= su /\ su <= 2 /\
    sl + su = -2 + 2 /\ su - sl = 95 / 100 * (2 - -2).
Proof.
  apply (soft_limits_inside_hard_limits [(0, 0); (-1, 1); (-2, 2)]
           (95 / 100) (-1) 1 (-2) 2); [lra | reflexivity | lra].
Defined.

(** ** Termination on the gravity vector *)

Lemma last_take_drop (v : Vec) start stop :
  (start < stop <= length v)%nat ->
  last (take (stop - start) (drop start v)) = v !! (stop - 1)%nat.
Proof.
  intros [H1 H2]. rewrite last_lookup, length_take, length_drop.
  rewrite lookup_take_lt by lia. rewrite lookup_drop. f_equal. lia.
Qed.

(** X17. GVecTermination reads only the last entry of its sensor range. For
    a range [start, stop) with start < stop <= len(sensordata) it returns -1
    when sensordata[stop - 1] < min_z and 0 otherwise; with stop = None and
    start < len(sensordata) it reads the last entry of sensordata; and for
    an empty range it raises IndexError. *)
Theorem gvec_termination_reads_last self sensordata start :
  (forall stop z,
     GVecTermination.sensor_idx_range self = (start, Some stop) ->
     (start < stop <= length sensordata)%nat ->
     sensordata !! (stop - 1)%nat = Some z ->
     GVecTermination.call self sensordata =
     inr (if bool_decide (z < GVecTermination.min_z self)
          then (-1)%Z else 0%Z)) /\
  (forall z,
     GVecTermination.sensor_idx_range self = (start, None) ->
     (start < length sensordata)%nat ->
     last sensordata = Some z ->
     GVecTermination.call self sensordata =
     inr (if bool_decide (z < GVecTermination.min_z self)
          then (-1)%Z else 0%Z)) /\
  (forall stop,
     GVecTermination.sensor_idx_range self = (start, stop) ->
     (length sensordata <= start)%nat \/
     (exists e, stop = Some e /\ (e <= start)%nat) ->
     GVecTermination.call self sensordata = inl IndexError).
Proof.
  repeat split.
  - intros stop z Hr Hb Hz. unfold GVecTermination.call. rewrite Hr.
    cbn [GVecTermination.slice]. by rewrite last_take_drop, Hz.
  - intros z Hr Hb Hz. unfold GVecTermination.call. rewrite Hr.
    cbn [GVecTermination.slice].
    rewrite last_lookup, length_drop, lookup_drop.
    replace (start + pred (length sensordata - start))%nat
      with (pred (length sensordata)) by lia.
    by rewrite <- last_lookup, Hz.
  - intros stop Hr Hempty. unfold GVecTermination.call. rewrite Hr.
    assert (Hs : GVecTermination.slice sensordata start stop = []).
    { apply length_zero_iff_nil. unfold GVecTermination.slice.
      destruct Hempty as [Hlen | (e & -> & He)].
      - destruct stop; rewrite ?length_take, length_drop; lia.
      - rewrite length_take. lia. }
    by rewrite Hs.
Qed.

Lemma gvec_termination_reads_last_witness :
  GVecTermination.call
    {| GVecTermination.sensor_idx_range := (2%nat, Some 5%nat);
       GVecTermination.min_z := 0 |}
    [9; 9; 0; 0; -1; 9] =
  inr (if bool_decide (-1 < 0) then (-1)%Z else 0%Z).
Proof.
  apply (proj1 (gvec_termination_reads_last
                  {| GVecTermination.sensor_idx_range := (2%nat, Some 5%nat);
                     GVecTermination.min_z := 0 |}
                  [9; 9; 0; 0; -1; 9] 2%nat) 5%nat (-1)).
  - reflexivity.
  - simpl. lia.
  - reflexivity.
Defined.

(** ** Command generators *)

Section Commands.

Context {PRNGKey : Type} `{!Random PRNGKey}.

(** The contract of [jax.random]: a uniform draw lies between its bounds, a
    Bernoulli draw with probability 0 is never true and one with
    probability 1 always is. *)
Hypothesis uniform1_range :
  forall k lo hi, lo <= hi -> lo <= uniform1 k lo hi <= hi.
Hypothesis bernoulli_never : forall k, bernoulli k 0 = false.
Hypothesis bernoulli_always : forall k, bernoulli k 1 = true.

(** X18. The gait frequency of an episode is one value between
    gait_freq_lower and gait_freq_upper: the initial command is a
    one-element vector in that range, and stepping the command any number of
    times leaves it unchanged. *)
Theorem gait_frequency_constant_in_range self (rng : PRNGKey)
    (rngs : list PRNGKey) :
  GaitFrequencyCommand.gait_freq_lower self
    <= GaitFrequencyCommand.gait_freq_upper self ->
  exists f,
    GaitFrequencyCommand.initial_command self rng = [f] /\
    GaitFrequencyCommand.gait_freq_lower self <= f
      <= GaitFrequencyCommand.gait_freq_upper self /\
    foldl (GaitFrequencyCommand.call self)
      (GaitFrequencyCommand.initial_command self rng) rngs = [f].
Proof.
  intros Hr. eexists. split; [reflexivity |]. split; [by apply uniform1_range |].
  induction rngs as [| k rngs IH]; [done |]. simpl. exact IH.
Qed.

(** X19. The yaw-rate command never leaves [-scale, scale]: for a
    non-negative scale the initial command is a one-element vector in that
    range, and a step from a command in that range returns a command in that
    range. *)
Theorem angular_command_in_range self :
  0 <= AngularVelocityCommand.scale self ->
  (forall rng : PRNGKey,
     exists w, AngularVelocityCommand.initial_command self rng = inr [w] /\
               - AngularVelocityCommand.scale self <= w
                 <= AngularVelocityCommand.scale self) /\
  (forall (rng : PRNGKey) w,
     - AngularVelocityCommand.scale self <= w
       <= AngularVelocityCommand.scale self ->
     exists w', AngularVelocityCommand.call self [w] rng = inr [w'] /\
                - AngularVelocityCommand.scale self <= w'
                  <= AngularVelocityCommand.scale self).
Proof.
  intros Hs.
  assert (Hinit : forall rng : PRNGKey,
     exists w, AngularVelocityCommand.initial_command self rng = inr [w] /\
               - AngularVelocityCommand.scale self <= w
                 <= AngularVelocityCommand.scale self).
  { intros rng. unfold AngularVelocityCommand.initial_command. cbn.
    destruct (bernoulli _ _).
    - exists 0. split; [done | lra].
    - eexists. split; [done |]. apply uniform1_range. lra. }
  split; [exact Hinit |].
  intros rng w Hw. unfold AngularVelocityCommand.call.
  destruct (Hinit (subkey rng 2 1)) as (n & -> & Hn). cbn.
  destruct (bernoulli _ _); eexists; (split; [done |]); done.
Qed.

(** X20. The two extreme probabilities of the yaw-rate command: with
    zero_prob = 1 the initial command is the zero vector, and with
    switch_prob = 0 a step returns the previous command unchanged, whatever
    its width. *)
Theorem angular_command_extremes self :
  (AngularVelocityCommand.zero_prob self = 1 ->
   forall rng : PRNGKey,
     AngularVelocityCommand.initial_command self rng = inr [0]) /\
  (AngularVelocityCommand.switch_prob self = 0 ->
   forall prev (rng : PRNGKey),
     AngularVelocityCommand.call self prev rng = inr prev).
Proof.
  split.
  - intros Hz rng. unfold AngularVelocityCommand.initial_command. cbv zeta.
    by rewrite Hz, bernoulli_always.
  - intros Hsw prev rng. unfold AngularVelocityCommand.call. cbv zeta.
    rewrite Hsw, (bernoulli_never (subkey rng 2 0)).
    unfold AngularVelocityCommand.initial_command. cbn.
    unfold ret. f_equal. apply list_fmap_id.
Qed.

(** X21. The linear-velocity command keeps its shape and its ranges: for
    well-ordered ranges the initial command is a two-element vector whose
    components are 0 or within x_range and y_range, a step from such a
    command returns such a command, and with both zero probabilities 1 the
    initial command is the zero vector. *)
Theorem linear_command_in_range self :
  fst (LinearVelocityCommand.x_range self)
    <= snd (LinearVelocityCommand.x_range self) ->
  fst (LinearVelocityCommand.y_range self)
    <= snd (LinearVelocityCommand.y_range self) ->
  (forall rng : PRNGKey,
     exists x y, LinearVelocityCommand.initial_command self rng = [x; y] /\
                 zero_or_within (LinearVelocityCommand.x_range self) x /\
                 zero_or_within (LinearVelocityCommand.y_range self) y) /\
  (forall (rng : PRNGKey) px py,
     zero_or_within (LinearVelocityCommand.x_range self) px ->
     zero_or_within (LinearVelocityCommand.y_range self) py ->
     exists x y, LinearVelocityCommand.call self [px; py] rng = inr [x; y] /\
                 zero_or_within (LinearVelocityCommand.x_range self) x /\
                 zero_or_within (LinearVelocityCommand.y_range self) y) /\
  (LinearVelocityCommand.x_zero_prob self = 1 ->
   LinearVelocityCommand.y_zero_prob self = 1 ->
   forall rng : PRNGKey,
     LinearVelocityCommand.initial_command self rng = [0; 0]).
Proof.
  intros Hx Hy.
  assert (Hinit : forall rng : PRNGKey,
     exists x y, LinearVelocityCommand.initial_command self rng = [x; y] /\
                 zero_or_within (LinearVelocityCommand.x_range self) x /\
                 zero_or_within (LinearVelocityCommand.y_range self) y).
  { intros rng. unfold LinearVelocityCommand.initial_command.
    destruct (LinearVelocityCommand.x_range self) as [xmin xmax].
    destruct (LinearVelocityCommand.y_range self) as [ymin ymax].
    cbn in *. eexists _, _. split; [reflexivity |].
    split.
    - destruct (bernoulli _ _); [by left | right; by apply uniform1_range].
    - destruct (bernoulli _ _); [by left | right; by apply uniform1_range]. }
  split; [exact Hinit |]. split.
  - intros rng px py Hpx Hpy. unfold LinearVelocityCommand.call.
    destruct (Hinit (subkey rng 2 1)) as (x & y & -> & Hx' & Hy'). cbn.
    destruct (bernoulli _ _); eexists _, _; (split; [done |]); done.
  - intros Hzx Hzy rng. unfold LinearVelocityCommand.initial_command.
    destruct (LinearVelocityCommand.x_range self) as [xmin xmax].
    destruct (LinearVelocityCommand.y_range self) as [ymin ymax].
    cbn. by rewrite Hzx, Hzy, !bernoulli_always.
Qed.

End Commands.

Lemma toy_uniform1_range (k : nat) lo hi :
  lo <= hi -> lo <= uniform1 k lo hi <= hi.
Proof. intros H. simpl. lra. Qed.

Lemma toy_bernoulli_never (k : nat) : bernoulli k 0 = false.
Proof. simpl. apply bool_decide_eq_false_2. lra. Qed.

Lemma toy_bernoulli_always (k : nat) : bernoulli k 1 = true.
Proof. simpl. apply bool_decide_eq_true_2. lra. Qed.

Lemma gait_frequency_constant_in_range_witness :
  exists f,
    GaitFrequencyCommand.initial_command GaitFrequencyCommand.default 7%nat
      = [f] /\
    12 / 10 <= f <= 15 / 10 /\
    foldl (GaitFrequencyCommand.call GaitFrequencyCommand.default)
      (GaitFrequencyCommand.initial_command GaitFrequencyCommand.default 7%nat)
      [1%nat; 2%nat; 3%nat] = [f].
Proof.
  apply (gait_frequency_constant_in_range toy_uniform1_range
           GaitFrequencyCommand.default 7%nat [1%nat; 2%nat; 3%nat]).
  simpl. lra.
Defined.

Lemma angular_command_in_range_witness :
  (forall rng : nat,
     exists w,
       AngularVelocityCommand.initial_command shipped_angular_command rng
         = inr [w] /\
       - (1 / 10) <= w <= 1 / 10) /\
  (forall (rng : nat) w,
     - (1 / 10) <= w <= 1 / 10 ->
     exists w',
       AngularVelocityCommand.call shipped_angular_command [w] rng
         = inr [w'] /\
       - (1 / 10) <= w' <= 1 / 10).
Proof.
  apply (angular_command_in_range toy_uniform1_range shipped_angular_command).
  simpl. lra.
Defined.

Lemma angular_command_extremes_witness :
  let always_zero :=
    {| AngularVelocityCommand.scale := 1 / 10;
       AngularVelocityCommand.zero_prob := 1;
       AngularVelocityCommand.switch_prob := 0 |} in
  AngularVelocityCommand.initial_command always_zero 7%nat = inr [0] /\
  AngularVelocityCommand.call always_zero [5 / 100] 7%nat = inr [5 / 100].
Proof.
  intros always_zero.
  destruct (angular_command_extremes toy_bernoulli_never toy_bernoulli_always
              always_zero) as [Hzero Hkeep].
  split; [by apply Hzero | by apply Hkeep].
Defined.

Lemma linear_command_in_range_witness :
  exists x y,
    LinearVelocityCommand.initial_command shipped_linear_command 7%nat
      = [x; y] /\
    zero_or_within (-3 / 10, 7 / 10) x /\
    zero_or_within (-2 / 10, 2 / 10) y.
Proof.
  apply (proj1 (linear_command_in_range toy_uniform1_range
                  toy_bernoulli_always shipped_linear_command
                  ltac:(simpl; lra) ltac:(simpl; lra))).
Defined.

(** ** Shapes in the networks *)

(** [row] returns row [i] when there is one and the last row otherwise. *)
Lemma row_spec (m : Mat) i :
  row m i = match m !! i with
            | Some r => inr r
            | None => match last m with
                      | Some r => inr r
                      | None => inl IndexError
                      end
            end.
Proof.
  unfold row. destruct (m !! i) as [r |] eqn:Hi.
  - apply lookup_lt_Some in Hi as Hlt.
    replace (Nat.min i (length m - 1)) with i by lia. by rewrite Hi.
  - apply lookup_ge_None in Hi.
    replace (Nat.min i (length m - 1)) with (pred (length m)) by lia.
    rewrite <- last_lookup. by destruct (last m).
Qed.

Lemma row_app_l (carry extra : Mat) i :
  (i < length carry)%nat -> row (carry ++ extra) i = row carry i.
Proof.
  intros Hi. rewrite !row_spec, lookup_app_l by done.
  by destruct (lookup_lt_is_Some_2 carry i Hi) as [r ->].
Qed.

Lemma row_app_last (carry : Mat) r k i :
  last carry = Some r -> row (carry ++ replicate k r) i = row carry i.
Proof.
  intros Hl. rewrite !row_spec, last_app, Hl.
  assert (Hrep : match last (replicate k r) with
                 | Some y => Some y
                 | None => Some r
                 end = Some r).
  { destruct (last (replicate k r)) as [y |] eqn:Hy; [| done].
    apply last_Some_elem_of, elem_of_replicate in Hy as [-> _]. done. }
  rewrite Hrep. destruct (carry !! i) as [x |] eqn:Hi.
  - apply lookup_lt_Some in Hi as Hlt. by rewrite lookup_app_l, Hi.
  - apply lookup_ge_None in Hi. rewrite lookup_app_r by done.
    destruct (replicate k r !! (i - length carry)%nat) as [y |] eqn:Hy;
      [| done].
    by apply lookup_replicate in Hy as [-> _].
Qed.

Lemma row_returns (m : Mat) i (P : Vec -> Prop) :
  m <> [] -> Forall P m -> exists r, row m i = inr r /\ P r.
Proof.
  intros Hne HP. rewrite row_spec.
  destruct (m !! i) as [r |] eqn:Hi.
  - exists r. split; [done |]. by eapply Forall_lookup_1.
  - apply last_is_Some in Hne as [r Hr]. rewrite Hr. exists r.
    split; [done |]. rewrite Forall_forall in HP. apply HP.
    by apply last_Some_elem_of.
Qed.

Lemma gru_call_ok rnn x h :
  length x = GRUCell.input_size rnn -> length h = GRUCell.hidden_size rnn ->
  GRUCell.call rnn x h = inr (GRUCell.update rnn x h).
Proof. intros Hx Hh. unfold GRUCell.call. by rewrite Hx, Hh, !Nat.eqb_refl. Qed.

Lemma linear_call_ok l x :
  length x = Linear.in_features l -> Linear.call l x = inr (Linear.affine l x).
Proof. intros Hx. unfold Linear.call. by rewrite Hx, Nat.eqb_refl. Qed.

Lemma run_rnns_inv rnns i x carry acc x' out :
  run_rnns rnns i x carry acc = inr (x', out) ->
  exists outs, out = acc ++ outs /\ length outs = length rnns.
Proof.
  revert i x acc. induction rnns as [| rnn rnns IH]; intros i x acc H; cbn in H.
  - injection H as <- <-. exists []. by rewrite app_nil_r.
  - inv_bind_as H Er h. inv_bind_as H Ec y.
    apply IH in H as (outs & -> & Hlen).
    exists (y :: outs). rewrite <- app_assoc. split; [done | simpl; lia].
Qed.

(** The cells read the carry only through [row], at the indices of the
    cells. *)
Lemma run_rnns_ext rnns i x carry carry' acc :
  (forall j, (i <= j < i + length rnns)%nat -> row carry' j = row carry j) ->
  run_rnns rnns i x carry' acc = run_rnns rnns i x carry acc.
Proof.
  revert i x acc. induction rnns as [| rnn rnns IH]; intros i x acc Hrow;
    [done |].
  cbn [run_rnns]. simpl in Hrow. rewrite (Hrow i) by lia.
  destruct (row carry i) as [| h]; [done |]. cbn [bind].
  destruct (GRUCell.call rnn x h) as [| y]; [done |]. cbn [bind].
  apply IH. intros j Hj. apply Hrow. lia.
Qed.

Lemma chunks_shape rows cols v :
  length v = (rows * cols)%nat -> has_shape rows cols (chunks rows cols v).
Proof.
  revert v. induction rows as [| rows IH]; intros v Hv; simpl.
  - split; [done | constructor].
  - destruct (IH (drop cols v)) as [Hl Hr].
    { rewrite length_drop. simpl in Hv. lia. }
    split; [simpl; by rewrite Hl |].
    constructor; [| done]. rewrite length_take. simpl in Hv. lia.
Qed.

Lemma reshape_inv rows cols v m :
  reshape rows cols v = inr m -> has_shape rows cols m.
Proof.
  unfold reshape. destruct (Nat.eqb_spec (length v) (rows * cols)) as [He |];
    intros H; [| discriminate H].
  injection H as <-. by apply chunks_shape.
Qed.

Lemma reshape_ok rows cols v :
  length v = (rows * cols)%nat ->
  reshape rows cols v = inr (chunks rows cols v).
Proof. intros Hv. unfold reshape. by rewrite Hv, Nat.eqb_refl. Qed.

Lemma stack_inv rows m : stack rows = inr m -> m = rows.
Proof.
  unfold stack. destruct rows as [| r rest]; [discriminate |].
  destruct (forallb _ _); intros H; [by injection H | discriminate H].
Qed.

Lemma stack_ok n rows :
  rows <> [] -> Forall (fun r => length r = n) rows -> stack rows = inr rows.
Proof.
  intros Hne Hr. unfold stack. destruct rows as [| r rest]; [done |].
  apply Forall_cons in Hr as [Hr Hrest].
  assert (Hb : forallb (fun s => Nat.eqb (length s) (length r)) rest = true).
  { apply forallb_forall. intros s Hs. apply Nat.eqb_eq.
    rewrite Forall_forall in Hrest. rewrite Hr. apply Hrest.
    by apply list_elem_of_In. }
  by rewrite Hb.
Qed.

Lemma biased_means_shape rows cols (mean : Mat) (zs : Vec) m :
  has_shape rows cols mean ->
  zipM2 (fun r z => ret (map (fun x => x + z) r)) mean zs = inr m ->
  has_shape rows cols m.
Proof.
  intros [Hl Hr] H. split.
  - by destruct (zipM2_length _ _ _ _ H) as [<- _].
  - eapply (zipM2_Forall (fun r => length r = cols) (fun _ => True));
      [| exact Hr | apply Forall_true; done | exact H].
    intros r z r' Hlen _ Hf. injection Hf as <-. by rewrite length_map.
Qed.

Lemma map_map_shape rows cols (f : R -> R) (m : Mat) :
  has_shape rows cols m -> has_shape rows cols (map (map f) m).
Proof.
  intros [Hl Hr]. split; [by rewrite length_map |].
  apply Forall_fmap. eapply Forall_impl; [exact Hr |].
  intros r Hlen. simpl. by rewrite length_map.
Qed.

(** The shapes of what [Actor.forward] returns. *)
Lemma forward_shapes_inv self obs_n c d c' :
  Actor.forward self obs_n c = inr (d, c') ->
  has_shape NUM_JOINTS (Actor.num_mixtures self) (means_nm d) /\
  has_shape NUM_JOINTS (Actor.num_mixtures self) (stds_nm d) /\
  has_shape NUM_JOINTS (Actor.num_mixtures self) (logits_nm d) /\
  length c' = length (Actor.rnns self).
Proof.
  unfold Actor.forward. intros H.
  inv_bind_as H Ei x0.
  inv_bind_as H Er xo. destruct xo as [x oc].
  inv_bind_as H Eo out.
  inv_bind_as H Em mean. inv_bind_as H Es std. inv_bind_as H El logits.
  inv_bind_as H Eb mean'. inv_bind_as H Ek st.
  injection H as <- <-. cbn.
  apply reshape_inv in Em, Es, El.
  repeat split; try (by destruct El); try (by destruct Em).
  - by destruct (biased_means_shape _ _ _ _ _ Em Eb).
  - by destruct (biased_means_shape _ _ _ _ _ Em Eb).
  - by destruct (map_map_shape _ _ (Actor.std_transform self) _ Es).
  - by destruct (map_map_shape _ _ (Actor.std_transform self) _ Es).
  - apply stack_inv in Ek as ->.
    apply run_rnns_inv in Er as (outs & -> & Hlen). by rewrite app_nil_l.
Qed.

(** X22. Whenever Actor.forward returns, the means, the standard deviations
    and the logits of the distribution each have shape (NUM_JOINTS,
    num_mixtures), and the new carry has exactly one row per recurrent
    cell. *)
Theorem actor_forward_shapes self obs_n c d c' :
  Actor.forward self obs_n c = inr (d, c') ->
  has_shape NUM_JOINTS (Actor.num_mixtures self) (means_nm d) /\
  has_shape NUM_JOINTS (Actor.num_mixtures self) (stds_nm d) /\
  has_shape NUM_JOINTS (Actor.num_mixtures self) (logits_nm d) /\
  length c' = length (Actor.rnns self).
Proof.
  apply forward_shapes_inv.
Qed.

Lemma actor_forward_shapes_witness :
  exists d c',
    Actor.forward (actor toy_model) (replicate NUM_ACTOR_INPUTS 0) [[0]]
      = inr (d, c') /\
    has_shape NUM_JOINTS 1 (means_nm d) /\
    has_shape NUM_JOINTS 1 (stds_nm d) /\
    has_shape NUM_JOINTS 1 (logits_nm d) /\
    length c' = 1%nat.
Proof.
  eexists _, _. split; [reflexivity |].
  apply (actor_forward_shapes (actor toy_model)
           (replicate NUM_ACTOR_INPUTS 0) [[0]]).
  reflexivity.
Defined.

Lemma actor_forward_ext self obs_n carry carry' :
  (forall j, (j < length (Actor.rnns self))%nat -> row carry' j = row carry j) ->
  Actor.forward self obs_n carry' = Actor.forward self obs_n carry.
Proof.
  intros Hrow. unfold Actor.forward.
  destruct (Linear.call _ _) as [| x0]; [done |]. cbn [bind].
  rewrite (run_rnns_ext _ _ _ carry carry'); [done |].
  intros j Hj. apply Hrow. lia.
Qed.

Lemma critic_forward_ext self obs_n carry carry' :
  (forall j, (j < length (Critic.rnns self))%nat -> row carry' j = row carry j) ->
  Critic.forward self obs_n carry' = Critic.forward self obs_n carry.
Proof.
  intros Hrow. unfold Critic.forward.
  destruct (Linear.call _ _) as [| x0]; [done |]. cbn [bind].
  rewrite (run_rnns_ext _ _ _ carry carry'); [done |].
  intros j Hj. apply Hrow. lia.
Qed.

(** X23. Actor.forward and Critic.forward read one carry row per recurrent
    cell, at an index that JAX clamps into the carry.  With at least one
    cell and an input of the width of the input projection, an empty carry
    raises IndexError.  A cell whose index is past the last row reads the
    last row: repeating the last row of the carry any number of times does
    not change what either function returns, so a carry with fewer rows
    than cells gives what the carry padded with its last row gives.  Rows
    beyond the number of cells are never read: appending any rows to a carry
    with at least one row per cell does not change the result. *)
Theorem forward_reads_one_row_per_cell :
  (forall self obs_n,
     length obs_n = Linear.in_features (Actor.input_proj self) ->
     Actor.rnns self <> [] ->
     Actor.forward self obs_n [] = inl IndexError) /\
  (forall self obs_n,
     length obs_n = Linear.in_features (Critic.input_proj self) ->
     Critic.rnns self <> [] ->
     Critic.forward self obs_n [] = inl IndexError) /\
  (forall self obs_n carry r k,
     last carry = Some r ->
     Actor.forward self obs_n (carry ++ replicate k r) =
     Actor.forward self obs_n carry) /\
  (forall self obs_n carry r k,
     last carry = Some r ->
     Critic.forward self obs_n (carry ++ replicate k r) =
     Critic.forward self obs_n carry) /\
  (forall self obs_n carry extra,
     (length (Actor.rnns self) <= length carry)%nat ->
     Actor.forward self obs_n (carry ++ extra) =
     Actor.forward self obs_n carry) /\
  (forall self obs_n carry extra,
     (length (Critic.rnns self) <= length carry)%nat ->
     Critic.forward self obs_n (carry ++ extra) =
     Critic.forward self obs_n carry).
Proof.
  split; [| split; [| split; [| split; [| split]]]].
  - intros self obs_n Hw Hne. unfold Actor.forward.
    rewrite linear_call_ok by done. cbn [bind].
    by destruct (Actor.rnns self).
  - intros self obs_n Hw Hne. unfold Critic.forward.
    rewrite linear_call_ok by done. cbn [bind].
    by destruct (Critic.rnns self).
  - intros self obs_n carry r k Hl. apply actor_forward_ext.
    intros j _. by apply row_app_last.
  - intros self obs_n carry r k Hl. apply critic_forward_ext.
    intros j _. by apply row_app_last.
  - intros self obs_n carry extra Hl. apply actor_forward_ext.
    intros j Hj. apply row_app_l. lia.
  - intros self obs_n carry extra Hl. apply critic_forward_ext.
    intros j Hj. apply row_app_l. lia.
Qed.

Lemma forward_reads_one_row_per_cell_witness :
  Actor.forward (actor two_cell_model) (replicate NUM_ACTOR_INPUTS 0) []
    = inl IndexError /\
  Critic.forward (critic two_cell_model) (replicate NUM_CRITIC_INPUTS 0) []
    = inl IndexError /\
  Actor.forward (actor two_cell_model) (replicate NUM_ACTOR_INPUTS 0)
    ([[3]] ++ replicate 1 [3]) =
    Actor.forward (actor two_cell_model) (replicate NUM_ACTOR_INPUTS 0) [[3]] /\
  Critic.forward (critic two_cell_model) (replicate NUM_CRITIC_INPUTS 0)
    ([[3]] ++ replicate 1 [3]) =
    Critic.forward (critic two_cell_model) (replicate NUM_CRITIC_INPUTS 0)
      [[3]] /\
  Actor.forward (actor two_cell_model) (replicate NUM_ACTOR_INPUTS 0)
    ([[3]; [4]] ++ [[5]; [6]]) =
    Actor.forward (actor two_cell_model) (replicate NUM_ACTOR_INPUTS 0)
      [[3]; [4]] /\
  Critic.forward (critic two_cell_model) (replicate NUM_CRITIC_INPUTS 0)
    ([[3]; [4]] ++ [[5]; [6]]) =
    Critic.forward (critic two_cell_model) (replicate NUM_CRITIC_INPUTS 0)
      [[3]; [4]].
Proof.
  destruct forward_reads_one_row_per_cell
    as (Ha & Hc & Ha' & Hc' & Ha'' & Hc'').
  split; [apply Ha; [reflexivity | discriminate] |].
  split; [apply Hc; [reflexivity | discriminate] |].
  split; [by apply Ha' |].
  split; [by apply Hc' |].
  split; [apply Ha''; simpl; lia | apply Hc''; simpl; lia].
Defined.

(** With one carry row and two cells, the second cell reads the only row:
    each cell adds its input to the row it reads, so the second row of the
    new carry is the first cell's output plus the same row again. *)
Example short_carry_is_clamped :
  exists d,
    Actor.forward (actor two_cell_model) (replicate NUM_ACTOR_INPUTS 0) [[3]]
      = inr (d, [[0 + 3]; [0 + 3 + 3]]).
Proof. eexists. reflexivity. Qed.

(** ** The scan returns on well-shaped inputs *)

Lemma zipM2_pure {A B C} (g : A -> B -> C) xs ys :
  length xs = length ys ->
  zipM2 (fun x y => ret (g x y)) xs ys = inr (zip_with g xs ys).
Proof.
  revert ys. induction xs as [| x xs IH]; intros [| y ys] Hl;
    simplify_eq/=; [done |].
  by rewrite IH.
Qed.

Lemma where_vec_ok b x y :
  length x = length y -> where_vec b x y = inr (if b then x else y).
Proof.
  intros Hl. unfold where_vec. rewrite zip_with_exact_same_length by done.
  f_equal. revert y Hl. induction x as [| a x IH]; intros [| c y] Hl;
    simplify_eq/=; [by destruct b |].
  specialize (IH y Hl). destruct b; by rewrite IH.
Qed.

Lemma where_mat_ok rows cols b x y :
  has_shape rows cols x -> has_shape rows cols y ->
  where_mat b x y = inr (if b then x else y).
Proof.
  intros [Hx Hxr] [Hy Hyr]. revert rows y Hx Hy Hyr.
  induction Hxr as [| r x Hr Hxr IH]; intros rows y Hx Hy Hyr;
    destruct Hyr as [| s y Hs Hyr]; simplify_eq/=; [by destruct b |].
  rewrite where_vec_ok by congruence. cbn.
  rewrite (IH (length x) y) by done. cbn. by destruct b.
Qed.

Lemma zeros_shape rows cols : has_shape rows cols (zeros rows cols).
Proof.
  unfold zeros. split; [by rewrite length_replicate |].
  apply Forall_replicate. by rewrite length_replicate.
Qed.

Lemma cells_run hidden_size rnns i x carry acc :
  Forall (fun rnn => GRUCell.input_size rnn = hidden_size /\
                     GRUCell.hidden_size rnn = hidden_size /\
                     GRUCell.well_formed rnn) rnns ->
  length x = hidden_size ->
  carry <> [] ->
  Forall (fun r => length r = hidden_size) carry ->
  exists x' outs,
    run_rnns rnns i x carry acc = inr (x', acc ++ outs) /\
    length outs = length rnns /\
    Forall (fun o => length o = hidden_size) outs /\
    length x' = hidden_size.
Proof.
  intros Hcells. revert i x acc.
  induction Hcells as [| rnn rnns (Hin & Hh & Hwf) Hcells IH];
    intros i x acc Hx Hne Hrows.
  - exists x, []. rewrite app_nil_r. by repeat split.
  - cbn [run_rnns].
    destruct (row_returns carry i _ Hne Hrows) as (h & -> & Hlen).
    cbn [bind]. rewrite gru_call_ok by congruence. cbn [bind].
    assert (Hy : length (GRUCell.update rnn x h) = hidden_size).
    { rewrite Hwf by congruence. done. }
    destruct (IH (S i) _ (acc ++ [GRUCell.update rnn x h]) Hy Hne Hrows)
      as (x' & outs & -> & Hl & Hsh & Hx').
    exists x', (GRUCell.update rnn x h :: outs). rewrite <- app_assoc.
    split; [done |]. split; [simpl; by rewrite Hl |].
    split; [by constructor | done].
Qed.

Lemma stack_shape_ok depth hidden_size outs :
  (0 < depth)%nat -> has_shape depth hidden_size outs ->
  stack outs = inr outs.
Proof.
  intros Hd [Hl Hr]. apply (stack_ok hidden_size); [| done].
  intros ->. simpl in Hl. lia.
Qed.

Lemma shaped_carry_nonempty depth hidden_size (carry : Mat) :
  (0 < depth)%nat -> has_shape depth hidden_size carry -> carry <> [].
Proof. intros Hd [Hl _] ->. simpl in Hl. lia. Qed.

Lemma actor_forward_returns depth hidden_size self obs_n carry :
  (0 < depth)%nat ->
  actor_of_shape depth hidden_size self ->
  Actor.num_outputs self = NUM_JOINTS ->
  length obs_n = Actor.num_inputs self ->
  has_shape depth hidden_size carry ->
  exists d c', Actor.forward self obs_n carry = inr (d, c') /\
               has_shape depth hidden_size c'.
Proof.
  intros Hd ((Hin & Hout & Hwf) & (Hlen & Hcells) & (Hin' & Hout' & Hwf'))
    Hno Hobs Hcarry.
  unfold Actor.forward.
  rewrite linear_call_ok by congruence. cbn [bind].
  destruct (cells_run hidden_size (Actor.rnns self) 0
              (Linear.affine (Actor.input_proj self) obs_n) carry [])
    as (x' & outs & -> & Hl & Hsh & Hx');
    [done | rewrite Hwf by congruence; done
    | by eapply shaped_carry_nonempty | by destruct Hcarry |].
  cbn [bind]. rewrite linear_call_ok by congruence. cbn [bind].
  assert (Hlo : length (Linear.affine (Actor.output_proj self) x')
                = (20 * 3 * Actor.num_mixtures self)%nat).
  { rewrite Hwf' by congruence. by rewrite Hout', Hno. }
  unfold NUM_JOINTS in *.
  rewrite reshape_ok by (rewrite length_take; lia). cbn [bind].
  rewrite reshape_ok by (rewrite length_take, length_drop; lia). cbn [bind].
  rewrite reshape_ok by (rewrite length_drop; lia). cbn [bind].
  rewrite zipM2_pure.
  2:{ destruct (chunks_shape 20 (Actor.num_mixtures self)
                  (take (20 * Actor.num_mixtures self)
                     (Linear.affine (Actor.output_proj self) x')))
        as [-> _]; [rewrite length_take; lia | reflexivity]. }
  cbn [bind]. simpl app.
  rewrite (stack_shape_ok depth hidden_size outs Hd); [| split; congruence].
  cbn [bind]. eexists _, _. split; [reflexivity |]. split; congruence.
Qed.

Lemma critic_forward_returns depth hidden_size self obs_n carry :
  (0 < depth)%nat ->
  critic_of_shape depth hidden_size self ->
  length obs_n = NUM_CRITIC_INPUTS ->
  has_shape depth hidden_size carry ->
  exists v c', Critic.forward self obs_n carry = inr ([v], c') /\
               has_shape depth hidden_size c'.
Proof.
  intros Hd ((Hin & Hout & Hwf) & (Hlen & Hcells) & (Hin' & Hout' & Hwf'))
    Hobs Hcarry.
  unfold Critic.forward.
  rewrite linear_call_ok by congruence. cbn [bind].
  destruct (cells_run hidden_size (Critic.rnns self) 0
              (Linear.affine (Critic.input_proj self) obs_n) carry [])
    as (x' & outs & -> & Hl & Hsh & Hx');
    [done | rewrite Hwf by congruence; done
    | by eapply shaped_carry_nonempty | by destruct Hcarry |].
  cbn [bind]. rewrite linear_call_ok by congruence. cbn [bind]. simpl app.
  rewrite (stack_shape_ok depth hidden_size outs Hd); [| split; congruence].
  cbn [bind].
  assert (Hlo : length (Linear.affine (Critic.output_proj self) x') = 1%nat).
  { rewrite Hwf' by congruence. done. }
  destruct (Linear.affine (Critic.output_proj self) x') as [| v [| ? ?]];
    simplify_eq/=.
  eexists _, _. split; [reflexivity |]. split; congruence.
Qed.

Ltac split_keys :=
  unfold has_keys, actor_observation_keys, actor_command_keys,
    privileged_keys in *;
  repeat match goal with
         | H : Forall _ (_ ++ _) |- _ =>
             let Hl := fresh "Hl" in
             let Hr := fresh "Hr" in
             apply Forall_app in H as [Hl Hr]
         | H : Forall _ (_ :: _) |- _ =>
             let v := fresh "v" in
             let Hv := fresh "Hv" in
             apply Forall_cons in H as [[v Hv] H]
         end.

Ltac read_keys :=
  repeat match goal with
         | H : ?d !! ?k = Some _ |- context [getitem ?d ?k] =>
             rewrite (getitem_Some _ _ _ H); cbn [bind]
         end.

Ltac split_provided :=
  unfold provides, actor_observation_keys, actor_command_keys,
    privileged_keys in *;
  repeat match goal with
         | H : Forall _ (_ ++ _) |- _ =>
             let Hl := fresh "Hl" in
             let Hr := fresh "Hr" in
             apply Forall_app in H as [Hl Hr]
         | H : Forall _ (_ :: _) |- _ =>
             let v := fresh "v" in
             let w := fresh "w" in
             let Hv := fresh "Hv" in
             let Hw := fresh "Hw" in
             let Hlen := fresh "Hlen" in
             apply Forall_cons in H as [(v & w & Hv & Hw & Hlen) H];
             vm_compute in Hw; injection Hw as <-
         end.

Lemma run_actor_factored self model observations commands c :
  KbotWalkingTask.run_actor self model observations commands c =
  (obs_n <- actor_input observations commands ; Actor.forward model obs_n c).
Proof.
  unfold KbotWalkingTask.run_actor, actor_input.
  repeat match goal with
         | |- context [getitem ?d ?k] =>
             destruct (getitem d k); cbn [bind]; [done |]
         end.
  done.
Qed.

Lemma run_critic_factored self model observations commands c :
  KbotWalkingTask.run_critic self model observations commands c =
  (obs_n <- critic_input observations commands ; Critic.forward model obs_n c).
Proof.
  unfold KbotWalkingTask.run_critic, critic_input.
  repeat match goal with
         | |- context [getitem ?d ?k] =>
             destruct (getitem d k); cbn [bind]; [done |]
         end.
  done.
Qed.

(** With every observation and command of its declared width, the two
    input vectors have the widths of the constants. *)
Lemma inputs_provided observations commands :
  provides observations (actor_observation_keys ++ privileged_keys) ->
  provides commands actor_command_keys ->
  exists actor_obs critic_obs,
    actor_input observations commands = inr actor_obs /\
    critic_input observations commands = inr critic_obs /\
    length actor_obs = NUM_ACTOR_INPUTS /\
    length critic_obs = NUM_CRITIC_INPUTS.
Proof.
  intros Ho Hc. split_provided.
  eexists _, _. split; [| split; [| split]].
  - unfold actor_input. read_keys. reflexivity.
  - unfold critic_input. read_keys. reflexivity.
  - rewrite !length_app.
    repeat match goal with H : length _ = _ |- _ => rewrite H; clear H end.
    reflexivity.
  - rewrite !length_app, !length_map.
    repeat match goal with H : length _ = _ |- _ => rewrite H; clear H end.
    reflexivity.
Qed.

Section ScanReturns.

Context {PRNGKey : Type} `{!Distribution PRNGKey}.

Lemma scan_fn_returns self model (rng : PRNGKey) ac cc tr :
  log_prob_defined ->
  (0 < KbotWalkingTask.depth self)%nat ->
  model_of_shape self model ->
  provides (t_obs tr) (actor_observation_keys ++ privileged_keys) ->
  provides (t_command tr) actor_command_keys ->
  length (t_action tr) = NUM_JOINTS ->
  has_shape (KbotWalkingTask.depth self) (KbotWalkingTask.hidden_size self) ac ->
  has_shape (KbotWalkingTask.depth self) (KbotWalkingTask.hidden_size self) cc ->
  exists ac' cc' y,
    KbotWalkingTask.scan_fn self model rng (ac, cc) tr = inr ((ac', cc'), y) /\
    has_shape (KbotWalkingTask.depth self)
      (KbotWalkingTask.hidden_size self) ac' /\
    has_shape (KbotWalkingTask.depth self)
      (KbotWalkingTask.hidden_size self) cc'.
Proof.
  intros Hlp Hd (Ha & Hni & Hno & Hc) Hobs Hcmd Hact Hac Hcc.
  destruct (inputs_provided _ _ Hobs Hcmd)
    as (actor_obs & critic_obs & Hai & Hci & Hal & Hcl).
  unfold KbotWalkingTask.scan_fn.
  rewrite run_actor_factored, run_critic_factored, Hai, Hci. cbn [bind].
  destruct (actor_forward_returns _ _ (actor model) actor_obs ac Hd Ha Hno)
    as (dist & na & Hfa & Hna); [congruence | done |].
  rewrite Hfa. cbn [bind].
  destruct (forward_shapes_inv _ _ _ _ _ Hfa) as (Hm & Hs & Hl & _).
  destruct (Hlp dist (t_action tr) _ Hm Hs Hl Hact) as [lp ->]. cbn [bind].
  destruct (critic_forward_returns _ _ (critic model) critic_obs cc Hd Hc)
    as (val & nc & -> & Hnc); [done | done |].
  cbn [bind KbotWalkingTask.squeeze KbotWalkingTask.get_initial_model_carry].
  rewrite (where_mat_ok _ _ _ _ _ (zeros_shape _ _) Hna). cbn [bind].
  rewrite (where_mat_ok _ _ _ _ _ (zeros_shape _ _) Hnc). cbn [bind].
  eexists _, _, _. split; [reflexivity |].
  destruct (t_done tr); split; auto using zeros_shape.
Qed.

Lemma scan_returns self model (rng : PRNGKey) xs ac cc :
  log_prob_defined ->
  (0 < KbotWalkingTask.depth self)%nat ->
  model_of_shape self model ->
  Forall (fun tr =>
    provides (t_obs tr) (actor_observation_keys ++ privileged_keys) /\
    provides (t_command tr) actor_command_keys /\
    length (t_action tr) = NUM_JOINTS) xs ->
  has_shape (KbotWalkingTask.depth self) (KbotWalkingTask.hidden_size self) ac ->
  has_shape (KbotWalkingTask.depth self) (KbotWalkingTask.hidden_size self) cc ->
  exists ac' cc' ys,
    lax_scan (KbotWalkingTask.scan_fn self model rng) (ac, cc) xs
      = inr ((ac', cc'), ys) /\
    length ys = length xs /\
    has_shape (KbotWalkingTask.depth self)
      (KbotWalkingTask.hidden_size self) ac' /\
    has_shape (KbotWalkingTask.depth self)
      (KbotWalkingTask.hidden_size self) cc'.
Proof.
  intros Hlp Hd Hm Hxs. revert ac cc.
  induction Hxs as [| tr xs (Ho & Hk & Hact) Hxs IH]; intros ac cc Hac Hcc.
  - by exists ac, cc, [].
  - destruct (scan_fn_returns self model rng ac cc tr Hlp Hd Hm Ho Hk Hact
                Hac Hcc)
      as (ac1 & cc1 & y & Hs & Hac1 & Hcc1).
    destruct (IH ac1 cc1 Hac1 Hcc1) as (ac' & cc' & ys & Hscan & Hl & H1 & H2).
    exists ac', cc', (y :: ys). cbn [lax_scan]. rewrite Hs. cbn [bind].
    rewrite Hscan. cbn [bind]. split; [reflexivity |].
    split; [simpl; by rewrite Hl |]. by split.
Qed.

End ScanReturns.

Lemma mapM_returns {A B} (P : B -> Prop) (f : A -> result B) l :
  Forall (fun a => exists b, f a = inr b /\ P b) l ->
  exists ys, mapM f l = inr ys /\ Forall P ys.
Proof.
  induction 1 as [| a l (b & Hb & HP) Hl (ys & Hys & HPs)]; cbn.
  - by exists [].
  - rewrite Hb. cbn. rewrite Hys. cbn. exists (b :: ys). by split; [| constructor].
Qed.

Lemma same_leading_axis_inv trajectory :
  same_leading_axis trajectory = true ->
  map_Forall (fun _ (m : Mat) => length m = length (done trajectory))
    (obs trajectory) /\
  map_Forall (fun _ (m : Mat) => length m = length (done trajectory))
    (command trajectory) /\
  length (action trajectory) = length (done trajectory).
Proof.
  unfold same_leading_axis. intros H.
  repeat (apply andb_prop in H as [H ?]).
  apply bool_decide_eq_true_1 in H.
  repeat match goal with
         | H : bool_decide _ = true |- _ => apply bool_decide_eq_true_1 in H
         | H : Nat.eqb _ _ = true |- _ => apply Nat.eqb_eq in H
         end.
  done.
Qed.

Lemma sliced_provided (d : gmap string Mat) n i keys :
  map_Forall (fun _ (m : Mat) => length m = n) d ->
  (i < n)%nat ->
  provides_rows d keys ->
  provides (omap (fun m : Mat => m !! i) d) keys.
Proof.
  intros Hd Hi Hk. unfold provides, provides_rows in *.
  eapply Forall_impl; [exact Hk |]. intros k (m & w & Hm & Hw & Hrows). simpl.
  destruct (lookup_lt_is_Some_2 m i) as [r Hr]; [by rewrite (Hd k m Hm) |].
  exists r, w. rewrite lookup_omap, Hm. simpl. split; [done |].
  split; [done |].
  exact (Forall_lookup_1 (fun r : Vec => length r = w) m i r Hrows Hr).
Qed.

Lemma unstack_returns trajectory okeys ckeys :
  same_leading_axis trajectory = true ->
  provides_rows (obs trajectory) okeys ->
  provides_rows (command trajectory) ckeys ->
  Forall (fun a => length a = NUM_JOINTS) (action trajectory) ->
  exists xs,
    unstack trajectory = inr xs /\
    Forall (fun tr => provides (t_obs tr) okeys /\
                      provides (t_command tr) ckeys /\
                      length (t_action tr) = NUM_JOINTS) xs.
Proof.
  intros Hs Ho Hc Ha. unfold unstack. rewrite Hs.
  destruct (same_leading_axis_inv _ Hs) as (Hobs & Hcmd & Hact).
  apply mapM_returns. apply Forall_forall. intros i Hi.
  apply elem_of_seq in Hi as [_ Hi]. simpl in Hi.
  unfold slice_at.
  destruct (lookup_lt_is_Some_2 (action trajectory) i) as [a Hai]; [lia |].
  destruct (lookup_lt_is_Some_2 (done trajectory) i) as [d ->]; [lia |].
  rewrite Hai. eexists. split; [reflexivity |]. cbn.
  split; [by eapply sliced_provided |].
  split; [by eapply sliced_provided |].
  exact (Forall_lookup_1 (fun a : Vec => length a = NUM_JOINTS)
           (action trajectory) i a Ha Hai).
Qed.

Lemma lax_scan_length {C X Y} (f : C -> X -> result (C * Y)) init xs c ys :
  lax_scan f init xs = inr (c, ys) -> length ys = length xs.
Proof.
  revert init c ys. induction xs as [| x xs IH]; intros init c ys H; cbn in H.
  - by injection H as _ <-.
  - inv_bind_as H Eq1 p. destruct p as [c1 y].
    inv_bind_as H Eq2 q. destruct q as [c2 ys'].
    injection H as _ <-. simpl. by rewrite (IH _ _ _ Eq2).
Qed.

Section PpoVariables.

Context {PRNGKey : Type} `{!Distribution PRNGKey}.

(** X24. get_ppo_variables returns on well-formed inputs and keeps the
    shape of the carry.  The model has the layers that get_model constructs
    for the configuration: NUM_ACTOR_INPUTS and NUM_CRITIC_INPUTS input
    features, depth >= 1 cells of width hidden_size, 3 * NUM_JOINTS *
    num_mixtures actor outputs and one critic output.  The leaves of the
    trajectory share the time axis, its mappings hold every key the two
    networks read with rows of the declared width, and every action has
    NUM_JOINTS entries.  The initial carry pair has shape (depth,
    hidden_size), and the distribution library defines the log probability
    of such actions.  Then get_ppo_variables returns one PPOVariables per
    time step and a final carry pair of shape (depth, hidden_size). *)
Theorem get_ppo_variables_returns self model trajectory ac cc (rng : PRNGKey) :
  log_prob_defined ->
  (0 < KbotWalkingTask.depth self)%nat ->
  model_of_shape self model ->
  same_leading_axis trajectory = true ->
  provides_rows (obs trajectory) (actor_observation_keys ++ privileged_keys) ->
  provides_rows (command trajectory) actor_command_keys ->
  Forall (fun a => length a = NUM_JOINTS) (action trajectory) ->
  has_shape (KbotWalkingTask.depth self) (KbotWalkingTask.hidden_size self) ac ->
  has_shape (KbotWalkingTask.depth self) (KbotWalkingTask.hidden_size self) cc ->
  exists vars ac' cc',
    KbotWalkingTask.get_ppo_variables self model trajectory (ac, cc) rng
      = inr (vars, (ac', cc')) /\
    length vars = length (done trajectory) /\
    has_shape (KbotWalkingTask.depth self)
      (KbotWalkingTask.hidden_size self) ac' /\
    has_shape (KbotWalkingTask.depth self)
      (KbotWalkingTask.hidden_size self) cc'.
Proof.
  intros Hlp Hd Hm Hs Ho Hk Ha Hac Hcc.
  destruct (unstack_returns _ _ _ Hs Ho Hk Ha) as (xs & Hxs & Hkeys).
  destruct (scan_returns self model rng xs ac cc Hlp Hd Hm Hkeys Hac Hcc)
    as (ac' & cc' & ys & Hscan & Hlen & Hac' & Hcc').
  exists ys, ac', cc'. unfold KbotWalkingTask.get_ppo_variables.
  rewrite Hxs. cbn [bind]. rewrite Hscan. cbn [bind].
  split; [reflexivity |]. split; [| done].
  rewrite Hlen. unfold unstack in Hxs. rewrite Hs in Hxs.
  by rewrite (mapM_length _ _ _ Hxs), length_seq.
Qed.

(** X25. Whenever get_ppo_variables returns, the sequence it returns is
    aligned with the trajectory: it has exactly one PPOVariables per time
    step. *)
Theorem get_ppo_variables_aligned self model trajectory c0 (rng : PRNGKey)
    vars c :
  KbotWalkingTask.get_ppo_variables self model trajectory c0 rng
    = inr (vars, c) ->
  length vars = length (done trajectory).
Proof.
  unfold KbotWalkingTask.get_ppo_variables. intros H.
  inv_bind_as H Ex xs. inv_bind_as H Es p. destruct p as [c' ys].
  injection H as <- _. rewrite (lax_scan_length _ _ _ _ _ Es).
  unfold unstack in Ex. destruct (same_leading_axis trajectory); [| done].
  by rewrite (mapM_length _ _ _ Ex), length_seq.
Qed.

Lemma scan_fn_done_resets self model (rng : PRNGKey) c tr c' y :
  t_done tr = true ->
  KbotWalkingTask.scan_fn self model rng c tr = inr (c', y) ->
  c' = KbotWalkingTask.get_initial_model_carry self rng.
Proof.
  intros Hdone H. destruct c as [ac cc].
  destruct (scan_fn_inv _ _ _ _ _ _ _ _ H)
    as (dist & na & lp & value & nc & v & _ & _ & _ & _ & _ & ->).
  by rewrite Hdone.
Qed.

(** X26. An episode end isolates what follows from what came before: if two
    scans of get_ppo_variables' body both reach a step whose done flag is
    True and continue over the same later steps, then, whatever their
    initial carries and earlier steps were, they return the same final carry
    and the same PPOVariables for the later steps. *)
Theorem scan_isolated_after_done self model (rng : PRNGKey)
    c0 c0' pre pre' tr tr' post c c' ys ys' :
  t_done tr = true -> t_done tr' = true ->
  lax_scan (KbotWalkingTask.scan_fn self model rng) c0 (pre ++ tr :: post)
    = inr (c, ys) ->
  lax_scan (KbotWalkingTask.scan_fn self model rng) c0' (pre' ++ tr' :: post)
    = inr (c', ys') ->
  c = c' /\ drop (S (length pre)) ys = drop (S (length pre')) ys'.
Proof.
  assert (Hsplit : forall c0 pre tr c ys,
    t_done tr = true ->
    lax_scan (KbotWalkingTask.scan_fn self model rng) c0 (pre ++ tr :: post)
      = inr (c, ys) ->
    exists zs,
      lax_scan (KbotWalkingTask.scan_fn self model rng)
        (KbotWalkingTask.get_initial_model_carry self rng) post = inr (c, zs) /\
      drop (S (length pre)) ys = zs).
  { clear. intros c0 pre tr c ys Hdone H.
    rewrite lax_scan_app in H.
    inv_bind_as H Eq1 p1. destruct p1 as [c1 ys1].
    inv_bind_as H Eq2 p2. destruct p2 as [c2 ys2].
    injection H as <- <-. cbn [lax_scan] in Eq2.
    inv_bind_as Eq2 Eq3 p3. destruct p3 as [c3 y].
    inv_bind_as Eq2 Eq4 p4. destruct p4 as [c4 zs].
    injection Eq2 as <- <-.
    rewrite (scan_fn_done_resets _ _ _ _ _ _ _ Hdone Eq3) in Eq4.
    exists zs. split; [exact Eq4 |].
    rewrite <- (lax_scan_length _ _ _ _ _ Eq1).
    change (y :: zs) with ([y] ++ zs). rewrite app_assoc.
    rewrite drop_app_length'; [done |]. rewrite length_app. simpl. lia. }
  intros Hd Hd' H H'.
  destruct (Hsplit _ _ _ _ _ Hd H) as (zs & Hz & Hdrop).
  destruct (Hsplit _ _ _ _ _ Hd' H') as (zs' & Hz' & Hdrop').
  rewrite Hz in Hz'. injection Hz' as <- <-. by rewrite Hdrop, Hdrop'.
Qed.

End PpoVariables.

Lemma constant_linear_shape n_in n_out v :
  linear_of_shape n_in n_out (constant_linear n_in n_out v).
Proof.
  split; [done |]. split; [done |]. intros x _. apply length_replicate.
Qed.

Lemma toy_model_shape : model_of_shape toy_task toy_model.
Proof.
  assert (Hcells : cells_of_shape 1 1 [constant_cell]).
  { split; [done |]. constructor; [| constructor].
    split; [done |]. split; [done |]. by intros x h _ _. }
  split; [| split; [done | split; [done |]]].
  - split; [apply constant_linear_shape |].
    split; [exact Hcells | apply constant_linear_shape].
  - split; [apply constant_linear_shape |].
    split; [exact Hcells | apply constant_linear_shape].
Qed.

Lemma toy_log_prob_defined : log_prob_defined (PRNGKey := nat).
Proof.
  intros d a m _ _ _ Ha. exists a. cbn [log_prob toy_distribution].
  by rewrite Ha.
Qed.

Lemma toy_episode_provided :
  provides_rows (obs toy_episode) (actor_observation_keys ++ privileged_keys) /\
  provides_rows (command toy_episode) actor_command_keys /\
  Forall (fun a => length a = NUM_JOINTS) (action toy_episode).
Proof.
  split; [| split]; [| | repeat constructor];
    unfold provides_rows;
    repeat (apply Forall_cons; split;
            [eexists _, _; split; [reflexivity |];
             split; [reflexivity | repeat constructor] |]);
    constructor.
Qed.

Lemma unit_carry_shape x : has_shape 1 1 [[x]].
Proof. split; [reflexivity | repeat constructor]. Qed.

Lemma get_ppo_variables_returns_witness :
  exists vars ac' cc',
    KbotWalkingTask.get_ppo_variables toy_task toy_model toy_episode
      ([[0]], [[0]]) 0%nat = inr (vars, (ac', cc')) /\
    length vars = length (done toy_episode) /\
    has_shape 1 1 ac' /\ has_shape 1 1 cc'.
Proof.
  apply (get_ppo_variables_returns toy_task toy_model toy_episode
           [[0]] [[0]] 0%nat).
  - exact toy_log_prob_defined.
  - simpl. lia.
  - exact toy_model_shape.
  - reflexivity.
  - exact (proj1 toy_episode_provided).
  - exact (proj1 (proj2 toy_episode_provided)).
  - exact (proj2 (proj2 toy_episode_provided)).
  - apply unit_carry_shape.
  - apply unit_carry_shape.
Defined.

Lemma get_ppo_variables_aligned_witness :
  exists vars c,
    KbotWalkingTask.get_ppo_variables toy_task toy_model toy_episode
      ([[0]], [[0]]) 0%nat = inr (vars, c) /\
    length vars = length (done toy_episode).
Proof.
  eexists _, _. split; [reflexivity |].
  eapply (get_ppo_variables_aligned toy_task toy_model toy_episode
            ([[0]], [[0]]) 0%nat).
  reflexivity.
Defined.

Lemma scan_isolated_after_done_witness :
  exists c ys c' ys',
    lax_scan (KbotWalkingTask.scan_fn toy_task toy_model 0%nat)
      ([[0]], [[0]])
      ([toy_transition false; toy_transition false] ++
       toy_transition true :: [toy_transition false]) = inr (c, ys) /\
    lax_scan (KbotWalkingTask.scan_fn toy_task toy_model 0%nat)
      ([[5]], [[6]])
      ([] ++ toy_transition true :: [toy_transition false]) = inr (c', ys') /\
    c = c' /\ drop 3 ys = drop 1 ys'.
Proof.
  eexists _, _, _, _. split; [reflexivity |]. split; [reflexivity |].
  apply (scan_isolated_after_done toy_task toy_model 0%nat
           ([[0]], [[0]]) ([[5]], [[6]])
           [toy_transition false; toy_transition false] []
           (toy_transition true) (toy_transition true)
           [toy_transition false]);
    reflexivity.
Defined.

(** ** Inputs of the networks *)

Section Inputs.

Context {PRNGKey : Type} `{!Distribution PRNGKey}.

(** X27. The widths declared by the constants agree with what the two
    networks are fed: when every observation and command has its declared
    width, the vector run_actor gives to the actor has NUM_ACTOR_INPUTS
    entries and the vector run_critic gives to the critic has
    NUM_CRITIC_INPUTS entries. *)
Theorem network_input_widths self observations commands :
  provides observations (actor_observation_keys ++ privileged_keys) ->
  provides commands actor_command_keys ->
  exists actor_obs critic_obs,
    length actor_obs = NUM_ACTOR_INPUTS /\
    length critic_obs = NUM_CRITIC_INPUTS /\
    (forall model c,
       KbotWalkingTask.run_actor self model observations commands c =
       Actor.forward model actor_obs c) /\
    (forall model c,
       KbotWalkingTask.run_critic self model observations commands c =
       Critic.forward model critic_obs c).
Proof.
  intros Ho Hc. split_provided.
  eexists _, _. split; [| split; [| split]].
  3:{ intros model c. rewrite run_actor_factored. unfold actor_input.
      read_keys. reflexivity. }
  3:{ intros model c. rewrite run_critic_factored. unfold critic_input.
      read_keys. reflexivity. }
  - rewrite !length_app.
    repeat match goal with H : length _ = _ |- _ => rewrite H; clear H end.
    reflexivity.
  - rewrite !length_app, !length_map.
    repeat match goal with H : length _ = _ |- _ => rewrite H; clear H end.
    reflexivity.
Qed.

(** X28. run_actor and sample_action fail on the first key that is missing,
    in reading order: with the observations before one of the six actor
    observations present and that one absent they raise KeyError for it, and
    with all six present, the commands before one of the three commands
    present and that one absent they raise KeyError for that command. *)
Theorem run_actor_first_missing_key self model observations commands c
    pre k post :
  (actor_observation_keys = pre ++ k :: post ->
   has_keys observations pre ->
   observations !! k = None ->
   KbotWalkingTask.run_actor self (actor model) observations commands (fst c)
     = inl (KeyError k) /\
   forall (rng : PRNGKey) argmax,
     KbotWalkingTask.sample_action self model c observations commands rng
       argmax = inl (KeyError k)) /\
  (has_keys observations actor_observation_keys ->
   actor_command_keys = pre ++ k :: post ->
   has_keys commands pre ->
   commands !! k = None ->
   KbotWalkingTask.run_actor self (actor model) observations commands (fst c)
     = inl (KeyError k) /\
   forall (rng : PRNGKey) argmax,
     KbotWalkingTask.sample_action self model c observations commands rng
       argmax = inl (KeyError k)).
Proof.
  assert (Hsample : forall e,
    KbotWalkingTask.run_actor self (actor model) observations commands (fst c)
      = inl e ->
    forall (rng : PRNGKey) argmax,
      KbotWalkingTask.sample_action self model c observations commands rng
        argmax = inl e).
  { intros e He rng argmax. unfold KbotWalkingTask.sample_action.
    destruct c as [ac cc]. simpl in He. by rewrite He. }
  split.
  - intros Hkeys Hpre Hk.
    assert (Hrun : KbotWalkingTask.run_actor self (actor model) observations
                     commands (fst c) = inl (KeyError k)).
    { unfold actor_observation_keys in Hkeys.
      repeat (destruct pre as [| ? pre]; simplify_eq/=;
              [split_keys; unfold KbotWalkingTask.run_actor; read_keys;
               by rewrite (getitem_None _ _ Hk) |]).
      destruct pre; simplify_eq/=. }
    split; [exact Hrun | by apply Hsample].
  - intros Hobs Hkeys Hpre Hk.
    assert (Hrun : KbotWalkingTask.run_actor self (actor model) observations
                     commands (fst c) = inl (KeyError k)).
    { unfold actor_command_keys in Hkeys.
      repeat (destruct pre as [| ? pre]; simplify_eq/=;
              [split_keys; unfold KbotWalkingTask.run_actor; read_keys;
               by rewrite (getitem_None _ _ Hk) |]).
      destruct pre; simplify_eq/=. }
    split; [exact Hrun | by apply Hsample].
Qed.

End Inputs.

Lemma network_input_widths_witness :
  exists actor_obs critic_obs,
    length actor_obs = NUM_ACTOR_INPUTS /\
    length critic_obs = NUM_CRITIC_INPUTS /\
    (forall model c,
       KbotWalkingTask.run_actor toy_task model full_observations
         (commands_of [1; 0] [0] [1]) c =
       Actor.forward model actor_obs c) /\
    (forall model c,
       KbotWalkingTask.run_critic toy_task model full_observations
         (commands_of [1; 0] [0] [1]) c =
       Critic.forward model critic_obs c).
Proof.
  apply (network_input_widths toy_task full_observations
           (commands_of [1; 0] [0] [1])).
  - unfold provides.
    repeat (apply Forall_cons; split;
            [eexists _, _; split; [reflexivity | split; reflexivity] |]).
    constructor.
  - unfold provides.
    repeat (apply Forall_cons; split;
            [eexists _, _; split; [reflexivity | split; reflexivity] |]).
    constructor.
Defined.

Lemma run_actor_first_missing_key_witness :
  KbotWalkingTask.run_actor toy_task (actor toy_model)
    observations_without_joint_velocity (commands_of [1; 0] [0] [1]) [[0]]
    = inl (KeyError "joint_velocity_observation") /\
  forall (rng : nat) argmax,
    KbotWalkingTask.sample_action toy_task toy_model ([[0]], [[0]])
      observations_without_joint_velocity (commands_of [1; 0] [0] [1])
      rng argmax = inl (KeyError "joint_velocity_observation").
Proof.
  apply (proj1 (run_actor_first_missing_key toy_task toy_model
                  observations_without_joint_velocity
                  (commands_of [1; 0] [0] [1]) ([[0]], [[0]])
                  [ "timestep_phase_observation";
                    "joint_position_observation" ]
                  "joint_velocity_observation"
                  [ "projected_gravity_observation";
                    "sensor_observation_imu_gyro";
                    "sensor_observation_imu_acc" ])).
  - reflexivity.
  - unfold has_keys. repeat constructor; eexists; reflexivity.
  - reflexivity.
Defined.

(** ** Joint targets by name *)

Lemma zeros_fold_lookup (l : list (string * R)) (m : gmap string R) k v :
  foldl (fun m (kv : string * R) => <[fst kv := snd kv]> m) m l !! k = Some v ->
  (k, v) ∈ l \/ m !! k = Some v.
Proof.
  revert m. induction l as [| [k' v'] l IH]; intros m H; simpl in H.
  - by right.
  - apply IH in H as [H | H].
    + left. by apply list_elem_of_further.
    + destruct (decide (k' = k)) as [-> | Hne].
      * rewrite lookup_insert_eq in H. injection H as ->.
        left. apply list_elem_of_here.
      * rewrite lookup_insert_ne in H by done. by right.
Qed.

Lemma mapM_first_error {A B} (f : A -> result B) pre a post e :
  Forall (fun x => exists b, f x = inr b) pre ->
  f a = inl e ->
  mapM f (pre ++ a :: post) = inl e.
Proof.
  intros Hpre Ha. induction Hpre as [| x pre [b Hb] Hpre IH]; simpl.
  - by rewrite Ha.
  - rewrite Hb. cbn [bind]. by rewrite IH.
Qed.

(** X29. JointPositionPenalty.create_from_names pairs every name with its
    entry of ZEROS: whenever it returns, it hands on one target per name, in
    order, and each target is the value listed for that name in ZEROS; a
    name that is not in the table makes it raise KeyError for the first such
    name. *)
Theorem create_from_names_targets names :
  (forall ns targets,
     JointPositionPenalty.create_from_names names = inr (ns, targets) ->
     ns = names /\ length targets = length names /\
     forall i name, names !! i = Some name ->
       exists v, targets !! i = Some v /\ (name, v) ∈ ZEROS) /\
  (forall pre name post,
     names = pre ++ name :: post ->
     Forall (fun n => is_Some (JointPositionPenalty.zeros !! n)) pre ->
     JointPositionPenalty.zeros !! name = None ->
     JointPositionPenalty.create_from_names names = inl (KeyError name)).
Proof.
  split.
  - intros ns targets H. unfold JointPositionPenalty.create_from_names in H.
    inv_bind_as H Em ts. injection H as <- <-.
    split; [done |]. split; [by apply (mapM_length _ _ _ Em) |].
    intros i name Hi.
    destruct (mapM_lookup _ _ _ _ _ Em Hi) as (v & Hv & Hg).
    exists v. split; [done |]. apply getitem_inv in Hg.
    by destruct (zeros_fold_lookup _ _ _ _ Hg) as [? | ?].
  - intros pre name post -> Hpre Hname.
    unfold JointPositionPenalty.create_from_names.
    rewrite (mapM_first_error _ pre name post (KeyError name)); [done | |].
    + eapply Forall_impl; [exact Hpre |]. intros n [v Hn].
      exists v. by apply getitem_Some.
    + by apply getitem_None.
Qed.

(** The two penalties of [get_rewards] only name joints of the table. *)
Lemma create_from_names_targets_witness :
  (exists targets,
     BentArmPenalty.create_penalty = inr (BentArmPenalty.names, targets) /\
     length targets = 10%nat) /\
  (exists targets,
     StraightLegPenalty.create_penalty
       = inr (StraightLegPenalty.names, targets) /\
     length targets = 6%nat) /\
  JointPositionPenalty.create_from_names
    ["dof_right_knee_04"; "dof_neck_00"; "dof_left_knee_04"]
    = inl (KeyError "dof_neck_00").
Proof.
  split; [| split].
  - eexists. split; [reflexivity |].
    eapply (proj1 (create_from_names_targets BentArmPenalty.names)).
    reflexivity.
  - eexists. split; [reflexivity |].
    eapply (proj1 (create_from_names_targets StraightLegPenalty.names)).
    reflexivity.
  - apply (proj2 (create_from_names_targets
                    ["dof_right_knee_04"; "dof_neck_00"; "dof_left_knee_04"])
             ["dof_right_knee_04"] "dof_neck_00" ["dof_left_knee_04"]).
    + reflexivity.
    + repeat constructor. eexists. reflexivity.
    + reflexivity.
Defined.

(** ** The spread of the shipped model *)

(** X30. Every model that get_model builds keeps its spreads in the
    configured interval: whatever the layers and the number of mixtures,
    whenever the actor's forward pass returns, every standard deviation of
    the distribution lies in [0.01, 1.0]. *)
Theorem shipped_model_spread layers num_mixtures obs_n c d c' :
  Actor.forward (actor (get_model layers num_mixtures)) obs_n c
    = inr (d, c') ->
  Forall (Forall (fun s => 1 / 100 <= s <= 1)) (stds_nm d).
Proof.
  intros H. destruct (forward_stds _ _ _ _ _ H) as [raw_nm ->].
  apply Forall_fmap, Forall_true. intros row.
  apply Forall_fmap, Forall_true. intros raw.
  pose proof (std_transform_bounds
                (actor (get_model layers num_mixtures)) raw) as Hb.
  cbn [actor get_model Model_init Actor.var_scale Actor.min_std Actor.max_std]
    in Hb.
  simpl. lra.
Qed.

Lemma shipped_model_spread_witness :
  exists d c',
    Actor.forward (actor (get_model toy_layers 1))
      (replicate NUM_ACTOR_INPUTS 0) [[0]] = inr (d, c') /\
    Forall (Forall (fun s => 1 / 100 <= s <= 1)) (stds_nm d).
Proof.
  eexists _, _. split; [reflexivity |].
  eapply (shipped_model_spread toy_layers 1 (replicate NUM_ACTOR_INPUTS 0)
            [[0]]).
  reflexivity.
Defined.
